(** * encoding_prompter: response parser and document loader

    A shallow embedding of [encoding_prompter/parser.py] and
    [encoding_prompter/document.py], together with the fragment of Python's
    [re], [str] and [int] that these two modules rely on.

    A Python [str] is a sequence of Unicode code points; it is modelled as
    [list N].  The character tables ([\s], [\d], case-insensitive matching of
    the ASCII letters of the patterns) are those of Unicode 14.0. *)

From Stdlib Require Import String Ascii.
From stdpp Require Import base list strings gmap sorting.
From Stdlib Require Import ZArith NArith Lia.

Local Open Scope N_scope.

(** ** Python strings *)

Module Py.

Abbreviation pystr := (list N) (only parsing).

(** A literal of the source, written as a Rocq string. *)
Definition lit (s : string) : pystr :=
  map N_of_ascii (list_ascii_of_string s).

Definition NL : N := 10.

(** [str.isspace] on one character ([Py_UNICODE_ISSPACE]); this is also the
    class [\s] of [re] on [str] patterns and the set removed by
    [str.strip()]. *)
Definition white_space : list N :=
  [9; 10; 11; 12; 13; 28; 29; 30; 31; 32; 133; 160; 5760;
   8192; 8193; 8194; 8195; 8196; 8197; 8198; 8199; 8200; 8201; 8202;
   8232; 8233; 8239; 8287; 12288].

Definition is_space (c : N) : bool := existsb (N.eqb c) white_space.

(** First code point of every run of ten decimal digits (category Nd). *)
Definition decimal_zeros : list N :=
  [48; 1632; 1776; 1984; 2406; 2534; 2662; 2790; 2918; 3046; 3174; 3302;
   3430; 3558; 3664; 3792; 3872; 4160; 4240; 6112; 6160; 6470; 6608; 6784;
   6800; 6992; 7088; 7232; 7248; 42528; 43216; 43264; 43472; 43504; 43600;
   44016; 65296; 66720; 68912; 69734; 69872; 69942; 70096; 70384; 70736;
   70864; 71248; 71360; 71472; 71904; 72016; 72784; 73040; 73120; 92768;
   92864; 93008; 120782; 120792; 120802; 120812; 120822; 123200; 123632;
   125264; 130032].

(** [Py_UNICODE_TODECIMAL]: the value of a decimal digit. *)
Definition decimal_value (c : N) : option N :=
  match find (fun z => (z <=? c) && (c <? z + 10)) decimal_zeros with
  | Some z => Some (c - z)
  | None => None
  end.

(** The class [\d] of [re] on [str] patterns ([Py_UNICODE_ISDECIMAL]). *)
Definition is_decimal (c : N) : bool :=
  match decimal_value c with Some _ => true | None => false end.

(** Case folding used by [re.IGNORECASE] for the literals of the patterns.
    All such literals are ASCII; besides the two ASCII cases of a letter,
    U+0130 and U+0131 match [i], U+017F matches [s] and U+212A matches [k]. *)
Definition fold_case (c : N) : N :=
  if (65 <=? c) && (c <=? 90) then c + 32
  else if (c =? 304) || (c =? 305) then 105
  else if c =? 383 then 115
  else if c =? 8490 then 107
  else c.

(** Text character [c] matches the pattern literal [p] under IGNORECASE. *)
Definition ci_eq (p c : N) : bool := fold_case p =? fold_case c.

Definition is_upper_ascii (c : N) : bool := (65 <=? c) && (c <=? 90).
Definition is_lower_ascii (c : N) : bool := (97 <=? c) && (c <=? 122).
Definition is_digit_ascii (c : N) : bool := (48 <=? c) && (c <=? 57).

(** [str.strip()] *)
Fixpoint lstrip (s : pystr) : pystr :=
  match s with
  | c :: s' => if is_space c then lstrip s' else s
  | [] => []
  end.

Definition rstrip (s : pystr) : pystr := rev (lstrip (rev s)).

Definition strip (s : pystr) : pystr := rstrip (lstrip s).

(** Truth value of a [str]. *)
Definition truthy (s : pystr) : bool :=
  match s with [] => false | _ => true end.

(** [sep.join(parts)] *)
Fixpoint join (sep : pystr) (parts : list pystr) : pystr :=
  match parts with
  | [] => []
  | [p] => p
  | p :: ps => p ++ sep ++ join sep ps
  end.

(** [needle in hay] *)
Fixpoint starts_with (needle hay : pystr) : bool :=
  match needle, hay with
  | [], _ => true
  | a :: n', b :: h' => (a =? b) && starts_with n' h'
  | _ :: _, [] => false
  end.

Fixpoint contains (needle hay : pystr) : bool :=
  starts_with needle hay ||
  match hay with
  | [] => false
  | _ :: h' => contains needle h'
  end.

(** *** [int(str)]

    Characters below 127 are passed through and every other white-space
    character becomes a blank, so the white space accepted around the
    number is [\s] without U+001C..U+001F.  The digits may be any decimal
    digits, with single underscores between them.  Python integers are
    unbounded ([Z]).  The interpreter refuses to convert a numeral of more
    than [max_str_digits] digits: this is [sys.get_int_max_str_digits()],
    4300 unless the interpreter is set otherwise; 0 switches the limit off,
    and stands for the interpreters that have no such limit. *)
Definition default_max_str_digits : nat := 4300.

(** A numeral of [n] digits exceeds the limit. *)
Definition exceeds_limit (max_str_digits n : nat) : bool :=
  (0 <? max_str_digits)%nat && (max_str_digits <? n)%nat.

(** The digits of a text. *)
Definition count_digits (s : pystr) : nat := length (List.filter is_decimal s).

Definition int_space (c : N) : bool :=
  is_space c && negb ((28 <=? c) && (c <=? 31)).

Fixpoint int_lskip (s : pystr) : pystr :=
  match s with
  | c :: s' => if int_space c then int_lskip s' else s
  | [] => []
  end.

Definition UNDERSCORE : N := 95.

(** Digits of the numeral, after the first digit has been read;
    [acc] is the value so far. *)
Fixpoint int_digits (acc : N) (s : pystr) : option N :=
  match s with
  | [] => Some acc
  | c :: s' =>
      match decimal_value c with
      | Some d => int_digits (10 * acc + d) s'
      | None =>
          if c =? UNDERSCORE then
            match s' with
            | c' :: _ =>
                match decimal_value c' with
                | Some _ => int_digits acc s'
                | None => None
                end
            | [] => None
            end
          else None
      end
  end.

Definition int_unsigned (s : pystr) : option N :=
  match s with
  | c :: _ =>
      match decimal_value c with
      | Some _ => int_digits 0 s
      | None => None
      end
  | [] => None
  end.

(** The number written by a run of decimal digits. *)
Definition decimal_number (t : pystr) : N :=
  foldl (λ a c, 10 * a + default 0 (decimal_value c)) 0 t.

(** The text without the white space around it. *)
Definition int_strip (s : pystr) : pystr := rev (int_lskip (rev (int_lskip s))).

(** [int(s)]; [None] stands for [ValueError]: the text is no numeral, or it
    has more digits than the limit allows. *)
Definition int (max_str_digits : nat) (s : pystr) : option Z :=
  let s := int_strip s in
  if exceeds_limit max_str_digits (count_digits s) then None
  else
    match s with
    | 43 :: s' => Z.of_N <$> int_unsigned s'
    | 45 :: s' => (fun n => (- Z.of_N n)%Z) <$> int_unsigned s'
    | _ => Z.of_N <$> int_unsigned s
    end.

End Py.


(** ** Python exceptions *)

Inductive exn :=
| ValueError (msg : Py.pystr)
| FileNotFoundError (msg : Py.pystr)
| IndexError
| AttributeError
| TypeError
| UnicodeDecodeError.

Inductive result (A : Type) :=
| Ok (a : A)
| Raise (e : exn).
Arguments Ok {A} a.
Arguments Raise {A} e.

#[global] Instance result_ret : MRet result := fun _ a => Ok a.
#[global] Instance result_bind : MBind result := fun _ _ f m =>
  match m with
  | Ok a => f a
  | Raise e => Raise e
  end.

(** ** The fragment of [re] used by the program

    A backtracking matcher in the list-of-successes style: [run r x] lists
    the states the matcher can reach from [x], in the order in which the
    backtracking engine of [re] tries them, so that the head of the list is
    the match that [re] reports.  Every repetition of the program's patterns
    ranges over a single character class. *)

Module Re.
Import Py.

(** A position in the subject: the character before it (if any) and the
    text after it. *)
Record pos := Pos { prev : option N; rest : pystr }.

Inductive regex :=
| Eps
| Chr (p : N → bool)
| Rep (greedy : bool) (lo : nat) (hi : option nat) (p : N → bool)
| Seq (a b : regex)
| Alt (a b : regex)
| Grp (a : regex)
| Ahead (a : regex)
| Bos
| Bol
| Eos.

(** The character before the position reached after reading [t]. *)
Definition prev_after (pv : option N) (t : pystr) : option N :=
  match last t with Some c => Some c | None => pv end.

(** Matcher state: position and the text of group 1. *)
Definition st := (pos * option pystr)%type.

Definition may_take (hi : option nat) : bool :=
  match hi with Some O => false | _ => true end.

(** [p{lo,hi}] (greedy) or [p{lo,hi}?] (lazy) from the text [s]. *)
Fixpoint rep (greedy : bool) (p : N → bool) (lo : nat) (hi : option nat)
    (pv : option N) (s : pystr) : list pos :=
  let stop := match lo with O => [Pos pv s] | S _ => [] end in
  match s with
  | c :: s' =>
      if p c && may_take hi then
        let more := rep greedy p (pred lo) (pred <$> hi) (Some c) s' in
        if greedy then more ++ stop else stop ++ more
      else stop
  | [] => stop
  end.

(** Text consumed between two positions of the same subject. *)
Definition consumed (s s' : pystr) : pystr := take (length s - length s') s.

Fixpoint run (r : regex) (x : st) : list st :=
  match r with
  | Eps => [x]
  | Chr p =>
      match rest x.1 with
      | c :: s' => if p c then [(Pos (Some c) s', x.2)] else []
      | [] => []
      end
  | Rep g lo hi p => (λ q, (q, x.2)) <$> rep g p lo hi (prev x.1) (rest x.1)
  | Seq a b => run a x ≫= run b
  | Alt a b => run a x ++ run b x
  | Grp a => (λ y, (y.1, Some (consumed (rest x.1) (rest y.1)))) <$> run a x
  | Ahead a => match run a x with [] => [] | _ :: _ => [x] end
  | Bos => match prev x.1 with None => [x] | Some _ => [] end
  | Bol =>
      match prev x.1 with
      | None => [x]
      | Some c => if c =? NL then [x] else []
      end
  | Eos =>
      match rest x.1 with
      | [] => [x]
      | [c] => if c =? NL then [x] else []
      | _ => []
      end
  end.

(** The match tried at one position. *)
Definition match_here (r : regex) (pv : option N) (s : pystr) : option st :=
  head (run r (Pos pv s, None)).

(** A match object: the text before the match, [group(0)], [group(1)] and
    the text after the match. *)
Record Match := {
  m_pre : pystr;
  m_text : pystr;
  m_group : option pystr;
  m_post : pystr
}.

Definition group1 (m : Match) : pystr := default [] (m_group m).

(** [re.search]: leftmost position at which the pattern matches. *)
Fixpoint search_from (r : regex) (pre : pystr) (s : pystr) : option Match :=
  match match_here r (last pre) s with
  | Some (q, g) =>
      Some {| m_pre := pre; m_text := consumed s (rest q);
              m_group := g; m_post := rest q |}
  | None =>
      match s with
      | c :: s' => search_from r (pre ++ [c]) s'
      | [] => None
      end
  end.

Definition search (r : regex) (s : pystr) : option Match := search_from r [] s.

(** [re.match]: the pattern matches at the start of the subject. *)
Definition match_ (r : regex) (s : pystr) : option st := match_here r None s.

(** [re.finditer], giving [group(1)] of every match.  [skip] counts the
    characters of the previous match that are still to be passed.  None of
    the program's patterns matches the empty string; after such a match the
    scan would resume one character further. *)
Fixpoint finditer_from (r : regex) (skip : nat) (pv : option N) (s : pystr)
    : list pystr :=
  match skip, s with
  | S k, c :: s' => finditer_from r k (Some c) s'
  | S _, [] => []
  | O, _ =>
      match match_here r pv s with
      | Some (q, g) =>
          default [] g ::
          match s with
          | c :: s' => finditer_from r (pred (length s - length (rest q))%nat) (Some c) s'
          | [] => []
          end
      | None =>
          match s with
          | c :: s' => finditer_from r 0 (Some c) s'
          | [] => []
          end
      end
  end.

Definition finditer (r : regex) (s : pystr) : list pystr :=
  finditer_from r 0 None s.

(** [re.split] for a pattern without groups: the pieces between the
    successive non-empty matches.  [piece] is the piece under construction. *)
Fixpoint split_from (r : regex) (skip : nat) (pv : option N) (piece : pystr)
    (s : pystr) : list pystr :=
  match s with
  | [] => [piece]
  | c :: s' =>
      match skip with
      | S k => split_from r k (Some c) piece s'
      | O =>
          match match_here r pv s with
          | Some (q, _) =>
              match (length s - length (rest q))%nat with
              | S k => piece :: split_from r k (Some c) [] s'
              | O => split_from r 0 (Some c) (piece ++ [c]) s'
              end
          | None => split_from r 0 (Some c) (piece ++ [c]) s'
          end
      end
  end.

Definition split (r : regex) (s : pystr) : list pystr :=
  split_from r 0 None [] s.

(** *** Pattern syntax *)

Definition seqs (rs : list regex) : regex := foldr Seq Eps rs.

Fixpoint alts (rs : list regex) : regex :=
  match rs with
  | [] => Chr (λ _, false)
  | [r] => r
  | r :: rs' => Alt r (alts rs')
  end.

(** A literal character, a literal word, and their IGNORECASE versions. *)
Definition chr (c : N) : regex := Chr (N.eqb c).
Definition word (w : string) : regex := seqs (chr <$> lit w).
Definition word_i (w : string) : regex := seqs ((λ c, Chr (ci_eq c)) <$> lit w).

(** [.] under DOTALL, [[^\n]], [\s], [\d]. *)
Definition any_char : N → bool := λ _, true.
Definition not_newline : N → bool := λ c, negb (c =? NL).

Definition star (p : N → bool) : regex := Rep true 0 None p.
Definition plus (p : N → bool) : regex := Rep true 1 None p.
Definition plus_lazy (p : N → bool) : regex := Rep false 1 None p.
Definition opt (p : N → bool) : regex := Rep true 0 (Some 1%nat) p.
Definition at_least (n : nat) (p : N → bool) : regex := Rep true n None p.
Definition exactly (n : nat) (p : N → bool) : regex := Rep true n (Some n) p.

End Re.

(** ** [encoding_prompter/parser.py] *)

Module Parser.
Import Py Re.

Record EncodingInstance := {
  doc_id : pystr;
  speaker_id : pystr;
  construct : pystr;
  quote : pystr;
  confidence : Z
}.

(** [instance.doc_id = v] *)
Definition set_doc_id (v : pystr) (i : EncodingInstance) : EncodingInstance :=
  {| doc_id := v; speaker_id := speaker_id i; construct := construct i;
     quote := quote i; confidence := confidence i |}.

(** [r"\n(?=DOC_ID:|DOC ID:)"], IGNORECASE *)
Definition blocks_pattern : regex :=
  seqs [chr NL; Ahead (Alt (word_i "DOC_ID:") (word_i "DOC ID:"))].

(** [[_\s]] *)
Definition underscore_or_space (c : N) : bool := (c =? UNDERSCORE) || is_space c.

(** The [patterns] of [_parse_block], IGNORECASE | DOTALL:
<<
  doc_id      DOC[_\s]?ID:\s*(.+?)(?=\n|SPEAKER|$)
  speaker_id  SPEAKER[_\s]?ID:\s*(.+?)(?=\n|CONSTRUCT|$)
  construct   CONSTRUCT:\s*(.+?)(?=\n|QUOTE|$)
  quote       QUOTE:\s*(.+?)(?=\n(?:CONFIDENCE|DOC)|$)
  confidence  CONFIDENCE:\s*(\d+)
>> *)
Definition doc_id_pattern : regex :=
  seqs [word_i "DOC"; opt underscore_or_space; word_i "ID:"; star is_space;
        Grp (plus_lazy any_char);
        Ahead (alts [chr NL; word_i "SPEAKER"; Eos])].

Definition speaker_id_pattern : regex :=
  seqs [word_i "SPEAKER"; opt underscore_or_space; word_i "ID:"; star is_space;
        Grp (plus_lazy any_char);
        Ahead (alts [chr NL; word_i "CONSTRUCT"; Eos])].

Definition construct_pattern : regex :=
  seqs [word_i "CONSTRUCT:"; star is_space;
        Grp (plus_lazy any_char);
        Ahead (alts [chr NL; word_i "QUOTE"; Eos])].

Definition quote_pattern : regex :=
  seqs [word_i "QUOTE:"; star is_space;
        Grp (plus_lazy any_char);
        Ahead (alts [Seq (chr NL) (Alt (word_i "CONFIDENCE") (word_i "DOC"));
                     Eos])].

Definition confidence_pattern : regex :=
  seqs [word_i "CONFIDENCE:"; star is_space; Grp (plus is_decimal)].

Definition patterns : list (string * regex) :=
  [("doc_id", doc_id_pattern);
   ("speaker_id", speaker_id_pattern);
   ("construct", construct_pattern);
   ("quote", quote_pattern);
   ("confidence", confidence_pattern)].

(** The loop filling the [values] dict. *)
Definition match_fields (block : pystr) : gmap string pystr :=
  foldl (λ (values : gmap string pystr) '(field, pattern),
           match search pattern block with
           | Some m => <[field := strip (group1 m)]> values
           | None => values
           end) ∅ patterns.

(** [try: body / except ValueError: handler] *)
Definition try_except_ValueError {A} (body handler : result A) : result A :=
  match body with
  | Raise (ValueError _) => handler
  | _ => body
  end.

(** [r"\d+"] *)
Definition digits_pattern : regex := plus is_decimal.

(** The messages of [int], abridged. *)
Definition invalid_literal : pystr :=
  lit "invalid literal for int() with base 10".
Definition exceeds_the_limit : pystr :=
  lit "Exceeds the limit for integer string conversion".

Section Interpreter.

(** [sys.get_int_max_str_digits()] *)
Variable max_str_digits : nat.

(** [int(s)] raising [ValueError]. *)
Definition int_ (s : pystr) : result Z :=
  match int max_str_digits s with
  | Some n => Ok n
  | None =>
      Raise (ValueError
               (if exceeds_limit max_str_digits (count_digits (int_strip s))
                then exceeds_the_limit else invalid_literal))
  end.

Definition _parse_block (block default_doc_id : pystr)
    : result (option EncodingInstance) :=
  let values := match_fields block in
  match values !! "construct" with
  | None => mret None
  | Some _ =>
      confidence ←
        match values !! "confidence" with
        | Some v =>
            try_except_ValueError (int_ v)
              (match search digits_pattern v with
               | Some num_match => int_ (m_text num_match)
               | None => mret (-1)%Z
               end)
        | None => mret (-1)%Z
        end;
      mret (Some {| doc_id := default default_doc_id (values !! "doc_id");
                    speaker_id := default [] (values !! "speaker_id");
                    construct := default [] (values !! "construct");
                    quote := default [] (values !! "quote");
                    confidence := confidence |})
  end.

(** The loop over the blocks; [instances] is the list built so far. *)
Fixpoint for_blocks (default_doc_id : pystr) (blocks : list pystr)
    (instances : list EncodingInstance) : result (list EncodingInstance) :=
  match blocks with
  | [] => mret instances
  | block :: blocks' =>
      if negb (truthy (strip block)) then
        for_blocks default_doc_id blocks' instances
      else
        instance ← _parse_block block default_doc_id;
        match instance with
        | Some inst =>
            if truthy (construct inst) then
              let inst :=
                if truthy default_doc_id then set_doc_id default_doc_id inst
                else inst in
              for_blocks default_doc_id blocks' (instances ++ [inst])
            else for_blocks default_doc_id blocks' instances
        | None => for_blocks default_doc_id blocks' instances
        end
  end.

Definition parse_response (response_text default_doc_id : pystr)
    : result (list EncodingInstance) :=
  let blocks := split blocks_pattern response_text in
  for_blocks default_doc_id blocks [].

End Interpreter.

(** *** The parser as a pure function

    The value of one field, the instance of one block and the instances a
    block contributes, written without the dict and without exceptions,
    and the blocks on which the conversion of the confidence raises.  They
    are shown below to be what [_parse_block] and [parse_response]
    compute. *)

Definition field_value (pattern : regex) (block : pystr) : option pystr :=
  (λ m, strip (group1 m)) <$> search pattern block.

Definition block_confidence (block : pystr) : Z :=
  match field_value confidence_pattern block with
  | Some v => Z.of_N (decimal_number v)
  | None => (-1)%Z
  end.

Definition block_instance (block default_doc_id : pystr)
    : option EncodingInstance :=
  match field_value construct_pattern block with
  | None => None
  | Some c =>
      Some {| doc_id := default default_doc_id (field_value doc_id_pattern block);
              speaker_id := default [] (field_value speaker_id_pattern block);
              construct := c;
              quote := default [] (field_value quote_pattern block);
              confidence := block_confidence block |}
  end.

Definition emitted (default_doc_id block : pystr) : list EncodingInstance :=
  if truthy (strip block) then
    match block_instance block default_doc_id with
    | Some inst =>
        if truthy (construct inst) then
          [if truthy default_doc_id then set_doc_id default_doc_id inst else inst]
        else []
    | None => []
    end
  else [].

(** The construct field of the block is found, and its confidence field
    has more digits than the limit allows. *)
Definition confidence_over (max_str_digits : nat) (block : pystr) : bool :=
  match field_value construct_pattern block,
        field_value confidence_pattern block with
  | Some _, Some v => exceeds_limit max_str_digits (length v)
  | _, _ => false
  end.

Definition block_raises (max_str_digits : nat) (block : pystr) : bool :=
  truthy (strip block) && confidence_over max_str_digits block.

End Parser.

(** ** What the patterns of the parser read

    Direct definitions, by recursion on the text, of what each field
    pattern finds in a block.  They are compared with the patterns below. *)

Module ParserSpec.
Import Py Re Parser.

(** The word [w] at the start of [s], letters compared by [eq]: the text
    read and the text after it. *)
Fixpoint read_word (eq : N → N → bool) (w s : pystr) : option (pystr * pystr) :=
  match w with
  | [] => Some ([], s)
  | c :: w' =>
      match s with
      | d :: s' =>
          if eq c d then (λ tr, (d :: tr.1, tr.2)) <$> read_word eq w' s'
          else None
      | [] => None
      end
  end.

(** [s] begins with the word [w], in any case. *)
Definition begins_i (w : string) (s : pystr) : bool :=
  match read_word ci_eq (lit w) s with Some _ => true | None => false end.

(** The text after a one-word label at the start of [s]. *)
Definition read_label (w : string) (s : pystr) : option pystr :=
  snd <$> read_word ci_eq (lit w) s.

(** The text after a two-word label at the start of [s]: the words may be
    joined by an underscore, by one white-space character, or by nothing. *)
Definition read_label2 (w1 w2 : string) (s : pystr) : option pystr :=
  match read_word ci_eq (lit w1) s with
  | Some (_, c :: s2) =>
      if underscore_or_space c then read_label w2 s2
      else read_label w2 (c :: s2)
  | _ => None
  end.

(** The first suffix of the text, from left to right, at which [f]
    succeeds. *)
Fixpoint first_suffix {A} (f : pystr → option A) (s : pystr) : option A :=
  match f s with
  | Some a => Some a
  | None =>
      match s with
      | _ :: s' => first_suffix f s'
      | [] => None
      end
  end.

(** The text before the first position of [s] at which [stop] holds. *)
Fixpoint upto (stop : pystr → bool) (s : pystr) : pystr :=
  if stop s then []
  else match s with
       | c :: s' => c :: upto stop s'
       | [] => []
       end.

(** The value captured after a label: white space is skipped, then at
    least one character is taken, up to the first stop.  When only white
    space follows the label, its last character is the value. *)
Definition capture (stop : pystr → bool) (s : pystr) : option pystr :=
  match lstrip s with
  | c :: r => Some (c :: upto stop r)
  | [] => (λ c, [c]) <$> last s
  end.

(** The longest prefix of characters of a class. *)
Fixpoint while (p : N → bool) (s : pystr) : pystr :=
  match s with
  | c :: s' => if p c then c :: while p s' else []
  | [] => []
  end.

(** The run of digits at the start of [s], if there is one. *)
Definition digit_run (s : pystr) : option pystr :=
  match while is_decimal s with
  | [] => None
  | ds => Some ds
  end.

(** Stops of the captures: the end of the block, a line break, or the
    given word. *)
Definition stop_before (w : string) (s : pystr) : bool :=
  match s with
  | [] => true
  | c :: _ => (c =? NL) || begins_i w s
  end.

(** Stop of the quote: the end of the block, a final line break, or a line
    break followed by CONFIDENCE or DOC. *)
Definition stop_quote (s : pystr) : bool :=
  match s with
  | [] => true
  | c :: s' =>
      (c =? NL) &&
      match s' with
      | [] => true
      | _ => begins_i "CONFIDENCE" s' || begins_i "DOC" s'
      end
  end.

Definition spec_field (label : pystr → option pystr) (stop : pystr → bool)
    (block : pystr) : option pystr :=
  strip <$> first_suffix (λ t, label t ≫= capture stop) block.

Definition spec_doc_id : pystr → option pystr :=
  spec_field (read_label2 "DOC" "ID:") (stop_before "SPEAKER").
Definition spec_speaker_id : pystr → option pystr :=
  spec_field (read_label2 "SPEAKER" "ID:") (stop_before "CONSTRUCT").
Definition spec_construct : pystr → option pystr :=
  spec_field (read_label "CONSTRUCT:") (stop_before "QUOTE").
Definition spec_quote : pystr → option pystr :=
  spec_field (read_label "QUOTE:") stop_quote.
Definition spec_confidence : pystr → option pystr :=
  first_suffix (λ t, read_label "CONFIDENCE:" t ≫= λ r, digit_run (lstrip r)).

(** The longest run of decimal digits in a text; [run] is the length of
    the run that ends where [s] begins. *)
Fixpoint digit_runs (run : nat) (s : pystr) : nat :=
  match s with
  | [] => run
  | c :: s' =>
      if is_decimal c then digit_runs (S run) s'
      else Nat.max run (digit_runs 0 s')
  end.

Definition longest_digit_run (s : pystr) : nat := digit_runs 0 s.

(** No numeral of the text can exceed the limit of the interpreter: the
    limit is off, or the text has no longer run of digits. *)
Definition within_limit (max_str_digits : nat) (s : pystr) : bool :=
  (max_str_digits =? 0)%nat || (longest_digit_run s <=? max_str_digits)%nat.

(** The confidence as the specification words it: the text that follows the
    CONFIDENCE label, the first one of the block, decides. *)
Definition claimed_confidence (block : pystr) : Z :=
  match first_suffix (read_label "CONFIDENCE:") block with
  | Some r =>
      match digit_run (lstrip r) with
      | Some ds => Z.of_N (decimal_number ds)
      | None => (-1)%Z
      end
  | None => (-1)%Z
  end.

(** [lbl] is the label [w], in any case. *)
Definition is_label (w : string) (lbl : pystr) : Prop :=
  Forall2 (λ p c, ci_eq p c = true) (lit w) lbl.

(** No CONFIDENCE label of the block is followed, after optional white
    space, by a decimal digit. *)
Definition no_confidence_digits (block : pystr) : Prop :=
  ∀ pre lbl ws c rest,
    block = pre ++ lbl ++ ws ++ c :: rest → is_label "CONFIDENCE:" lbl →
    Forall (λ c, is_space c = true) ws → is_decimal c = false.

(** [ds] is the run of decimal digits that follows, after optional white
    space, the leftmost CONFIDENCE label of the block that is followed so
    by a digit. *)
Definition confidence_digits (block ds : pystr) : Prop :=
  ∃ pre lbl ws rest,
    block = pre ++ lbl ++ ws ++ ds ++ rest ∧
    is_label "CONFIDENCE:" lbl ∧
    (∀ pre' lbl' ws' c rest',
       block = pre' ++ lbl' ++ ws' ++ c :: rest' →
       is_label "CONFIDENCE:" lbl' →
       Forall (λ c, is_space c = true) ws' → is_decimal c = true →
       (length pre ≤ length pre')%nat) ∧
    Forall (λ c, is_space c = true) ws ∧
    ds ≠ [] ∧ Forall (λ c, is_decimal c = true) ds ∧
    (∀ c rest', rest = c :: rest' → is_decimal c = false).

(** The word [w] and the text [s] differ at some character. *)
Fixpoint mismatch (eq : N → N → bool) (w s : pystr) : bool :=
  match w, s with
  | c :: w', d :: s' => negb (eq c d) || mismatch eq w' s'
  | _, _ => false
  end.

(** [mismatch] at every position of [p]. *)
Fixpoint mismatch_all (eq : N → N → bool) (w p : pystr) : bool :=
  match p with
  | [] => true
  | _ :: p' => mismatch eq w p && mismatch_all eq w p'
  end.

(** The capture as the specification words it: everything up to the next
    recognized label or the end of the block, whatever the line breaks. *)
Definition begins_label (s : pystr) : bool :=
  bool_decide (is_Some (read_label2 "DOC" "ID:" s))
  || bool_decide (is_Some (read_label2 "SPEAKER" "ID:" s))
  || begins_i "CONSTRUCT:" s || begins_i "QUOTE:" s || begins_i "CONFIDENCE:" s.

Definition stop_at_label (s : pystr) : bool :=
  match s with
  | [] => true
  | _ => begins_label s
  end.

Definition claimed_field (label : pystr → option pystr) (block : pystr)
    : option pystr :=
  spec_field label stop_at_label block.

(** The group of the match tried first, if any. *)
Definition group_of (y : option st) : option pystr :=
  (λ y, default [] y.2) <$> y.

(** [(.+?)(?=stop)], the end of the capturing patterns. *)
Definition capture_tail (stopR : regex) : regex :=
  Seq (Grp (plus_lazy any_char)) (Seq (Ahead stopR) Eps).

(** Sample responses. *)
Definition sample_one : pystr :=
  lit "DOC_ID: d1" ++ [NL] ++ lit "SPEAKER_ID: PA-001" ++ [NL]
  ++ lit "CONSTRUCT: X" ++ [NL] ++ lit "QUOTE: hello world" ++ [NL]
  ++ lit "CONFIDENCE: 2" ++ [NL].

Definition sample_bare : pystr :=
  lit "CONSTRUCT: X" ++ [NL] ++ lit "CONFIDENCE: high".

Definition sample_high : pystr :=
  lit "CONSTRUCT: X" ++ [NL] ++ lit "CONFIDENCE: 2 (high)".

Definition sample_two_labels : pystr :=
  lit "CONSTRUCT: X" ++ [NL] ++ lit "CONFIDENCE: high" ++ [NL]
  ++ lit "CONFIDENCE: 2".

Definition sample_label_first : pystr :=
  lit "DOC_ID: " ++ [NL] ++ lit "SPEAKER_ID: PA-001" ++ [NL]
  ++ lit "CONSTRUCT: X".

(** A confidence of 4301 digits. *)
Definition sample_long_confidence : pystr :=
  lit "CONSTRUCT: X" ++ [NL] ++ lit "CONFIDENCE: " ++ replicate 4301 49.

Definition sample_two_lines : pystr :=
  lit "CONSTRUCT: a" ++ [NL] ++ lit "b" ++ [NL] ++ lit "QUOTE: q1" ++ [NL]
  ++ lit "q2" ++ [NL] ++ lit "CONFIDENCE: 1".

(** A marker of a new block at the start of [s]. *)
Definition begins_marker (s : pystr) : bool :=
  begins_i "DOC_ID:" s || begins_i "DOC ID:" s.

(** The text cut before every line break that is followed by a marker;
    [piece] is the piece under construction. *)
Fixpoint cut_at_markers (piece s : pystr) : list pystr :=
  match s with
  | [] => [piece]
  | c :: s' =>
      if (c =? NL) && begins_marker s' then piece :: cut_at_markers [] s'
      else cut_at_markers (piece ++ [c]) s'
  end.

End ParserSpec.

(** ** [encoding_prompter/document.py] *)

Module DocumentLoader.
Import Py Re.

Record Document := {
  doc_id : pystr;
  content : pystr;
  speakers : list pystr;
  source_path : pystr
}.

(** Comparison of [str] values: lexicographic on code points. *)
Fixpoint str_leb (a b : pystr) : bool :=
  match a, b with
  | [], _ => true
  | _ :: _, [] => false
  | x :: a', y :: b' => (x <? y) || ((x =? y) && str_leb a' b')
  end.

Definition str_le (a b : pystr) : Prop := str_leb a b = true.

#[global] Instance str_le_dec a b : Decision (str_le a b).
Proof. unfold str_le. apply _. Defined.

(** [sorted(s)] for a set [s] of strings.  The order of a sorted list of
    distinct strings does not depend on the order in which the set is
    enumerated. *)
Definition sorted (s : gset pystr) : list pystr :=
  merge_sort str_le (elements s).

(** [[A-Za-z0-9_-]] *)
Definition token_char (c : N) : bool :=
  is_upper_ascii c || is_lower_ascii c || is_digit_ascii c
  || (c =? UNDERSCORE) || (c =? 45).

Definition COLON : N := 58.
Definition HYPHEN : N := 45.
Definition COMMA : N := 44.

(** [SPEAKER_PATTERNS], used with MULTILINE:
<<
  ^([A-Z]{2,}-\d{3})\s{2,}
  ^([A-Za-z0-9_-]+):\s*
  ^\[([A-Za-z0-9_-]+)\]\s*
>> *)
Definition SPEAKER_PATTERNS : list regex :=
  [seqs [Bol;
         Grp (seqs [at_least 2 is_upper_ascii; chr HYPHEN; exactly 3 is_decimal]);
         at_least 2 is_space];
   seqs [Bol; Grp (plus token_char); chr COLON; star is_space];
   seqs [Bol; chr 91; Grp (plus token_char); chr 93; star is_space]].

(** [r"SPEAKERS\s*\n([^\n]+)"] *)
Definition header_pattern : regex :=
  seqs [word "SPEAKERS"; star is_space; chr NL; Grp (plus not_newline)].

(** [r"[,\s]+"] *)
Definition separator_pattern : regex :=
  plus (λ c, (c =? COMMA) || is_space c).

(** [r"^[A-Za-z0-9_-]+$"] *)
Definition token_pattern : regex := seqs [Bos; plus token_char; Eos].

(** The speakers named on the header line. *)
Definition header_speakers (content : pystr) (speakers : gset pystr)
    : gset pystr :=
  match search header_pattern content with
  | Some speakers_match =>
      let speaker_line := group1 speakers_match in
      foldl (λ (speakers : gset pystr) speaker,
               let speaker := strip speaker in
               if truthy speaker && bool_decide (is_Some (match_ token_pattern speaker))
               then speakers ∪ {[speaker]}
               else speakers)
            speakers (split separator_pattern speaker_line)
  | None => speakers
  end.

(** The speakers found by the inline patterns. *)
Definition inline_speakers (content : pystr) (speakers : gset pystr)
    : gset pystr :=
  foldl (λ (speakers : gset pystr) pattern,
           foldl (λ (speakers : gset pystr) g, speakers ∪ {[g]})
                 speakers (finditer pattern content))
        speakers SPEAKER_PATTERNS.

Definition _extract_speakers (content : pystr) : list pystr :=
  sorted (inline_speakers content (header_speakers content ∅)).

Definition load_from_string (text doc_id : pystr) : Document :=
  {| doc_id := doc_id; content := text;
     speakers := _extract_speakers text;
     source_path := lit "<string>" |}.

(** *** Files

    A [Path] is given by the three attributes the loader reads.  A file is
    given by its decoded text and by what [csv.DictReader] makes of it: the
    field names ([None] when the reader finds no row at all) and the rows,
    each a dict from field name to value, with [None] for the fields a short
    row lacks. *)
Record Path := {
  path_str : pystr;
  suffix : pystr;
  stem : pystr
}.

Record File := {
  text : pystr;
  fieldnames : option (list pystr);
  rows : list (gmap pystr (option pystr))
}.

(** What [open(filepath, encoding="utf-8")] and the reads that follow give:
    the file as decoded, or, when the bytes are not UTF-8, the
    [UnicodeDecodeError] of the read that meets them. *)
Inductive reading :=
| Decoded (f : File)
| Undecodable.

(** An entry of a directory is a regular file, or ([None]) something
    else. *)
Inductive node :=
| RegularFile (r : reading)
| Directory (children : list (Path * option reading)).

(** An insertion-ordered [dict] with string keys. *)
Fixpoint dict_set (k v : pystr) (d : list (pystr * pystr)) : list (pystr * pystr) :=
  match d with
  | [] => [(k, v)]
  | (k', v') :: d' =>
      if decide (k = k') then (k, v) :: d' else (k', v') :: dict_set k v d'
  end.

Definition speaker_names : list pystr :=
  lit <$> ["speaker"; "speaker_id"; "participant"; "id"]%string.

Definition text_names : list pystr :=
  lit <$> ["text"; "content"; "utterance"; "transcript"; "message"]%string.

Definition gate_terms : list pystr :=
  lit <$> ["speaker"; "text"; "content"; "utterance"]%string.

Section Loader.

(** [str.lower], the Unicode lower-casing of the interpreter. *)
Variable str_lower : pystr → pystr.

(** [list(s)] for a set [s]: the interpreter enumerates the set in an order
    of its own. *)
Variable list_of_set : gset pystr → list pystr.

Definition _load_txt (filepath : Path) (r : reading) : result Document :=
  match r with
  | Undecodable => Raise UnicodeDecodeError
  | Decoded f =>
      let content := text f in
      mret {| doc_id := stem filepath; content := content;
              speakers := _extract_speakers content;
              source_path := path_str filepath |}
  end.

(** [{fn.lower().strip(): fn for fn in reader.fieldnames}] *)
Definition fieldnames_lower (fns : list pystr) : list (pystr * pystr) :=
  foldl (λ d fn, dict_set (strip (str_lower fn)) fn d) [] fns.

(** The loop choosing [speaker_col] and [text_col]. *)
Definition detect_columns (d : list (pystr * pystr))
    : option pystr * option pystr :=
  foldl (λ '(speaker_col, text_col) '(key, fn),
           if bool_decide (key ∈ speaker_names) then (Some fn, text_col)
           else if bool_decide (key ∈ text_names) then (speaker_col, Some fn)
           else (speaker_col, text_col))
        (None, None) d.

(** [row.get(text_col, "").strip()]; a [None] value has no [strip]. *)
Definition text_of (row : gmap pystr (option pystr)) (text_col : pystr)
    : result pystr :=
  match row !! text_col with
  | Some (Some t) => Ok (strip t)
  | Some None => Raise AttributeError
  | None => Ok (strip [])
  end.

(** The loop over the rows of the reader; [rows] are the lines so far and
    [speakers] the set of speakers so far. *)
Fixpoint for_rows (speaker_col : option pystr) (text_col : pystr)
    (reader : list (gmap pystr (option pystr)))
    (rows : list pystr) (speakers : gset pystr)
    : result (list pystr * gset pystr) :=
  match reader with
  | [] => mret (rows, speakers)
  | row :: reader' =>
      let value :=
        match speaker_col with
        | Some col => if truthy col then mjoin (row !! col) else None
        | None => None
        end in
      match value with
      | Some v =>
          if truthy v then
            let speaker := strip v in
            t ← text_of row text_col;
            for_rows speaker_col text_col reader'
              (rows ++ [speaker ++ lit ": " ++ t]) (speakers ∪ {[speaker]})
          else
            t ← text_of row text_col;
            for_rows speaker_col text_col reader' (rows ++ [t]) speakers
      | None =>
          t ← text_of row text_col;
          for_rows speaker_col text_col reader' (rows ++ [t]) speakers
      end
  end.

(** The file is rewound after the sample has been read, so that in the
    branch without a reader [f.read()] gives the whole text again.  Both
    branches read the file to its end, so that a file that is not UTF-8
    never loads: the read that meets the offending bytes raises (when a row
    before them lacks the text column, that row has raised first). *)
Definition _load_csv (filepath : Path) (r : reading) : result Document :=
  f ← match r with
      | Decoded f => mret f
      | Undecodable => Raise UnicodeDecodeError
      end;
  let sample := take 2048 (text f) in
  '(content, speakers) ←
    (if existsb (λ term, contains term (str_lower sample)) gate_terms then
       match fieldnames f with
       | None => Raise (ValueError (lit "CSV file appears to be empty"))
       | Some fns =>
           let '(speaker_col, text_col) := detect_columns (fieldnames_lower fns) in
           text_col ←
             match text_col with
             | Some c => mret c
             | None =>
                 match fns with
                 | c :: _ => mret c
                 | [] => Raise IndexError
                 end
             end;
           '(rows, speakers) ← for_rows speaker_col text_col (rows f) [] ∅;
           mret (join [NL] rows, speakers)
       end
     else mret (sample ++ text f, ∅));
  let speakers : gset pystr :=
    if bool_decide (speakers = ∅) then list_to_set (_extract_speakers content)
    else speakers in
  mret {| doc_id := stem filepath; content := content;
          speakers := list_of_set speakers;
          source_path := path_str filepath |}.

Definition _load_file (filepath : Path) (r : reading) : result Document :=
  let extension := str_lower (suffix filepath) in
  if bool_decide (extension = lit ".txt") then _load_txt filepath r
  else if bool_decide (extension = lit ".csv") then _load_csv filepath r
  else Raise (ValueError (lit "Unsupported document format: " ++ extension
                          ++ lit ". Supported formats: .txt, .csv")).

(** The entries of a directory are visited in the order of their paths;
    an entry that fails to load is reported and skipped. *)
Definition _load_directory (directory : Path)
    (children : list (Path * option reading)) : result (list Document) :=
  let documents :=
    foldl (λ documents '(filepath, entry),
             match entry with
             | Some r =>
                 if bool_decide (str_lower (suffix filepath) ∈ [lit ".txt"; lit ".csv"])
                 then match _load_file filepath r with
                      | Ok d => documents ++ [d]
                      | Raise _ => documents
                      end
                 else documents
             | None => documents
             end)
          [] (merge_sort (λ a b, str_le (path_str a.1) (path_str b.1)) children) in
  match documents with
  | [] => Raise (ValueError (lit "No valid documents found in directory: "
                             ++ path_str directory
                             ++ lit ". Supported formats: .txt, .csv"))
  | _ => mret documents
  end.

(** [load(path)]; [target] is what the path designates, [None] when the
    path does not exist. *)
Definition load (path : Path) (target : option node) : result (list Document) :=
  match target with
  | None => Raise (FileNotFoundError (lit "Path not found: " ++ path_str path))
  | Some (Directory children) => _load_directory path children
  | Some (RegularFile r) => d ← _load_file path r; mret [d]
  end.

End Loader.

(** Lower-casing of the ASCII letters; it agrees with [str.lower] on ASCII
    text. *)
Definition ascii_lower (s : pystr) : pystr :=
  (λ c, if is_upper_ascii c then c + 32 else c) <$> s.

End DocumentLoader.

(** ** What the loader reads: direct definitions *)

Module DocumentSpec.
Import Py Re ParserSpec DocumentLoader.

Definition str_lt (a b : pystr) : Prop := str_le a b ∧ a ≠ b.

(** The header line found after the word SPEAKERS: [r] is the text after
    the word.  White space is passed; the line starts after the last of its
    line breaks that is followed by a character other than a line break. *)
Fixpoint header_start (r : pystr) : option pystr :=
  match r with
  | c :: r' =>
      if is_space c then
        match header_start r' with
        | Some l => Some l
        | None =>
            match r' with
            | d :: _ => if (c =? NL) && not_newline d then Some r' else None
            | [] => None
            end
        end
      else None
  | [] => None
  end.

Definition header_line (text : pystr) : option pystr :=
  first_suffix
    (λ t, read_word N.eqb (lit "SPEAKERS") t
          ≫= λ tr, while not_newline <$> header_start tr.2)
    text.

(** The tokens of a header line that name a speaker. *)
Definition is_token (s : pystr) : bool :=
  truthy s && bool_decide (is_Some (match_ token_pattern s)).

Definition header_tokens (line : pystr) : list pystr :=
  filter (λ s, is_token s = true) (strip <$> split separator_pattern line).

(** The header as the specification words it: a line that is literally
    SPEAKERS, and the line that follows it. *)
Fixpoint lines_from (line s : pystr) : list pystr :=
  match s with
  | [] => [line]
  | c :: s' => if c =? NL then line :: lines_from [] s' else lines_from (line ++ [c]) s'
  end.

Fixpoint line_after_header (ls : list pystr) : option pystr :=
  match ls with
  | l :: ls' =>
      if bool_decide (l = lit "SPEAKERS") then head ls' else line_after_header ls'
  | [] => None
  end.

Definition claimed_speakers (text : pystr) : list pystr :=
  sorted (inline_speakers text
            (list_to_set (match line_after_header (lines_from [] text) with
                          | Some line => header_tokens line
                          | None => []
                          end))).

Definition sample_header : pystr :=
  lit "Two SPEAKERS" ++ [NL] ++ lit "Alice, Bob".

Definition sample_blank_line : pystr :=
  lit "SPEAKERS" ++ [NL; NL] ++ lit "Alice, Bob".

Definition sample_transcript : pystr :=
  lit "SPEAKERS" ++ [NL] ++ lit "Alice, Bob" ++ [NL; NL]
  ++ lit "Interviewer: Hello" ++ [NL] ++ lit "[PA-001] Hi" ++ [NL]
  ++ lit "TH-001  How are you?" ++ [NL].

(** *** Rows of a delimited file *)

(** The speaker of a row: the stripped value of the speaker column, when
    the row has a non-empty value there. *)
Definition row_speaker (speaker_col : pystr) (row : gmap pystr (option pystr))
    : option pystr :=
  match row !! speaker_col with
  | Some (Some v) => if truthy v then Some (strip v) else None
  | _ => None
  end.

(** The stripped text of a row. *)
Definition row_text (text_col : pystr) (row : gmap pystr (option pystr)) : pystr :=
  match row !! text_col with
  | Some (Some t) => strip t
  | _ => []
  end.

(** The line rendered for a row. *)
Definition render (speaker_col text_col : pystr)
    (row : gmap pystr (option pystr)) : pystr :=
  match row_speaker speaker_col row with
  | Some speaker => speaker ++ lit ": " ++ row_text text_col row
  | None => row_text text_col row
  end.

(** The speakers of the rows in the order in which they are met, each
    speaker once. *)
Definition encounter_order (speaker_col : pystr)
    (rows : list (gmap pystr (option pystr))) : list pystr :=
  foldl (λ acc row,
           match row_speaker speaker_col row with
           | Some s => if bool_decide (s ∈ acc) then acc else acc ++ [s]
           | None => acc
           end) [] rows.

(** [list_of_set] enumerates every set without repetition. *)
Definition enumerates (list_of_set : gset pystr → list pystr) : Prop :=
  ∀ s, NoDup (list_of_set s) ∧ ∀ x, x ∈ list_of_set s ↔ x ∈ s.

(** Sample files. *)
Definition sample_csv_path : Path :=
  {| path_str := lit "/data/interview.csv"; suffix := lit ".csv";
     stem := lit "interview" |}.

Definition sample_row (speaker text : string) : gmap pystr (option pystr) :=
  {[ lit "speaker" := Some (lit speaker); lit "text" := Some (lit text) ]}.

Definition sample_rows : list (gmap pystr (option pystr)) :=
  [sample_row "TH-001" "How are you?";
   sample_row "PA-001" "I feel anxious.";
   sample_row "TH-001" "Tell me more."].

Definition sample_csv : File :=
  {| text := lit "speaker,text" ++ [NL] ++ lit "TH-001,How are you?" ++ [NL]
             ++ lit "PA-001,I feel anxious." ++ [NL]
             ++ lit "TH-001,Tell me more." ++ [NL];
     fieldnames := Some [lit "speaker"; lit "text"];
     rows := sample_rows |}.

Definition empty_csv : File :=
  {| text := []; fieldnames := None; rows := [] |}.

End DocumentSpec.

(** ** The tables of [encoding_prompter/parser.py]

    A [pandas.DataFrame] with the default index: the names of its columns,
    in order, the dtype of each column, and its rows.  A row maps the name
    of a column to the value it holds there; a column without a value in a
    row holds NaN.  Of the dtypes, those are kept that the tables of the
    program can have: the two 64-bit integer dtypes, [float64], and
    [object] for strings and for integers that fit neither integer
    dtype. *)

Module Table.
Import Py Parser.

(** A value of a table: a string, an integer, or a [float64] whose value
    is the integer [x]. *)
Inductive cell :=
| Str (s : pystr)
| Int (z : Z)
| Float (x : Z).

Inductive dtype := int64 | uint64 | float64 | object.

Record DataFrame := {
  columns : list string;
  dtypes : gmap string dtype;
  records : list (gmap string cell)
}.

(** The names [new] added to [cols], each where it is first met. *)
Definition add_columns (cols new : list string) : list string :=
  foldl (λ acc c, if bool_decide (c ∈ acc) then acc else acc ++ [c]) cols new.

(** A Python dict, in insertion order, as a row. *)
Definition row_of_dict (d : list (string * cell)) : gmap string cell :=
  foldl (λ m kv, <[kv.1 := kv.2]> m) ∅ d.

(** [pd.DataFrame(columns=cols)]: no rows, and columns of dtype
    [object]. *)
Definition empty_frame (cols : list string) : DataFrame :=
  {| columns := cols;
     dtypes := list_to_map ((λ c, (c, object)) <$> cols);
     records := [] |}.

Definition in_int64 (z : Z) : bool := (- 2 ^ 63 <=? z)%Z && (z <? 2 ^ 63)%Z.
Definition in_uint64 (z : Z) : bool := (0 <=? z)%Z && (z <? 2 ^ 64)%Z.

Definition is_int (v : option cell) : bool :=
  match v with Some (Int _) => true | _ => false end.

Definition holds_int (p : Z → bool) (v : option cell) : bool :=
  match v with Some (Int z) => p z | _ => false end.

(** The dtype that [pd.DataFrame] infers for a column of Python values:
    integers are kept in [int64] when all of them fit, else in [uint64]
    when all of them fit, and else as Python objects, as strings are. *)
Definition infer_dtype (values : list (option cell)) : dtype :=
  if forallb (holds_int in_int64) values then int64
  else if forallb (holds_int in_uint64) values then uint64
  else object.

(** [pd.DataFrame(data)] for a non-empty list of dicts that have the same
    keys, each key with strings in every dict or with integers in every
    dict, as the dicts of the instances are. *)
Definition frame_of_dicts (data : list (list (string * cell))) : DataFrame :=
  let cols := foldl (λ acc d, add_columns acc d.*1) [] data in
  let rows := row_of_dict <$> data in
  {| columns := cols;
     dtypes := list_to_map ((λ c, (c, infer_dtype ((λ r, r !! c) <$> rows)))
                            <$> cols);
     records := rows |}.

Definition COLUMNS : list string :=
  ["doc_id"; "speaker_id"; "construct"; "quote"; "confidence"]%string.

(** The dict built for one instance. *)
Definition instance_dict (inst : EncodingInstance) : list (string * cell) :=
  [("doc_id", Str (doc_id inst)); ("speaker_id", Str (speaker_id inst));
   ("construct", Str (construct inst)); ("quote", Str (quote inst));
   ("confidence", Int (confidence inst))]%string.

Definition instances_to_dataframe (instances : list EncodingInstance)
    : DataFrame :=
  match instances with
  | [] => empty_frame COLUMNS
  | _ => frame_of_dicts (instance_dict <$> instances)
  end.

(** The float64 nearest to an integer, ties going to the even mantissa, as
    the integer it is. *)
Definition float64_of_Z (z : Z) : Z :=
  let a := Z.abs z in
  let e := (Z.log2 a - 52)%Z in
  if (e <=? 0)%Z then z
  else
    let q := Z.shiftr a e in
    let r := Z.land a (Z.ones e) in
    let half := Z.shiftl 1 (e - 1) in
    let q := if (half <? r)%Z || ((r =? half)%Z && Z.odd q) then (q + 1)%Z
             else q in
    (Z.sgn z * Z.shiftl q e)%Z.

(** The common dtype of two columns: [np.result_type], and [object] as
    soon as one of them is [object]. *)
Definition join_dtype (a b : dtype) : dtype :=
  match a, b with
  | object, _ | _, object => object
  | int64, int64 => int64
  | uint64, uint64 => uint64
  | _, _ => float64
  end.

(** A value stored in a column of dtype [d]. *)
Definition convert (d : dtype) (v : cell) : cell :=
  match d, v with
  | float64, Int z => Float (float64_of_Z z)
  | _, _ => v
  end.

Section Pandas.

(** Whether the columns of a table without rows take part in the choice of
    the dtype of a concatenation: before pandas 3 they do not (integer
    columns apart, which cannot hold NaN), from pandas 3 on they do. *)
Variable empty_counts : bool.

Definition takes_part (c : string) (f : DataFrame) : bool :=
  empty_counts ||
  match records f with
  | [] => match dtypes f !! c with
          | Some int64 | Some uint64 => true
          | _ => false
          end
  | _ :: _ => true
  end.

(** The dtype of column [c] in [f]; a column that [f] lacks is filled with
    NaN, which needs [float64]. *)
Definition column_dtype (c : string) (f : DataFrame) : dtype :=
  default float64 (dtypes f !! c).

Definition common_dtype (c : string) (frames : list DataFrame) : dtype :=
  let taking := match List.filter (takes_part c) frames with
                | [] => frames
                | fs => fs
                end in
  match column_dtype c <$> taking with
  | [] => object
  | d :: ds => foldl join_dtype d ds
  end.

(** [pd.concat(frames, ignore_index=True)]: the rows of the tables one
    after the other, every column in the common dtype of the tables. *)
Definition concat (frames : list DataFrame) : result DataFrame :=
  match frames with
  | [] => Raise (ValueError (lit "No objects to concatenate"))
  | _ =>
      let cols := foldl (λ acc f, add_columns acc (columns f)) [] frames in
      let ds : gmap string dtype :=
        list_to_map ((λ c, (c, common_dtype c frames)) <$> cols) in
      Ok {| columns := cols;
            dtypes := ds;
            records :=
              (λ r : gmap string cell,
                 map_imap (λ c v, Some (convert (default object (ds !! c)) v)) r)
              <$> (frames ≫= records) |}
  end.

Definition merge_results (dataframes : list DataFrame) : result DataFrame :=
  match dataframes with
  | [] => Ok (empty_frame COLUMNS)
  | _ => concat dataframes
  end.

End Pandas.

(** The instance that a row holds, when its five cells are of the kinds
    that the tables of the program have; a [float64] confidence is read as
    the integer it is. *)
Definition row_instance (r : gmap string cell) : option EncodingInstance :=
  match r !! "doc_id"%string, r !! "speaker_id"%string, r !! "construct"%string,
        r !! "quote"%string, r !! "confidence"%string with
  | Some (Str d), Some (Str s), Some (Str c), Some (Str q), Some (Int n)
  | Some (Str d), Some (Str s), Some (Str c), Some (Str q), Some (Float n) =>
      Some {| doc_id := d; speaker_id := s; construct := c; quote := q;
              confidence := n |}
  | _, _, _, _, _ => None
  end.

(** The row [r] holds the instance [i]: its strings, and its confidence as
    the integer it is or as the nearest [float64]. *)
Definition holds (r : gmap string cell) (i : EncodingInstance) : Prop :=
  r !! "doc_id"%string = Some (Str (doc_id i)) ∧
  r !! "speaker_id"%string = Some (Str (speaker_id i)) ∧
  r !! "construct"%string = Some (Str (construct i)) ∧
  r !! "quote"%string = Some (Str (quote i)) ∧
  (r !! "confidence"%string = Some (Int (confidence i)) ∨
   r !! "confidence"%string = Some (Float (float64_of_Z (confidence i)))).

(** Sample instances: a confidence of 2, and one of [2 ^ 63 + 1]. *)
Definition sample_instance (n : Z) : EncodingInstance :=
  {| doc_id := lit "d"; speaker_id := []; construct := lit "X"; quote := [];
     confidence := n |}.

End Table.

(** ** The loop of [encoding_prompter/encoder.py]

    [EncodingPrompter.encode] from the point where the documents are loaded,
    the text of the codebook ([codebook.to_string()]) is known and the
    prompt is built.  What lies outside the program is a parameter: the
    exceptions [E] of the environment, the state [world] that the calls of
    the model and of the callback read and change, the limit of the
    interpreter on the digits of a numeral, the way pandas treats tables
    without rows, [str.format] and [client.complete], of whose response
    only the content is used.  The callback is taken to leave the table it
    is given as it is. *)

Module Encoder.
Import Py Parser Table.

(** An exception of the environment or one of the program's own. *)
Inductive failure (E : Type) :=
| External (e : E)
| Internal (e : exn).
Arguments External {E} e.
Arguments Internal {E} e.

Inductive outcome (E A : Type) :=
| Return (a : A)
| Fail (e : failure E).
Arguments Return {E A} a.
Arguments Fail {E A} e.

(** [", ".join(document.speakers) if document.speakers else "Unknown"] *)
Definition speakers_str (document : DocumentLoader.Document) : pystr :=
  match DocumentLoader.speakers document with
  | [] => lit "Unknown"
  | speakers => join (lit ", ") speakers
  end.

Section Client.

Variables E world float : Type.

(** [sys.get_int_max_str_digits()] *)
Variable max_str_digits : nat.

(** Whether pandas lets the columns of a table without rows take part in
    the choice of a dtype. *)
Variable empty_counts : bool.

(** [prompt_template.format(text=..., codebook=..., doc_id=..., speakers=...)],
    in the order: template, text, codebook, doc_id, speakers. *)
Variable format : pystr → pystr → pystr → pystr → pystr → E + pystr.

(** [self.client.complete(prompt=..., max_tokens=..., temperature=...).content]:
    the content is the string that the answer of the service gives, or
    ([None]) whatever else it gives in its place, such as the [None] of a
    JSON null. *)
Variable complete : pystr → Z → float → world → (E + option pystr) * world.

Definition _process_document (document : DocumentLoader.Document)
    (codebook prompt_template : pystr) (max_tokens : Z) (temperature : float)
    (w : world) : outcome E DataFrame * world :=
  match format prompt_template (DocumentLoader.content document) codebook
               (DocumentLoader.doc_id document) (speakers_str document) with
  | inl e => (Fail (External e), w)
  | inr formatted_prompt =>
      match complete formatted_prompt max_tokens temperature w with
      | (inl e, w) => (Fail (External e), w)
      | (inr None, w) =>
          (* [re.split] refuses what is not a string *)
          (Fail (Internal TypeError), w)
      | (inr (Some response), w) =>
          match parse_response max_str_digits response
                  (DocumentLoader.doc_id document) with
          | Raise e => (Fail (Internal e), w)
          | Ok instances => (Return (instances_to_dataframe instances), w)
          end
      end
  end.

(** The loop over the documents.  [all_results] are the tables so far and
    [calls] the calls of [on_document_complete] made so far. *)
Fixpoint for_documents (docs : list DocumentLoader.Document)
    (codebook prompt : pystr) (max_tokens : Z) (temperature : float)
    (on_document_complete : option (pystr → DataFrame → world → option E * world))
    (all_results : list DataFrame) (calls : list (pystr * DataFrame))
    (w : world)
    : outcome E (list DataFrame) * list (pystr * DataFrame) * world :=
  match docs with
  | [] => (Return all_results, calls, w)
  | doc :: docs' =>
      match _process_document doc codebook prompt max_tokens temperature w with
      | (Fail e, w) => (Fail e, calls, w)
      | (Return result_df, w) =>
          let all_results := all_results ++ [result_df] in
          match on_document_complete with
          | None =>
              for_documents docs' codebook prompt max_tokens temperature
                on_document_complete all_results calls w
          | Some callback =>
              let calls := calls ++ [(DocumentLoader.doc_id doc, result_df)] in
              match callback (DocumentLoader.doc_id doc) result_df w with
              | (Some e, w) => (Fail (External e), calls, w)
              | (None, w) =>
                  for_documents docs' codebook prompt max_tokens temperature
                    on_document_complete all_results calls w
              end
          end
      end
  end.

(** [encode(documents, codebook, ...)]: the table returned or the exception
    raised, the calls of the callback, and the state left. *)
Definition encode (docs : list DocumentLoader.Document)
    (codebook prompt : pystr) (max_tokens : Z) (temperature : float)
    (on_document_complete : option (pystr → DataFrame → world → option E * world))
    (w : world)
    : outcome E DataFrame * list (pystr * DataFrame) * world :=
  match for_documents docs codebook prompt max_tokens temperature
          on_document_complete [] [] w with
  | (Return all_results, calls, w) =>
      (match merge_results empty_counts all_results with
       | Ok df => Return df
       | Raise e => Fail (Internal e)
       end, calls, w)
  | (Fail e, calls, w) => (Fail e, calls, w)
  end.

(** [get_raw_response(document, codebook, ...)] for a document given as a
    [Document], or as a path with what the path designates, the codebook
    and the prompt being given as for [encode]; of the response returned,
    the content is kept. *)
Definition get_raw_response (str_lower : pystr → pystr)
    (list_of_set : gset pystr → list pystr)
    (document : DocumentLoader.Document
                + DocumentLoader.Path * option DocumentLoader.node)
    (codebook prompt : pystr) (max_tokens : Z) (temperature : float)
    (w : world) : outcome E (option pystr) * world :=
  let doc :=
    match document with
    | inl document => Ok document
    | inr (path, target) =>
        docs ← DocumentLoader.load str_lower list_of_set path target;
        match docs with
        | doc :: _ => Ok doc
        | [] => Raise IndexError
        end
    end in
  match doc with
  | Raise e => (Fail (Internal e), w)
  | Ok doc =>
      match format prompt (DocumentLoader.content doc) codebook
                   (DocumentLoader.doc_id doc) (speakers_str doc) with
      | inl e => (Fail (External e), w)
      | inr formatted_prompt =>
          match complete formatted_prompt max_tokens temperature w with
          | (inl e, w) => (Fail (External e), w)
          | (inr response, w) => (Return response, w)
          end
      end
  end.

(** [preview_prompt(document, codebook, ...)] *)
Definition preview_prompt (str_lower : pystr → pystr)
    (list_of_set : gset pystr → list pystr)
    (document : DocumentLoader.Document
                + DocumentLoader.Path * option DocumentLoader.node)
    (codebook prompt : pystr) : outcome E pystr :=
  let doc :=
    match document with
    | inl document => Ok document
    | inr (path, target) =>
        docs ← DocumentLoader.load str_lower list_of_set path target;
        match docs with
        | doc :: _ => Ok doc
        | [] => Raise IndexError
        end
    end in
  match doc with
  | Raise e => Fail (Internal e)
  | Ok doc =>
      match format prompt (DocumentLoader.content doc) codebook
                   (DocumentLoader.doc_id doc) (speakers_str doc) with
      | inl e => Fail (External e)
      | inr formatted_prompt => Return formatted_prompt
      end
  end.

(** [encode_single(text, codebook, doc_id, ...)] *)
Definition encode_single (text codebook doc_id prompt : pystr)
    (max_tokens : Z) (temperature : float) (w : world)
    : outcome E DataFrame * list (pystr * DataFrame) * world :=
  let doc := DocumentLoader.load_from_string text doc_id in
  encode [doc] codebook prompt max_tokens temperature None w.

End Client.

End Encoder.

(** ** The encoder, read directly *)

Module EncoderSpec.
Import Py Parser Table Encoder.
Import DocumentLoader(Document).

Section Client.

Variables E world float : Type.
Variable max_str_digits : nat.
Variable format : pystr → pystr → pystr → pystr → pystr → E + pystr.
Variable complete : pystr → Z → float → world → (E + option pystr) * world.
Variables (codebook prompt : pystr) (max_tokens : Z) (temperature : float).
Variable on_document_complete :
  option (pystr → DataFrame → world → option E * world).

(** The model answered [response] for [doc]: a string, or ([None])
    something else. *)
Definition answered (doc : Document) (response : option pystr) : Prop :=
  ∃ formatted_prompt w0 w1,
    format prompt (DocumentLoader.content doc) codebook
           (DocumentLoader.doc_id doc) (speakers_str doc)
    = inr formatted_prompt ∧
    complete formatted_prompt max_tokens temperature w0 = (inr response, w1).

(** [l] are the instances parsed from the answer for [doc]. *)
Definition parsed (doc : Document) (l : list EncodingInstance) : Prop :=
  ∃ response,
    answered doc (Some response) ∧
    parse_response max_str_digits response (DocumentLoader.doc_id doc) = Ok l.

Definition logged (docs : list Document) (per : list (list EncodingInstance))
    : list (pystr * DataFrame) :=
  match on_document_complete with
  | None => []
  | Some _ => zip (DocumentLoader.doc_id <$> docs) (instances_to_dataframe <$> per)
  end.

End Client.

End EncoderSpec.

(** ** Further direct definitions *)

Module ExtraSpec.
Import Py Re Parser ParserSpec DocumentLoader DocumentSpec.

(** The position after [pre] is at the start of a line. *)
Definition at_line_start (pre : pystr) : Prop :=
  match last pre with
  | None => True
  | Some c => c = NL
  end.

(** [pv], the character before a position, allows the start of a line. *)
Definition line_start (pv : option N) : bool :=
  match pv with
  | None => true
  | Some c => c =? NL
  end.

(** The three inline labels, read at the start of [s]: the name, the text
    the label takes up to the white space that ends it, and the text after
    it.  [Name:] *)
Definition colon_label (s : pystr) : option (pystr * pystr * pystr) :=
  let x := while token_char s in
  match x, drop (length x) s with
  | _ :: _, c :: post =>
      if c =? COLON then Some (x, x ++ [c], post) else None
  | _, _ => None
  end.

(** [[Name]] *)
Definition bracket_label (s : pystr) : option (pystr * pystr * pystr) :=
  match s with
  | b :: s' =>
      if b =? 91 then
        let x := while token_char s' in
        match x, drop (length x) s' with
        | _ :: _, c :: post =>
            if c =? 93 then Some (x, b :: x ++ [c], post) else None
        | _, _ => None
        end
      else None
  | [] => None
  end.

(** Two or more capital letters, a hyphen, three digits, and two white
    space characters after them. *)
Definition code_label (s : pystr) : option (pystr * pystr * pystr) :=
  let u := while is_upper_ascii s in
  if (2 <=? length u)%nat then
    match drop (length u) s with
    | h :: d1 :: d2 :: d3 :: w1 :: w2 :: post =>
        if (h =? HYPHEN) && is_decimal d1 && is_decimal d2 && is_decimal d3
           && is_space w1 && is_space w2
        then Some (u ++ [h; d1; d2; d3], u ++ [h; d1; d2; d3; w1; w2], post)
        else None
    | _ => None
    end
  else None.

(** The match of a label at the start of a line, with the white space
    after it. *)
Definition label_match (label : pystr → option (pystr * pystr * pystr))
    (pv : option N) (s : pystr) : option st :=
  if line_start pv then
    (λ '(x, core, post),
       (Pos (prev_after (prev_after pv core) (while is_space post))
            (drop (length (while is_space post)) post), Some x))
    <$> label s
  else None.


(** The key under which [fieldnames_lower] files a field name. *)
Definition column_key (str_lower : pystr → pystr) (fn : pystr) : pystr :=
  strip (str_lower fn).

(** The document that the loop over a directory adds for an entry: the
    entry is a regular file of a supported extension, and it loads. *)
Definition loaded (str_lower : pystr → pystr)
    (list_of_set : gset pystr → list pystr) (entry : Path * option reading)
    : option Document :=
  match entry.2 with
  | Some r =>
      if bool_decide (str_lower (suffix entry.1) ∈ [lit ".txt"; lit ".csv"])
      then match _load_file str_lower list_of_set entry.1 r with
           | Ok d => Some d
           | Raise _ => None
           end
      else None
  | None => None
  end.

(** The document of a text file whose bytes are UTF-8. *)
Definition txt_document (filepath : Path) (f : File) : Document :=
  {| doc_id := stem filepath; content := text f;
     speakers := _extract_speakers (text f);
     source_path := path_str filepath |}.

(** The error of a directory without a document. *)
Definition no_valid_documents (directory : Path) : exn :=
  ValueError (lit "No valid documents found in directory: "
              ++ path_str directory ++ lit ". Supported formats: .txt, .csv").

(** Sample data. *)
Definition plain_csv : File :=
  {| text := lit "name,remark" ++ [NL] ++ lit "Amy,hello" ++ [NL];
     fieldnames := Some [lit "name"; lit "remark"];
     rows := [ {[ lit "name" := Some (lit "Amy");
                  lit "remark" := Some (lit "hello") ]} ] |}.


Definition sample_doc (id text : string) : Document :=
  {| doc_id := lit id; content := lit text; speakers := [];
     source_path := lit "<string>" |}.

Definition sample_docs : list Document :=
  [sample_doc "D1" "I felt alone."; sample_doc "D2" "We talked a lot."].

(** A sample environment: the prompt is the template followed by the text;
    the model answers every prompt with [sample_one], except a prompt that
    contains the word boom, on which it fails, one that contains the word
    null, on which its answer has no string as content, and one that
    contains the word long, on which it answers [sample_long_confidence];
    the state counts the calls. *)
Definition sample_format (template text codebook doc_id speakers : pystr)
    : unit + pystr :=
  inr (template ++ text).

Definition sample_complete (prompt : pystr) (max_tokens : Z) (temperature : unit)
    (w : nat) : (unit + option pystr) * nat :=
  (if contains (lit "boom") prompt then inl ()
   else if contains (lit "null") prompt then inr None
   else if contains (lit "long") prompt then inr (Some sample_long_confidence)
   else inr (Some sample_one), S w).

Definition sample_dir : list (Path * option reading) :=
  [({| path_str := lit "/data/b.txt"; suffix := lit ".txt"; stem := lit "b" |},
    Some (Decoded {| text := lit "Bob: hi"; fieldnames := None; rows := [] |}));
   ({| path_str := lit "/data/notes.pdf"; suffix := lit ".pdf"; stem := lit "notes" |},
    Some (Decoded {| text := lit "x"; fieldnames := None; rows := [] |}));
   ({| path_str := lit "/data/a.TXT"; suffix := lit ".TXT"; stem := lit "a" |},
    Some (Decoded {| text := lit "Amy: hello"; fieldnames := None; rows := [] |}));
   ({| path_str := lit "/data/latin1.txt"; suffix := lit ".txt";
       stem := lit "latin1" |}, Some Undecodable);
   ({| path_str := lit "/data/sub"; suffix := []; stem := lit "sub" |}, None)].

(** A directory whose only file is not UTF-8. *)
Definition undecodable_dir : list (Path * option reading) :=
  [({| path_str := lit "/data/latin1.txt"; suffix := lit ".txt";
       stem := lit "latin1" |}, Some Undecodable)].


End ExtraSpec.

(** * Facts about the model of Python strings *)

Module PyFacts.
Import Py.

Lemma is_space_elem c : is_space c = true ↔ c ∈ white_space.
Proof.
  unfold is_space. rewrite existsb_exists. split.
  - intros (x & Hx & Heq). apply N.eqb_eq in Heq. subst.
    by apply list_elem_of_In.
  - intros Hc. exists c. split; [by apply list_elem_of_In | apply N.eqb_refl].
Qed.

Lemma decimal_not_space c : is_decimal c = true → is_space c = false.
Proof.
  intros Hd. destruct (is_space c) eqn:Hs; [|done].
  apply is_space_elem in Hs. unfold white_space in Hs.
  repeat (apply elem_of_cons in Hs as [-> | Hs]; [by vm_compute in Hd|]).
  by apply elem_of_nil in Hs.
Qed.

Lemma space_not_decimal c : is_space c = true → is_decimal c = false.
Proof.
  intros Hs. destruct (is_decimal c) eqn:Hd; [|done].
  apply decimal_not_space in Hd. congruence.
Qed.

Lemma is_decimal_value c : is_decimal c = true ↔ ∃ d, decimal_value c = Some d.
Proof.
  unfold is_decimal. destruct (decimal_value c); split; eauto; try done.
  by intros [? ?].
Qed.

Lemma decimal_value_lt c d : decimal_value c = Some d → d < 10.
Proof.
  unfold decimal_value.
  destruct (find _ _) as [z|] eqn:Hf; [|done].
  intros [= <-]. apply find_some in Hf as [_ Hz].
  apply andb_true_iff in Hz as [H1 H2].
  apply N.leb_le in H1. apply N.ltb_lt in H2. lia.
Qed.

Lemma int_space_is_space c : int_space c = true → is_space c = true.
Proof. unfold int_space. by intros [? _]%andb_true_iff. Qed.

Lemma lstrip_no_space c s : is_space c = false → lstrip (c :: s) = c :: s.
Proof. intros H. simpl. by rewrite H. Qed.

Lemma lstrip_app_space ws s :
  Forall (λ c, is_space c = true) ws → lstrip (ws ++ s) = lstrip s.
Proof. induction 1 as [|c ws Hc _ IH]; [done|]. simpl. by rewrite Hc. Qed.

Lemma rstrip_snoc_no_space s c : is_space c = false → rstrip (s ++ [c]) = s ++ [c].
Proof.
  intros H. unfold rstrip. rewrite rev_app_distr. simpl. rewrite H.
  simpl. by rewrite rev_involutive.
Qed.

(** A non-empty run of decimal digits is left alone by [strip]. *)
Lemma strip_digits t :
  Forall (λ c, is_decimal c = true) t → strip t = t.
Proof.
  intros Ht. unfold strip.
  destruct t as [|c t]; [done|].
  rewrite lstrip_no_space; [|apply decimal_not_space; by inversion Ht].
  destruct (exists_last (l := c :: t)) as (t' & c' & Heq); [done|].
  rewrite Heq. apply rstrip_snoc_no_space, decimal_not_space.
  rewrite Heq in Ht. apply Forall_app in Ht as [_ Ht]. by inversion Ht.
Qed.

(** The number written by a run of decimal digits. *)
Lemma int_digits_decimals t acc :
  Forall (λ c, is_decimal c = true) t →
  int_digits acc t = Some (foldl (λ a c, 10 * a + default 0 (decimal_value c)) acc t).
Proof.
  intros Ht. revert acc. induction Ht as [|c t Hc _ IH]; intros acc; [done|].
  simpl. apply is_decimal_value in Hc as [d Hd]. rewrite Hd. simpl. apply IH.
Qed.

Lemma int_lskip_decimal c s : is_decimal c = true → int_lskip (c :: s) = c :: s.
Proof.
  intros H. simpl. destruct (int_space c) eqn:Hs; [|done].
  apply int_space_is_space in Hs. apply decimal_not_space in H. congruence.
Qed.

Lemma int_lskip_rev_decimals t :
  Forall (λ c, is_decimal c = true) t → rev (int_lskip (rev t)) = t.
Proof.
  intros Ht. destruct (rev t) as [|c r] eqn:Hr.
  - simpl. apply (f_equal (@rev N)) in Hr. by rewrite rev_involutive in Hr.
  - rewrite int_lskip_decimal.
    + rewrite <-Hr. apply rev_involutive.
    + apply Forall_rev in Ht. rewrite Hr in Ht. by inversion Ht.
Qed.

Lemma decimal_not_sign c : is_decimal c = true → c ≠ 43 ∧ c ≠ 45.
Proof. intros H. split; intros ->; by vm_compute in H. Qed.

Lemma count_digits_decimals t :
  Forall (λ c, is_decimal c = true) t → count_digits t = length t.
Proof.
  unfold count_digits. induction 1 as [|c t Hc _ IH]; [done|].
  cbn [List.filter]. rewrite Hc. cbn [length]. by rewrite IH.
Qed.

Lemma int_strip_decimals t :
  Forall (λ c, is_decimal c = true) t → int_strip t = t.
Proof.
  intros Ht. unfold int_strip. destruct t as [|c t]; [done|].
  rewrite int_lskip_decimal by (by inversion Ht).
  by apply int_lskip_rev_decimals.
Qed.

(** [int] on a run of digits: the number the digits write, unless the run
    is longer than the limit. *)
Lemma int_decimals max_str_digits t :
  t ≠ [] → Forall (λ c, is_decimal c = true) t →
  int max_str_digits t
  = if exceeds_limit max_str_digits (length t) then None
    else Some (Z.of_N (decimal_number t)).
Proof.
  intros Hne Ht. unfold int. cbv zeta.
  rewrite (int_strip_decimals t Ht), (count_digits_decimals t Ht).
  destruct (exceeds_limit _ _); [done|].
  destruct t as [|c t]; [done|].
  assert (Hc : is_decimal c = true) by (by inversion Ht).
  destruct (decimal_not_sign c Hc) as [H1 H2].
  assert (Hu : int_unsigned (c :: t) = Some (decimal_number (c :: t))).
  { unfold int_unsigned. apply is_decimal_value in Hc as [d Hd]. rewrite Hd.
    by apply int_digits_decimals. }
  destruct c as [|p]; [by rewrite Hu|].
  do 6 (destruct p as [p|p|]; try (by rewrite Hu)); congruence.
Qed.

Lemma exceeds_limit_off n : exceeds_limit 0 n = false.
Proof. done. Qed.

Lemma exceeds_limit_le max_str_digits n m :
  (n ≤ m)%nat → exceeds_limit max_str_digits m = false →
  exceeds_limit max_str_digits n = false.
Proof.
  unfold exceeds_limit. intros Hnm [H|H]%andb_false_iff; apply andb_false_iff.
  - by left.
  - right. apply Nat.ltb_ge in H. apply Nat.ltb_ge. lia.
Qed.

Lemma decimal_number_nonneg t : (0 ≤ Z.of_N (decimal_number t))%Z.
Proof. lia. Qed.

End PyFacts.

(** * Facts about the matcher *)

Module ReFacts.
Import Py Re PyFacts.

Lemma head_fmap {A B} (f : A → B) (l : list A) : head (f <$> l) = f <$> head l.
Proof. by destruct l. Qed.

Lemma prev_after_nil pv : prev_after pv [] = pv.
Proof. done. Qed.

Lemma prev_after_cons pv c t : prev_after pv (c :: t) = prev_after (Some c) t.
Proof.
  unfold prev_after. destruct t as [|d t]; [done|].
  change (last (c :: d :: t)) with (last (d :: t)).
  destruct (last (d :: t)) eqn:H; [done|].
  by apply last_None in H.
Qed.

Lemma prev_after_app pv t u :
  prev_after pv (t ++ u) = prev_after (prev_after pv t) u.
Proof.
  revert pv. induction t as [|c t IH]; intros pv; [done|].
  rewrite <-app_comm_cons, !prev_after_cons. apply IH.
Qed.

Lemma prev_after_snoc pv t c : prev_after pv (t ++ [c]) = Some c.
Proof. by rewrite prev_after_app. Qed.

Lemma consumed_app (t s : pystr) : consumed (t ++ s) s = t.
Proof.
  unfold consumed. rewrite length_app.
  replace (length t + length s - length s)%nat with (length t) by lia.
  apply take_app_length.
Qed.

(** Every position reached by a repetition lies after a run of characters
    of the class, of an admissible length. *)
Lemma elem_of_rep g p lo hi pv s q :
  q ∈ rep g p lo hi pv s →
  ∃ t, s = t ++ rest q ∧ Forall (λ c, p c = true) t ∧ (lo ≤ length t)%nat
       ∧ prev q = prev_after pv t.
Proof.
  revert lo hi pv. induction s as [|c s IH]; intros lo hi pv Hq.
  - simpl in Hq. destruct lo; [|by apply elem_of_nil in Hq].
    apply list_elem_of_singleton in Hq as ->. exists []. simpl. auto with lia.
  - simpl in Hq.
    assert (Hstop : q ∈ match lo with O => [Pos pv (c :: s)] | S _ => [] end →
                    ∃ t, c :: s = t ++ rest q ∧ Forall (λ c, p c = true) t
                         ∧ (lo ≤ length t)%nat ∧ prev q = prev_after pv t).
    { intros H. destruct lo; [|by apply elem_of_nil in H].
      apply list_elem_of_singleton in H as ->. exists []. simpl. auto with lia. }
    destruct (p c && may_take hi) eqn:Hpc; [|by apply Hstop].
    apply andb_true_iff in Hpc as [Hpc _].
    assert (Hmore : q ∈ rep g p (pred lo) (pred <$> hi) (Some c) s →
                    ∃ t, c :: s = t ++ rest q ∧ Forall (λ c, p c = true) t
                         ∧ (lo ≤ length t)%nat ∧ prev q = prev_after pv t).
    { intros H. apply IH in H as (t & -> & Ht & Hlen & Hprev).
      exists (c :: t). rewrite prev_after_cons. simpl.
      split_and!; [done| by constructor | lia | done]. }
    destruct g; apply elem_of_app in Hq as [Hq|Hq]; auto.
Qed.

(** Every state reached by the matcher lies further in the subject. *)
Lemma run_reach r x y :
  y ∈ run r x →
  ∃ t, rest x.1 = t ++ rest y.1 ∧ prev y.1 = prev_after (prev x.1) t.
Proof.
  revert x y. induction r; intros x y Hy; simpl in Hy.
  - apply list_elem_of_singleton in Hy as ->. by exists [].
  - destruct (rest x.1) as [|c s'] eqn:Hr; [by apply elem_of_nil in Hy|].
    destruct (p c); [|by apply elem_of_nil in Hy].
    apply list_elem_of_singleton in Hy as ->. by exists [c].
  - apply list_elem_of_fmap in Hy as (q & -> & Hq).
    apply elem_of_rep in Hq as (t & Ht & _ & _ & Hp). by exists t.
  - apply list_elem_of_bind in Hy as (z & Hy & Hz).
    apply IHr1 in Hz as (t1 & E1 & P1). apply IHr2 in Hy as (t2 & E2 & P2).
    exists (t1 ++ t2). rewrite <-app_assoc, <-E2, prev_after_app, <-P1. done.
  - apply elem_of_app in Hy as [Hy|Hy]; auto.
  - apply list_elem_of_fmap in Hy as (z & -> & Hz). by apply IHr in Hz.
  - destruct (run r x); [by apply elem_of_nil in Hy|].
    apply list_elem_of_singleton in Hy as ->. by exists [].
  - destruct (prev x.1) eqn:Hp; [by apply elem_of_nil in Hy|].
    apply list_elem_of_singleton in Hy as ->. by exists [].
  - destruct (prev x.1) as [c|] eqn:Hp.
    + destruct (c =? NL); [|by apply elem_of_nil in Hy].
      apply list_elem_of_singleton in Hy as ->. by exists [].
    + apply list_elem_of_singleton in Hy as ->. by exists [].
  - destruct (rest x.1) as [|c [|d s']] eqn:Hr.
    + apply list_elem_of_singleton in Hy as ->. by exists [].
    + destruct (c =? NL); [|by apply elem_of_nil in Hy].
      apply list_elem_of_singleton in Hy as ->. by exists [].
    + by apply elem_of_nil in Hy.
Qed.

Lemma match_here_reach r pv s q g :
  match_here r pv s = Some (q, g) →
  ∃ t, s = t ++ rest q ∧ prev q = prev_after pv t.
Proof.
  intros H. apply head_Some_elem_of in H. by apply run_reach in H.
Qed.

Lemma search_from_here r pre s q g :
  match_here r (last pre) s = Some (q, g) →
  search_from r pre s
  = Some {| m_pre := pre; m_text := consumed s (rest q);
            m_group := g; m_post := rest q |}.
Proof. intros H. destruct s; simpl; by rewrite H. Qed.

Lemma search_from_next r pre c s :
  match_here r (last pre) (c :: s) = None →
  search_from r pre (c :: s) = search_from r (pre ++ [c]) s.
Proof. intros H. simpl. by rewrite H. Qed.

(** [re.search] reports the leftmost position at which the pattern matches,
    and the match tried first at that position. *)
Lemma search_from_Some r pre s m :
  search_from r pre s = Some m →
  ∃ skipped q,
    m_pre m = pre ++ skipped ∧
    s = skipped ++ m_text m ++ m_post m ∧
    match_here r (last (pre ++ skipped)) (m_text m ++ m_post m)
      = Some (q, m_group m) ∧
    rest q = m_post m ∧
    ∀ k, (k < length skipped)%nat →
         match_here r (last (pre ++ take k skipped)) (drop k s) = None.
Proof.
  revert pre. induction s as [|c s IH]; intros pre Hs.
  - destruct (match_here r (last pre) []) as [[q g]|] eqn:Hm;
      [|simpl in Hs; by rewrite Hm in Hs].
    rewrite (search_from_here _ _ _ _ _ Hm) in Hs. injection Hs as <-.
    destruct (match_here_reach _ _ _ _ _ Hm) as (t & Ht & _).
    symmetry in Ht. apply app_eq_nil in Ht as [-> Hq].
    exists [], q. cbn [m_pre m_text m_group m_post].
    rewrite Hq, app_nil_r. unfold consumed. simpl.
    split_and!; try done.
    intros k ?. lia.
  - destruct (match_here r (last pre) (c :: s)) as [[q g]|] eqn:Hm.
    + rewrite (search_from_here _ _ _ _ _ Hm) in Hs. injection Hs as <-.
      destruct (match_here_reach _ _ _ _ _ Hm) as (t & Ht & _).
      exists [], q. cbn [m_pre m_text m_group m_post].
      rewrite app_nil_r. rewrite Ht at 1 2 3. rewrite consumed_app, <-Ht.
      split_and!; try done. intros k ?. simpl in *. lia.
    + rewrite (search_from_next _ _ _ _ Hm) in Hs.
      apply IH in Hs as (sk & q & E1 & E2 & E3 & E4 & E5).
      exists (c :: sk), q. rewrite E1, <-app_assoc.
      split_and!; try done.
      * simpl. by rewrite E2 at 1.
      * by rewrite <-app_assoc in E3.
      * intros [|k] Hk; simpl in *.
        -- by rewrite app_nil_r.
        -- specialize (E5 k ltac:(lia)). by rewrite <-app_assoc in E5.
Qed.

Lemma search_from_None r pre s :
  search_from r pre s = None →
  ∀ k, (k ≤ length s)%nat →
       match_here r (last (pre ++ take k s)) (drop k s) = None.
Proof.
  revert pre. induction s as [|c s IH]; intros pre; simpl.
  - destruct (match_here r (last pre) []) as [[q g]|] eqn:Hm; [done|].
    intros _ k Hk. rewrite take_nil, drop_nil, app_nil_r. done.
  - destruct (match_here r (last pre) (c :: s)) as [[q g]|] eqn:Hm; [done|].
    intros H [|k] Hk; simpl.
    + by rewrite app_nil_r.
    + specialize (IH _ H k ltac:(lia)). by rewrite <-app_assoc in IH.
Qed.

(** Conversely, a match at a position before which the pattern matches
    nowhere is the one that [re.search] reports. *)
Lemma search_from_intro r pre skipped s q g :
  (∀ k, (k < length skipped)%nat →
        match_here r (last (pre ++ take k skipped)) (drop k skipped ++ s) = None) →
  match_here r (last (pre ++ skipped)) s = Some (q, g) →
  search_from r pre (skipped ++ s)
  = Some {| m_pre := pre ++ skipped; m_text := consumed s (rest q);
            m_group := g; m_post := rest q |}.
Proof.
  revert pre. induction skipped as [|c sk IH]; intros pre Hnone Hm.
  - simpl in *. rewrite app_nil_r in *.
    destruct s; simpl; by rewrite Hm.
  - simpl. pose proof (Hnone 0%nat ltac:(simpl; lia)) as H0.
    simpl in H0. rewrite app_nil_r in H0. rewrite H0.
    rewrite (IH (pre ++ [c])).
    + by rewrite <-app_assoc.
    + intros k Hk. specialize (Hnone (S k) ltac:(simpl; lia)).
      simpl in Hnone. by rewrite <-app_assoc.
    + by rewrite <-app_assoc.
Qed.

End ReFacts.

(** * The parser: dict, exceptions and the loop over the blocks *)

Module ParserFacts.
Import Py Re Parser PyFacts ReFacts.

(** The [values] dict holds, for every field, the stripped group of the
    field's pattern. *)
Lemma match_fields_lookup block :
  let values := match_fields block in
  values !! "doc_id"%string = field_value doc_id_pattern block ∧
  values !! "speaker_id"%string = field_value speaker_id_pattern block ∧
  values !! "construct"%string = field_value construct_pattern block ∧
  values !! "quote"%string = field_value quote_pattern block ∧
  values !! "confidence"%string = field_value confidence_pattern block.
Proof.
  unfold match_fields, patterns, field_value. cbn [foldl].
  destruct (search doc_id_pattern block);
  destruct (search speaker_id_pattern block);
  destruct (search construct_pattern block);
  destruct (search quote_pattern block);
  destruct (search confidence_pattern block);
  cbn [fmap option_fmap option_map]; split_and!; by simplify_map_eq.
Qed.

(** The group of the confidence pattern is a non-empty run of digits. *)
Lemma confidence_pattern_group x y :
  y ∈ run confidence_pattern x →
  ∃ t, y.2 = Some t ∧ t ≠ [] ∧ Forall (λ c, is_decimal c = true) t.
Proof.
  unfold confidence_pattern, seqs. cbn [foldr]. cbn [run].
  intros Hy.
  apply list_elem_of_bind in Hy as (z1 & Hy & _).
  apply list_elem_of_bind in Hy as (z2 & Hy & _).
  apply list_elem_of_bind in Hy as (z3 & Hy & Hz3).
  apply list_elem_of_singleton in Hy as ->.
  apply list_elem_of_fmap in Hz3 as (z4 & -> & Hz4).
  cbn [run] in Hz4. apply list_elem_of_fmap in Hz4 as (q & -> & Hq).
  apply elem_of_rep in Hq as (t & Ht & HF & Hlen & _).
  exists t. cbn [fst snd]. rewrite Ht, consumed_app.
  split_and!; [done| |done]. intros ->. simpl in Hlen. lia.
Qed.

Lemma confidence_value_digits block v :
  field_value confidence_pattern block = Some v →
  v ≠ [] ∧ Forall (λ c, is_decimal c = true) v.
Proof.
  unfold field_value. destruct (search _ _) as [m|] eqn:Hs; [|done].
  intros [= <-]. apply search_from_Some in Hs as (sk & q & _ & _ & Hm & _).
  apply head_Some_elem_of, confidence_pattern_group in Hm as (t & Hg & Hne & Ht).
  cbn [snd] in Hg. unfold group1. rewrite Hg. cbn [default].
  by rewrite strip_digits.
Qed.

(** [r"\d+"] finds the whole of a run of digits. *)
Lemma head_rep_all p lo pv v :
  Forall (λ c, p c = true) v → (lo ≤ length v)%nat →
  head (rep true p lo None pv v) = Some (Pos (prev_after pv v) []).
Proof.
  intros Hv. revert lo pv. induction Hv as [|c v Hc _ IH]; intros lo pv Hlo.
  - cbn in Hlo. by replace lo with 0%nat by lia.
  - cbn [rep]. rewrite Hc. cbn [may_take andb fmap option_fmap option_map].
    assert (Hlo' : (pred lo ≤ length v)%nat) by (cbn in Hlo; lia).
    specialize (IH (pred lo) (Some c) Hlo').
    destruct (rep true p (pred lo) None (Some c) v) as [|q l] eqn:E; [done|].
    cbn [app head] in *. rewrite IH. by rewrite prev_after_cons.
Qed.

Lemma search_digits_all v :
  v ≠ [] → Forall (λ c, is_decimal c = true) v →
  ∃ m, search digits_pattern v = Some m ∧ m_text m = v.
Proof.
  intros Hne Hv. unfold search.
  assert (Hm : match_here digits_pattern (last []) v
               = Some (Pos (prev_after None v) [], None)).
  { unfold match_here, digits_pattern, plus. cbn [run fst snd prev rest last].
    rewrite head_fmap, (head_rep_all is_decimal 1 None v Hv); [done|].
    destruct v; [done|cbn; lia]. }
  rewrite (search_from_here _ _ _ _ _ Hm). eexists. split; [done|].
  cbn [m_text rest]. unfold consumed. cbn [length].
  rewrite Nat.sub_0_r. apply firstn_all.
Qed.

(** [int] on the confidence field. *)
Lemma int__confidence max_str_digits v :
  v ≠ [] → Forall (λ c, is_decimal c = true) v →
  int_ max_str_digits v
  = if exceeds_limit max_str_digits (length v)
    then Raise (ValueError exceeds_the_limit)
    else Ok (Z.of_N (decimal_number v)).
Proof.
  intros Hne Hv. unfold int_.
  rewrite (int_decimals max_str_digits v Hne Hv).
  rewrite (int_strip_decimals v Hv), (count_digits_decimals v Hv).
  by destruct (exceeds_limit _ _).
Qed.

(** [_parse_block] computes [block_instance], unless the digits of the
    confidence exceed the limit: then the conversion raises, the handler
    finds the same digits and converts them again, and this time nothing
    catches the exception. *)
Lemma _parse_block_eq max_str_digits block default_doc_id :
  _parse_block max_str_digits block default_doc_id
  = if confidence_over max_str_digits block
    then Raise (ValueError exceeds_the_limit)
    else Ok (block_instance block default_doc_id).
Proof.
  unfold _parse_block, block_instance, block_confidence, confidence_over.
  cbv zeta.
  destruct (match_fields_lookup block) as (E1 & E2 & E3 & E4 & E5).
  cbv zeta in *. rewrite E1, E2, E3, E4, E5. clear E1 E2 E3 E4 E5.
  destruct (field_value construct_pattern block) as [c|]; [|done].
  destruct (field_value confidence_pattern block) as [v|] eqn:Hv; [|done].
  apply confidence_value_digits in Hv as [Hne Hd].
  rewrite (int__confidence max_str_digits v Hne Hd).
  destruct (exceeds_limit max_str_digits (length v)) eqn:Hx; [|done].
  cbn [try_except_ValueError].
  destruct (search_digits_all v Hne Hd) as (m & -> & ->).
  rewrite (int__confidence max_str_digits v Hne Hd), Hx. done.
Qed.

Lemma _parse_block_ok max_str_digits block default_doc_id :
  confidence_over max_str_digits block = false →
  _parse_block max_str_digits block default_doc_id
  = Ok (block_instance block default_doc_id).
Proof. intros H. by rewrite _parse_block_eq, H. Qed.

(** The loop raises when one of its blocks does, and else collects what
    the blocks contribute. *)
Lemma for_blocks_eq max_str_digits default_doc_id blocks instances :
  for_blocks max_str_digits default_doc_id blocks instances
  = if existsb (block_raises max_str_digits) blocks
    then Raise (ValueError exceeds_the_limit)
    else Ok (instances ++ (blocks ≫= emitted default_doc_id)).
Proof.
  revert instances. induction blocks as [|block blocks IH]; intros instances.
  - simpl. by rewrite app_nil_r.
  - cbn [for_blocks existsb].
    change ((block :: blocks) ≫= emitted default_doc_id)
      with (emitted default_doc_id block ++ (blocks ≫= emitted default_doc_id)).
    unfold emitted at 1. unfold block_raises at 1.
    destruct (truthy (strip block)); cbn [negb andb orb]; [|apply IH].
    rewrite _parse_block_eq.
    destruct (confidence_over max_str_digits block); cbn [orb]; [done|].
    cbn [mbind result_bind].
    destruct (block_instance block default_doc_id) as [inst|]; [|apply IH].
    destruct (truthy (construct inst)); [|apply IH].
    rewrite IH. destruct (existsb _ blocks); [done|]. by rewrite <-app_assoc.
Qed.

Lemma for_blocks_emitted max_str_digits default_doc_id blocks instances :
  existsb (block_raises max_str_digits) blocks = false →
  for_blocks max_str_digits default_doc_id blocks instances
  = Ok (instances ++ (blocks ≫= emitted default_doc_id)).
Proof. intros H. by rewrite for_blocks_eq, H. Qed.

Lemma for_blocks_Ok max_str_digits default_doc_id blocks instances out :
  for_blocks max_str_digits default_doc_id blocks instances = Ok out →
  existsb (block_raises max_str_digits) blocks = false ∧
  out = instances ++ (blocks ≫= emitted default_doc_id).
Proof.
  rewrite for_blocks_eq. destruct (existsb _ blocks); [done|].
  by intros [= <-].
Qed.

Lemma parse_response_eq max_str_digits response_text default_doc_id :
  parse_response max_str_digits response_text default_doc_id
  = if existsb (block_raises max_str_digits)
         (split blocks_pattern response_text)
    then Raise (ValueError exceeds_the_limit)
    else Ok (split blocks_pattern response_text ≫= emitted default_doc_id).
Proof. unfold parse_response. by rewrite for_blocks_eq. Qed.

(** What [parse_response] returns, whenever it returns. *)
Lemma parse_response_Ok max_str_digits response_text default_doc_id instances :
  parse_response max_str_digits response_text default_doc_id = Ok instances →
  instances = split blocks_pattern response_text ≫= emitted default_doc_id.
Proof.
  rewrite parse_response_eq. destruct (existsb _ _); [done|]. by intros [= <-].
Qed.

(** With the limit off no block raises. *)
Lemma block_raises_off block : block_raises 0 block = false.
Proof.
  unfold block_raises, confidence_over.
  destruct (field_value construct_pattern block),
    (field_value confidence_pattern block); by rewrite ?andb_false_r.
Qed.

Lemma elem_of_emitted d block i :
  i ∈ emitted d block →
  ∃ inst, block_instance block d = Some inst ∧ construct inst ≠ [] ∧
          strip block ≠ [] ∧
          i = (if truthy d then set_doc_id d inst else inst).
Proof.
  unfold emitted. destruct (strip block) eqn:Hb; [by intros ?%elem_of_nil|].
  cbn [truthy]. destruct (block_instance block d) as [inst|];
    [|by intros ?%elem_of_nil].
  destruct (construct inst) eqn:Hc; [by intros ?%elem_of_nil|].
  cbn [truthy]. intros ->%list_elem_of_singleton.
  exists inst. by rewrite Hc.
Qed.

End ParserFacts.

(** * The patterns of the parser and their direct readings *)

Module PatternFacts.
Import Py Re Parser ParserSpec PyFacts ReFacts.

(** ** Literal words *)

Lemma read_word_app eq w s t r :
  read_word eq w s = Some (t, r) → s = t ++ r ∧ Forall2 (λ c d, eq c d = true) w t.
Proof.
  revert s t r. induction w as [|c w IH]; intros s t r; simpl.
  - intros [= <- <-]. by split.
  - destruct s as [|d s]; [done|]. destruct (eq c d) eqn:Hcd; [|done].
    destruct (read_word eq w s) as [[t' r']|] eqn:Hr; [|done].
    simpl. intros [= <- <-]. apply IH in Hr as [-> HF].
    split; [done|by constructor].
Qed.

Lemma read_word_intro eq w t r :
  Forall2 (λ c d, eq c d = true) w t → read_word eq w (t ++ r) = Some (t, r).
Proof.
  induction 1 as [|c d w t Hcd _ IH]; [done|]. simpl. by rewrite Hcd, IH.
Qed.

Lemma run_lits eq w pv s g :
  run (seqs ((λ c, Chr (eq c)) <$> w)) (Pos pv s, g)
  = match read_word eq w s with
    | Some (t, r) => [(Pos (prev_after pv t) r, g)]
    | None => []
    end.
Proof.
  revert pv s. induction w as [|c w IH]; intros pv s; [done|].
  change (seqs ((λ c0, Chr (eq c0)) <$> c :: w))
    with (Seq (Chr (eq c)) (seqs ((λ c0, Chr (eq c0)) <$> w))).
  cbn [run read_word fst snd rest].
  destruct s as [|d s]; [done|]. destruct (eq c d); [|done].
  rewrite bind_singleton, IH.
  destruct (read_word eq w s) as [[t r]|]; [|done].
  cbn [fmap option_fmap option_map fst snd]. by rewrite prev_after_cons.
Qed.

Lemma run_word_i w x :
  run (word_i w) x
  = match read_word ci_eq (lit w) (rest x.1) with
    | Some (t, r) => [(Pos (prev_after (prev x.1) t) r, x.2)]
    | None => []
    end.
Proof. destruct x as [[pv s] g]. apply run_lits. Qed.

Lemma run_word w x :
  run (word w) x
  = match read_word N.eqb (lit w) (rest x.1) with
    | Some (t, r) => [(Pos (prev_after (prev x.1) t) r, x.2)]
    | None => []
    end.
Proof. destruct x as [[pv s] g]. apply run_lits. Qed.

Lemma run_seq_word_i w k x :
  run (Seq (word_i w) k) x
  = match read_word ci_eq (lit w) (rest x.1) with
    | Some (t, r) => run k (Pos (prev_after (prev x.1) t) r, x.2)
    | None => []
    end.
Proof.
  cbn [run]. rewrite run_word_i.
  destruct (read_word _ _ _) as [[t r]|]; [|done]. apply bind_singleton.
Qed.

Lemma run_seq_word w k x :
  run (Seq (word w) k) x
  = match read_word N.eqb (lit w) (rest x.1) with
    | Some (t, r) => run k (Pos (prev_after (prev x.1) t) r, x.2)
    | None => []
    end.
Proof.
  cbn [run]. rewrite run_word.
  destruct (read_word _ _ _) as [[t r]|]; [|done]. apply bind_singleton.
Qed.

Lemma begins_i_true w s :
  begins_i w s = true ↔ ∃ t r, read_word ci_eq (lit w) s = Some (t, r).
Proof.
  unfold begins_i. destruct (read_word _ _ _) as [[t r]|]; split; try done.
  - eauto.
  - by intros (? & ? & ?).
Qed.

(** ** Repetitions *)

Lemma rep_star_eq p pv s :
  rep true p 0 None pv s
  = match s with
    | c :: s' =>
        if p c then rep true p 0 None (Some c) s' ++ [Pos pv s] else [Pos pv s]
    | [] => [Pos pv s]
    end.
Proof. destruct s as [|c s]; [done|]. simpl. by rewrite andb_true_r. Qed.

Lemma rep_lazy_eq p pv s :
  rep false p 0 None pv s
  = Pos pv s ::
    match s with
    | c :: s' => if p c then rep false p 0 None (Some c) s' else []
    | [] => []
    end.
Proof. destruct s as [|c s]; [done|]. simpl. rewrite andb_true_r. by destruct (p c). Qed.

Lemma rep_plus_eq g p pv s :
  rep g p 1 None pv s
  = match s with
    | c :: s' => if p c then rep g p 0 None (Some c) s' else []
    | [] => []
    end.
Proof.
  destruct s as [|c s]; [done|]. simpl. rewrite andb_true_r.
  destruct (p c); [|done]. destruct g; [apply app_nil_r|done].
Qed.

Lemma upto_prefix stop s : upto stop s ++ drop (length (upto stop s)) s = s.
Proof.
  induction s as [|c s IH]; simpl.
  - by destruct (stop []).
  - destruct (stop (c :: s)); [done|]. simpl. by rewrite IH.
Qed.

(** A lazy repetition of [.] followed by a test of the text ahead stops at
    the first position at which the test holds. *)
Lemma lazy_scan {A} (stop : pystr → bool) (F : pos → A) pv s :
  stop [] = true →
  head (rep false any_char 0 None pv s
          ≫= λ q, if stop (rest q) then [F q] else [])
  = Some (F (Pos (prev_after pv (upto stop s)) (drop (length (upto stop s)) s))).
Proof.
  intros Hend. revert pv. induction s as [|c s IH]; intros pv.
  - simpl. by rewrite Hend.
  - rewrite rep_lazy_eq, bind_cons. cbn [rest any_char upto].
    destruct (stop (c :: s)); [done|].
    cbn [app]. rewrite IH. cbn [length drop]. by rewrite prev_after_cons.
Qed.

Lemma while_prefix p s : while p s ++ drop (length (while p s)) s = s.
Proof.
  induction s as [|c s IH]; [done|]. simpl.
  destruct (p c); [|done]. simpl. by rewrite IH.
Qed.

Lemma while_Forall p s : Forall (λ c, p c = true) (while p s).
Proof.
  induction s as [|c s IH]; simpl; [constructor|].
  destruct (p c) eqn:Hc; [by constructor|constructor].
Qed.

(** A greedy repetition, tried first at the end of the longest run. *)
Lemma head_rep_star p pv s :
  head (rep true p 0 None pv s)
  = Some (Pos (prev_after pv (while p s)) (drop (length (while p s)) s)).
Proof.
  revert pv. induction s as [|c s IH]; intros pv; [done|].
  rewrite rep_star_eq. cbn [while]. destruct (p c); [|done].
  rewrite head_app, IH. cbn [length drop]. by rewrite prev_after_cons.
Qed.

Lemma head_rep_plus p pv s :
  head (rep true p 1 None pv s)
  = match while p s with
    | [] => None
    | t => Some (Pos (prev_after pv t) (drop (length t) s))
    end.
Proof.
  rewrite rep_plus_eq. destruct s as [|c s]; [done|]. cbn [while].
  destruct (p c); [|done]. rewrite head_rep_star.
  cbn [length drop]. by rewrite prev_after_cons.
Qed.

(** ** The stops of the captures *)

Lemma run_chr_NL x :
  run (chr NL) x
  = match rest x.1 with
    | c :: s' => if c =? NL then [(Pos (Some c) s', x.2)] else []
    | [] => []
    end.
Proof.
  unfold chr. cbn [run]. destruct (rest x.1) as [|c s']; [done|].
  by rewrite (N.eqb_sym NL c).
Qed.

Lemma ahead_stop_before w x :
  run (Seq (Ahead (alts [chr NL; word_i w; Eos])) Eps) x
  = if stop_before w (rest x.1) then [x] else [].
Proof.
  cbn [run alts]. rewrite run_chr_NL, run_word_i.
  unfold stop_before, begins_i.
  destruct (rest x.1) as [|c s'] eqn:Hr; [by destruct (read_word _ _ _) as [[??]|]|].
  destruct (c =? NL) eqn:Hc; [done|].
  destruct (read_word _ _ _) as [[??]|]; [done|].
  cbn [app orb]. by destruct s'.
Qed.

Lemma ahead_stop_quote x :
  run (Seq (Ahead (alts [Seq (chr NL) (Alt (word_i "CONFIDENCE") (word_i "DOC"));
                         Eos])) Eps) x
  = if stop_quote (rest x.1) then [x] else [].
Proof.
  cbn [run alts]. rewrite run_chr_NL. unfold stop_quote, begins_i.
  destruct (rest x.1) as [|c s'] eqn:Hr; [done|].
  destruct (c =? NL) eqn:Hc.
  - rewrite bind_singleton. cbn [run]. rewrite !run_word_i. cbn [rest fst andb].
    destruct (read_word ci_eq (lit "CONFIDENCE") s') as [[??]|];
      [by destruct s'|].
    destruct (read_word ci_eq (lit "DOC") s') as [[??]|]; [by destruct s'|].
    cbn [app orb]. destruct s'; [done|]. by destruct s'.
  - cbn [mbind list_bind app andb]. by destruct s'.
Qed.

(** ** The tail of a field pattern: [\s*(.+?)(?=stop)] *)

Section FieldTail.
Variables (stopR : regex) (stop : pystr → bool).
Hypothesis stop_end : stop [] = true.
Hypothesis ahead_stop :
  ∀ x, run (Seq (Ahead stopR) Eps) x = if stop (rest x.1) then [x] else [].

Lemma head_capture_tail pv s g :
  group_of (head (run (capture_tail stopR) (Pos pv s, g)))
  = match s with
    | c :: r => Some (c :: upto stop r)
    | [] => None
    end.
Proof.
  unfold capture_tail, plus_lazy. cbn [run fst snd rest prev].
  rewrite rep_plus_eq. destruct s as [|c r]; [done|]. cbn [any_char].
  rewrite !list_fmap_bind.
  erewrite list_bind_ext; [|intros q; simpl; apply ahead_stop|done].
  cbn [fst rest].
  rewrite (lazy_scan stop (λ q, (q, Some (consumed (c :: r) (rest q))))) by done.
  cbn [group_of fmap option_fmap option_map snd default rest].
  f_equal. rewrite <-(upto_prefix stop r) at 1.
  change (c :: upto stop r ++ drop (length (upto stop r)) r)
    with ((c :: upto stop r) ++ drop (length (upto stop r)) r).
  by rewrite consumed_app.
Qed.

Lemma head_field_tail pv s g :
  group_of (head (run (Seq (star is_space) (capture_tail stopR)) (Pos pv s, g)))
  = capture stop s.
Proof.
  change (run (Seq (star is_space) (capture_tail stopR)) (Pos pv s, g))
    with (((λ q, (q, g)) <$> rep true is_space 0 None pv s) ≫= run (capture_tail stopR)).
  rewrite list_fmap_bind. unfold capture.
  revert pv. induction s as [|c s IH]; intros pv.
  - done.
  - rewrite rep_star_eq. cbn [lstrip]. destruct (is_space c) eqn:Hc.
    + rewrite bind_app, head_app, bind_singleton.
      specialize (IH (Some c)).
      destruct (head (rep true is_space 0 None (Some c) s ≫= _)) as [y|] eqn:Hy.
      * cbn [group_of fmap option_fmap option_map] in *.
        rewrite IH. destruct (lstrip s) as [|d r] eqn:Hl; [|done].
        destruct s as [|e s']; [discriminate IH|]. done.
      * cbn [group_of fmap option_fmap option_map] in IH.
        destruct (lstrip s) as [|d r] eqn:Hl; [|done].
        destruct s as [|e s'].
        2:{ destruct (proj2 (last_is_Some (e :: s'))) as [z Hz]; [done|].
            rewrite Hz in IH. discriminate IH. }
        cbn [compose]. rewrite head_capture_tail.
        cbn [upto last]. by rewrite stop_end.
    + rewrite bind_singleton. cbn [compose]. apply head_capture_tail.
Qed.
End FieldTail.

(** ** The tail of the confidence pattern: [\s*(\d+)] *)

Lemma head_group_plus p pv s g :
  group_of (head (run (Seq (Grp (plus p)) Eps) (Pos pv s, g)))
  = match while p s with
    | [] => None
    | t => Some t
    end.
Proof.
  unfold plus. cbn [run fst snd rest prev].
  rewrite !list_fmap_bind.
  assert (E : ∀ l : list pos,
            l ≫= (λ y, [y]) ∘ (λ y : st, (y.1, Some (consumed s (rest y.1))))
                 ∘ (λ q, (q, g))
            = (λ q, (q, Some (consumed s (rest q)))) <$> l).
  { intros l. induction l as [|q l IHl]; [done|].
    rewrite bind_cons, fmap_cons, IHl. done. }
  rewrite E, head_fmap, head_rep_plus.
  pose proof (while_prefix p s) as Hp.
  destruct (while p s) as [|d ds] eqn:Hw; [done|].
  cbn [group_of fmap option_fmap option_map compose rest snd default].
  f_equal. rewrite <-Hp at 1. by rewrite consumed_app.
Qed.

Lemma head_digits pv s g :
  group_of (head (run (Seq (Grp (plus is_decimal)) Eps) (Pos pv s, g)))
  = digit_run s.
Proof. apply head_group_plus. Qed.

Lemma head_confidence_tail pv s g :
  group_of (head (run (Seq (star is_space) (Seq (Grp (plus is_decimal)) Eps))
                      (Pos pv s, g)))
  = digit_run (lstrip s).
Proof.
  change (run (Seq (star is_space) (Seq (Grp (plus is_decimal)) Eps)) (Pos pv s, g))
    with (((λ q, (q, g)) <$> rep true is_space 0 None pv s)
            ≫= run (Seq (Grp (plus is_decimal)) Eps)).
  rewrite list_fmap_bind.
  revert pv. induction s as [|c s IH]; intros pv.
  - done.
  - rewrite rep_star_eq. cbn [lstrip]. destruct (is_space c) eqn:Hc.
    + rewrite bind_app, head_app, bind_singleton. specialize (IH (Some c)).
      destruct (head (rep true is_space 0 None (Some c) s ≫= _)) as [y|] eqn:Hy.
      * done.
      * rewrite <-IH. cbn [compose]. rewrite head_digits.
        unfold digit_run. cbn [while]. by rewrite (space_not_decimal c Hc).
    + rewrite bind_singleton. cbn [compose]. apply head_digits.
Qed.

(** ** The five patterns, tried at one position *)

Lemma rep_opt_eq p pv s :
  rep true p 0 (Some 1%nat) pv s
  = match s with
    | c :: s' => if p c then [Pos (Some c) s'; Pos pv s] else [Pos pv s]
    | [] => [Pos pv s]
    end.
Proof.
  destruct s as [|c s]; [done|]. simpl. rewrite andb_true_r.
  destruct (p c); [|done]. destruct s as [|d s]; [done|].
  simpl. by rewrite andb_false_r.
Qed.

Lemma underscore_or_space_not_letter c :
  underscore_or_space c = true → ci_eq 73 c = false.
Proof.
  unfold underscore_or_space. intros [H|H]%orb_true_iff.
  - apply N.eqb_eq in H. by subst.
  - apply is_space_elem in H. unfold white_space in H.
    repeat (apply elem_of_cons in H as [-> | H]; [done|]).
    by apply elem_of_nil in H.
Qed.

Lemma match_here_one_word w stopR stop pv s :
  stop [] = true →
  (∀ x, run (Seq (Ahead stopR) Eps) x = if stop (rest x.1) then [x] else []) →
  group_of (match_here (Seq (word_i w) (Seq (star is_space) (capture_tail stopR))) pv s)
  = read_label w s ≫= capture stop.
Proof.
  intros Hend Hstop. unfold match_here, read_label. rewrite run_seq_word_i.
  cbn [fst snd rest prev].
  destruct (read_word ci_eq (lit w) s) as [[t r]|]; [|done].
  cbn [fmap option_fmap option_map mbind option_bind snd].
  by apply head_field_tail.
Qed.

Lemma match_here_two_words w stopR stop pv s :
  stop [] = true →
  (∀ x, run (Seq (Ahead stopR) Eps) x = if stop (rest x.1) then [x] else []) →
  group_of (match_here
              (Seq (word_i w)
                 (Seq (opt underscore_or_space)
                    (Seq (word_i "ID:")
                       (Seq (star is_space) (capture_tail stopR))))) pv s)
  = read_label2 w "ID:" s ≫= capture stop.
Proof.
  intros Hend Hstop. unfold match_here, read_label2. rewrite run_seq_word_i.
  cbn [fst snd rest prev].
  destruct (read_word ci_eq (lit w) s) as [[t r]|]; [|done].
  set (K := Seq (word_i "ID:") (Seq (star is_space) (capture_tail stopR))).
  change (run (Seq (opt underscore_or_space) K) (Pos (prev_after pv t) r, None))
    with (((λ q, (q, None)) <$> rep true underscore_or_space 0 (Some 1%nat)
                                  (prev_after pv t) r) ≫= run K).
  rewrite rep_opt_eq.
  assert (HK : ∀ pv' s', group_of (head (run K (Pos pv' s', None)))
                         = read_label "ID:" s' ≫= capture stop).
  { intros pv' s'. by apply match_here_one_word. }
  destruct r as [|c r].
  - cbn [fmap list_fmap]. rewrite bind_singleton, HK. done.
  - destruct (underscore_or_space c) eqn:Hc.
    + cbn [fmap list_fmap]. rewrite bind_cons, bind_singleton.
      assert (E : run K (Pos (prev_after pv t) (c :: r), None) = []).
      { unfold K. rewrite run_seq_word_i. cbn [fst snd rest prev].
        change (lit "ID:") with [73; 68; 58]. cbn [read_word].
        by rewrite (underscore_or_space_not_letter c Hc). }
      rewrite E, app_nil_r. apply HK.
    + cbn [fmap list_fmap]. rewrite bind_singleton. apply HK.
Qed.

Lemma match_here_doc_id pv s :
  group_of (match_here doc_id_pattern pv s)
  = read_label2 "DOC" "ID:" s ≫= capture (stop_before "SPEAKER").
Proof. by apply match_here_two_words, ahead_stop_before. Qed.

Lemma match_here_speaker_id pv s :
  group_of (match_here speaker_id_pattern pv s)
  = read_label2 "SPEAKER" "ID:" s ≫= capture (stop_before "CONSTRUCT").
Proof. by apply match_here_two_words, ahead_stop_before. Qed.

Lemma match_here_construct pv s :
  group_of (match_here construct_pattern pv s)
  = read_label "CONSTRUCT:" s ≫= capture (stop_before "QUOTE").
Proof. by apply match_here_one_word, ahead_stop_before. Qed.

Lemma match_here_quote pv s :
  group_of (match_here quote_pattern pv s)
  = read_label "QUOTE:" s ≫= capture stop_quote.
Proof. by apply match_here_one_word, ahead_stop_quote. Qed.

Lemma match_here_confidence pv s :
  group_of (match_here confidence_pattern pv s)
  = read_label "CONFIDENCE:" s ≫= λ r, digit_run (lstrip r).
Proof.
  unfold match_here, read_label.
  change confidence_pattern
    with (Seq (word_i "CONFIDENCE:")
            (Seq (star is_space) (Seq (Grp (plus is_decimal)) Eps))).
  rewrite run_seq_word_i. cbn [fst snd rest prev].
  destruct (read_word ci_eq (lit "CONFIDENCE:") s) as [[t r]|]; [|done].
  cbn [fmap option_fmap option_map mbind option_bind snd].
  apply head_confidence_tail.
Qed.

(** ** From one position to the whole block *)

Lemma search_first_suffix P (f : pystr → option pystr) :
  (∀ pv s, group_of (match_here P pv s) = f s) →
  ∀ pre s, group1 <$> search_from P pre s = first_suffix f s.
Proof.
  intros Hf pre s. revert pre. induction s as [|c s IH]; intros pre.
  - cbn [first_suffix]. rewrite <-(Hf (last pre)).
    destruct (match_here P (last pre) []) as [[q g]|] eqn:Hm.
    + by rewrite (search_from_here _ _ _ _ _ Hm).
    + simpl. by rewrite Hm.
  - cbn [first_suffix]. rewrite <-(Hf (last pre)).
    destruct (match_here P (last pre) (c :: s)) as [[q g]|] eqn:Hm.
    + by rewrite (search_from_here _ _ _ _ _ Hm).
    + rewrite (search_from_next _ _ _ _ Hm). apply IH.
Qed.

Lemma field_value_first_suffix P f block :
  (∀ pv s, group_of (match_here P pv s) = f s) →
  field_value P block = strip <$> first_suffix f block.
Proof.
  intros Hf. unfold field_value, search.
  rewrite <-(search_first_suffix P f Hf []).
  by destruct (search_from P [] block).
Qed.

(** The fields of a block, read directly. *)
Lemma field_value_doc_id block :
  field_value doc_id_pattern block = spec_doc_id block.
Proof. apply field_value_first_suffix, match_here_doc_id. Qed.

Lemma field_value_speaker_id block :
  field_value speaker_id_pattern block = spec_speaker_id block.
Proof. apply field_value_first_suffix, match_here_speaker_id. Qed.

Lemma field_value_construct block :
  field_value construct_pattern block = spec_construct block.
Proof. apply field_value_first_suffix, match_here_construct. Qed.

Lemma field_value_quote block :
  field_value quote_pattern block = spec_quote block.
Proof. apply field_value_first_suffix, match_here_quote. Qed.

Lemma digit_run_digits s ds :
  digit_run s = Some ds → ds ≠ [] ∧ Forall (λ c, is_decimal c = true) ds.
Proof.
  unfold digit_run. pose proof (while_Forall is_decimal s) as HF.
  destruct (while is_decimal s) as [|d t]; [done|]. by intros [= <-].
Qed.

Lemma first_suffix_Some {A} (f : pystr → option A) s a :
  first_suffix f s = Some a →
  ∃ pre t, s = pre ++ t ∧ f t = Some a ∧
           ∀ k, (k < length pre)%nat → f (drop k s) = None.
Proof.
  induction s as [|c s IH]; cbn [first_suffix].
  - destruct (f []) eqn:Hf; [|done]. intros [= ->].
    exists [], []. split_and!; try done. simpl. lia.
  - destruct (f (c :: s)) eqn:Hf.
    + intros [= ->]. exists [], (c :: s). split_and!; try done. simpl. lia.
    + intros H. apply IH in H as (pre & t & -> & Ht & Hk).
      exists (c :: pre), t. split_and!; try done.
      intros [|k] Hlt; [done|]. simpl in *. apply Hk. lia.
Qed.

Lemma first_suffix_None {A} (f : pystr → option A) s :
  first_suffix f s = None ↔ ∀ pre t, s = pre ++ t → f t = None.
Proof.
  induction s as [|c s IH]; cbn [first_suffix].
  - destruct (f []) eqn:Hf; split; try done.
    + intros H. by rewrite (H [] []) in Hf.
    + intros _ pre t E. symmetry in E. apply app_eq_nil in E as [_ ->]. done.
  - destruct (f (c :: s)) eqn:Hf.
    + split; [done|]. intros H. by rewrite (H [] (c :: s)) in Hf.
    + rewrite IH. split.
      * intros H [|d pre] t E; simpl in E; [by subst|].
        injection E as -> ->. by eapply H.
      * intros H pre t ->. by apply (H (c :: pre)).
Qed.

Lemma first_suffix_here {A} (f : pystr → option A) s a :
  f s = Some a → first_suffix f s = Some a.
Proof. intros H. destruct s; simpl; by rewrite H. Qed.

Lemma first_suffix_intro {A} (f : pystr → option A) pre t a :
  f t = Some a →
  (∀ k, (k < length pre)%nat → f (drop k (pre ++ t)) = None) →
  first_suffix f (pre ++ t) = Some a.
Proof.
  intros Ht. induction pre as [|c pre IH]; intros Hk.
  - simpl. destruct t; simpl; by rewrite Ht.
  - pose proof (Hk 0%nat ltac:(simpl; lia)) as H0. cbn [drop app] in H0.
    cbn [app first_suffix]. rewrite H0.
    apply IH. intros k Hlt. apply (Hk (S k)). simpl. lia.
Qed.

Lemma field_value_confidence block :
  field_value confidence_pattern block = spec_confidence block.
Proof.
  rewrite (field_value_first_suffix _ _ _ match_here_confidence).
  unfold spec_confidence.
  destruct (first_suffix _ block) as [ds|] eqn:Hs; [|done].
  apply first_suffix_Some in Hs as (pre & t & _ & Ht & _).
  destruct (read_label "CONFIDENCE:" t) as [r|]; [|done].
  apply digit_run_digits in Ht as [_ Hd].
  cbn [fmap option_fmap option_map]. by rewrite strip_digits.
Qed.

End PatternFacts.

(** * Splitting the response into blocks *)

Module SplitFacts.
Import Py Re Parser ParserSpec PyFacts ReFacts PatternFacts.

Lemma match_here_blocks pv s :
  match_here blocks_pattern pv s
  = match s with
    | c :: s' =>
        if (c =? NL) && begins_marker s' then Some (Pos (Some c) s', None)
        else None
    | [] => None
    end.
Proof.
  unfold match_here.
  change blocks_pattern
    with (Seq (chr NL)
            (Seq (Ahead (Alt (word_i "DOC_ID:") (word_i "DOC ID:"))) Eps)).
  cbn [run]. rewrite run_chr_NL. cbn [fst snd rest].
  destruct s as [|c s']; [done|].
  destruct (c =? NL); [|done]. rewrite bind_singleton.
  cbn [run]. rewrite !run_word_i. cbn [fst snd rest prev andb].
  unfold begins_marker, begins_i.
  destruct (read_word ci_eq (lit "DOC_ID:") s') as [[??]|]; [done|].
  by destruct (read_word ci_eq (lit "DOC ID:") s') as [[??]|].
Qed.

(** [re.split] with the block pattern cuts the text before every line break
    that is followed by a marker. *)
Lemma split_from_blocks pv piece s :
  split_from blocks_pattern 0 pv piece s = cut_at_markers piece s.
Proof.
  revert pv piece. induction s as [|c s IH]; intros pv piece; [done|].
  cbn [split_from cut_at_markers]. rewrite match_here_blocks.
  destruct ((c =? NL) && begins_marker s); [|apply IH].
  cbn [rest length].
  replace (S (length s) - length s)%nat with 1%nat by lia.
  by rewrite IH.
Qed.

Lemma split_blocks text : split blocks_pattern text = cut_at_markers [] text.
Proof. apply split_from_blocks. Qed.

Lemma cut_head piece s :
  ∃ u bs, cut_at_markers piece s = (piece ++ u) :: bs.
Proof.
  revert piece. induction s as [|c s IH]; intros piece; cbn [cut_at_markers].
  - exists [], []. by rewrite app_nil_r.
  - destruct ((c =? NL) && begins_marker s).
    + exists [], (cut_at_markers [] s). by rewrite app_nil_r.
    + destruct (IH (piece ++ [c])) as (u & bs & ->).
      exists (c :: u), bs. by rewrite <-app_assoc.
Qed.

Lemma join_cons sep p ps :
  ps ≠ [] → join sep (p :: ps) = p ++ sep ++ join sep ps.
Proof. by destruct ps. Qed.

(** The blocks, joined by line breaks, give the text back. *)
Lemma join_cut piece s : join [NL] (cut_at_markers piece s) = piece ++ s.
Proof.
  revert piece. induction s as [|c s IH]; intros piece; cbn [cut_at_markers].
  - simpl. by rewrite app_nil_r.
  - destruct (c =? NL) eqn:Hc; cbn [andb].
    + destruct (begins_marker s).
      * destruct (cut_head [] s) as (u & bs & E).
        rewrite join_cons by (rewrite E; done).
        rewrite IH. apply N.eqb_eq in Hc. by subst.
      * rewrite IH. by rewrite <-app_assoc.
    + rewrite IH. by rewrite <-app_assoc.
Qed.

Lemma cut_app_no_break piece t s :
  Forall (λ c, (c =? NL) = false) t →
  cut_at_markers piece (t ++ s) = cut_at_markers (piece ++ t) s.
Proof.
  intros Ht. revert piece. induction Ht as [|c t Hc _ IH]; intros piece.
  - by rewrite app_nil_r.
  - cbn [app cut_at_markers]. rewrite Hc. cbn [andb].
    rewrite IH. by rewrite <-app_assoc.
Qed.

Lemma ci_eq_not_break p c : p ≠ NL → ci_eq p c = true → (c =? NL) = false.
Proof.
  intros Hp H. destruct (c =? NL) eqn:Hc; [|done].
  apply N.eqb_eq in Hc. subst c. exfalso.
  unfold ci_eq in H. apply N.eqb_eq in H.
  change (fold_case NL) with 10 in H.
  unfold fold_case in H.
  destruct ((65 <=? p) && (p <=? 90)) eqn:H1.
  { apply andb_true_iff in H1 as [H1 _]. apply N.leb_le in H1. lia. }
  destruct ((p =? 304) || (p =? 305)); [done|].
  destruct (p =? 383); [done|]. destruct (p =? 8490); [done|].
  by apply Hp.
Qed.

Lemma word_no_break (w : pystr) t :
  Forall (λ p, p ≠ NL) w →
  Forall2 (λ p c, ci_eq p c = true) w t →
  Forall (λ c, (c =? NL) = false) t.
Proof.
  intros Hw HF. induction HF as [|p c w t Hpc _ IH]; [constructor|].
  inversion Hw; subst. constructor; [by eapply ci_eq_not_break|by apply IH].
Qed.

Lemma begins_i_app w s u : begins_i w s = true → begins_i w (s ++ u) = true.
Proof.
  rewrite !begins_i_true. intros (t & r & H).
  apply read_word_app in H as [-> HF]. exists t, (r ++ u).
  rewrite <-app_assoc. by apply read_word_intro.
Qed.

Lemma begins_marker_app s u :
  begins_marker s = true → begins_marker (s ++ u) = true.
Proof.
  unfold begins_marker. intros [H|H]%orb_true_iff; apply orb_true_iff;
    [left|right]; by apply begins_i_app.
Qed.

(** A marker contains no line break, so it lies within one block. *)
Lemma begins_marker_split s :
  begins_marker s = true →
  ∃ t r, s = t ++ r ∧ Forall (λ c, (c =? NL) = false) t ∧
         ∀ u, begins_marker (t ++ u) = true.
Proof.
  unfold begins_marker. intros [H|H]%orb_true_iff;
    apply begins_i_true in H as (t & r & H);
    apply read_word_app in H as [-> HF]; exists t, r;
    (split_and!; [done| |]).
  - eapply word_no_break; [|done]. by repeat constructor.
  - intros u. apply orb_true_iff. left. apply begins_i_true.
    exists t, u. by apply read_word_intro.
  - eapply word_no_break; [|done]. by repeat constructor.
  - intros u. apply orb_true_iff. right. apply begins_i_true.
    exists t, u. by apply read_word_intro.
Qed.

(** Every block after the first begins with a marker. *)
Lemma cut_tail_markers piece s :
  Forall (λ b, begins_marker b = true) (tail (cut_at_markers piece s)).
Proof.
  revert piece. induction s as [|c s IH]; intros piece; cbn [cut_at_markers].
  - constructor.
  - destruct ((c =? NL) && begins_marker s) eqn:Hcut; [|apply IH].
    cbn [tail]. apply andb_true_iff in Hcut as [_ Hm].
    specialize (IH []).
    destruct (begins_marker_split s Hm) as (t & r & -> & Ht & Hb).
    rewrite (cut_app_no_break [] t r Ht) in *. cbn [app] in *.
    destruct (cut_head t r) as (u & bs & E). rewrite E in *.
    constructor; [apply Hb|apply IH].
Qed.

(** No block contains a line break followed by a marker. *)
Lemma cut_no_inner_marker piece s :
  (∀ pre post, piece = pre ++ NL :: post → begins_marker (post ++ s) = false) →
  Forall (λ b, ∀ pre post, b = pre ++ NL :: post → begins_marker post = false)
         (cut_at_markers piece s).
Proof.
  revert piece. induction s as [|c s IH]; intros piece Hinv; cbn [cut_at_markers].
  - constructor; [|constructor]. intros pre post E.
    specialize (Hinv pre post E). by rewrite app_nil_r in Hinv.
  - destruct ((c =? NL) && begins_marker s) eqn:Hcut.
    + constructor.
      * intros pre post E. specialize (Hinv pre post E).
        destruct (begins_marker post) eqn:Hp; [|done].
        by rewrite (begins_marker_app _ (c :: s) Hp) in Hinv.
      * apply IH. intros pre post E. by destruct pre.
    + apply IH. intros pre post E.
      destruct post as [|e post0].
      * apply app_inj_tail in E as [-> Hc]. subst c.
        rewrite N.eqb_refl in Hcut. cbn [andb app] in *. done.
      * destruct (exists_last (l := e :: post0)) as (post' & d & Ep); [done|].
        rewrite Ep in *. clear Ep.
        rewrite app_comm_cons, app_assoc in E.
        apply app_inj_tail in E as [-> Hd]. subst d.
        rewrite <-app_assoc. by apply (Hinv pre).
Qed.

(** A text without a line break followed by a marker is one block. *)
Lemma cut_single piece s :
  (∀ pre post, s = pre ++ NL :: post → begins_marker post = false) →
  cut_at_markers piece s = [piece ++ s].
Proof.
  revert piece. induction s as [|c s IH]; intros piece Hs; cbn [cut_at_markers].
  - by rewrite app_nil_r.
  - destruct ((c =? NL) && begins_marker s) eqn:Hcut.
    + apply andb_true_iff in Hcut as [Hc Hm]. apply N.eqb_eq in Hc. subst c.
      by rewrite (Hs [] s) in Hm.
    + rewrite IH; [by rewrite <-app_assoc|].
      intros pre post ->. by apply (Hs (c :: pre)).
Qed.

End SplitFacts.

(** * The limit on the digits of a numeral *)

Module LimitFacts.
Import Py Re Parser ParserSpec PyFacts ReFacts ParserFacts PatternFacts SplitFacts.

Lemma lstrip_split s :
  ∃ ws, s = ws ++ lstrip s ∧ Forall (λ c, is_space c = true) ws.
Proof.
  induction s as [|c s (ws & E & HF)]; [by exists []|]. simpl.
  destruct (is_space c) eqn:Hc; [|by exists []].
  exists (c :: ws). split; [by rewrite <-app_comm_cons, <-E|by constructor].
Qed.

Lemma digit_runs_ge run s : (run ≤ digit_runs run s)%nat.
Proof.
  revert run. induction s as [|c s IH]; intros run; cbn [digit_runs]; [done|].
  destruct (is_decimal c); [|lia]. specialize (IH (S run)). lia.
Qed.

Lemma digit_runs_mono run run' s :
  (run ≤ run')%nat → (digit_runs run s ≤ digit_runs run' s)%nat.
Proof.
  revert run run'. induction s as [|c s IH]; intros run run' H;
    cbn [digit_runs]; [done|].
  destruct (is_decimal c); [apply IH; lia|lia].
Qed.

Lemma digit_runs_decimals run v s :
  Forall (λ c, is_decimal c = true) v →
  digit_runs run (v ++ s) = digit_runs (run + length v) s.
Proof.
  intros Hv. revert run. induction Hv as [|c v Hc _ IH]; intros run.
  - cbn. by rewrite Nat.add_0_r.
  - cbn [app digit_runs length]. rewrite Hc, IH. f_equal. lia.
Qed.

Lemma digit_runs_suffix run a s :
  (digit_runs 0 s ≤ digit_runs run (a ++ s))%nat.
Proof.
  revert run. induction a as [|c a IH]; intros run.
  - apply digit_runs_mono. lia.
  - cbn [app digit_runs]. destruct (is_decimal c); [apply IH|].
    specialize (IH 0%nat). lia.
Qed.

(** A run of digits of the text is no longer than the longest one. *)
Lemma longest_digit_run_infix a v b :
  Forall (λ c, is_decimal c = true) v →
  (length v ≤ longest_digit_run (a ++ v ++ b))%nat.
Proof.
  intros Hv. unfold longest_digit_run.
  etrans; [|apply digit_runs_suffix].
  rewrite (digit_runs_decimals 0 v b Hv). apply digit_runs_ge.
Qed.

Lemma digit_runs_prefix run u b :
  (digit_runs run u ≤ digit_runs run (u ++ b))%nat.
Proof.
  revert run. induction u as [|c u IH]; intros run.
  - apply digit_runs_ge.
  - cbn [app digit_runs]. destruct (is_decimal c); [apply IH|].
    specialize (IH 0%nat). lia.
Qed.

(** A part of a text has no longer run of digits than the text. *)
Lemma longest_digit_run_part a u b :
  (longest_digit_run u ≤ longest_digit_run (a ++ u ++ b))%nat.
Proof.
  unfold longest_digit_run. etrans; [|apply digit_runs_suffix].
  apply digit_runs_prefix.
Qed.

Lemma within_limit_part max_str_digits a u b :
  within_limit max_str_digits (a ++ u ++ b) = true →
  within_limit max_str_digits u = true.
Proof.
  unfold within_limit. intros [H|H]%orb_true_iff; apply orb_true_iff.
  - by left.
  - right. apply Nat.leb_le in H. apply Nat.leb_le.
    pose proof (longest_digit_run_part a u b). lia.
Qed.

Lemma elem_of_join sep (l : list pystr) block :
  block ∈ l → ∃ a b, join sep l = a ++ block ++ b.
Proof.
  induction l as [|p l IH]; [by intros ?%elem_of_nil|].
  intros [->|Hin]%elem_of_cons.
  - destruct l as [|q l]; [exists [], []; by rewrite app_nil_r|].
    by exists [], (sep ++ join sep (q :: l)).
  - destruct (IH Hin) as (a & b & E). destruct l as [|q l].
    { by apply elem_of_nil in Hin. }
    exists (p ++ sep ++ a), b.
    change (join sep (p :: q :: l)) with (p ++ sep ++ join sep (q :: l)).
    rewrite E. by rewrite <-!app_assoc.
Qed.

(** The blocks are parts of the response. *)
Lemma block_infix text block :
  block ∈ split blocks_pattern text → ∃ a b, text = a ++ block ++ b.
Proof.
  rewrite split_blocks. intros H.
  destruct (elem_of_join [NL] _ _ H) as (a & b & E).
  rewrite join_cut in E. by exists a, b.
Qed.

(** The confidence field is a run of digits of the block. *)
Lemma confidence_value_infix block v :
  field_value confidence_pattern block = Some v →
  ∃ a b, block = a ++ v ++ b.
Proof.
  rewrite field_value_confidence. unfold spec_confidence.
  intros (pre & t & -> & Ht & _)%first_suffix_Some.
  unfold read_label in Ht.
  destruct (read_word ci_eq (lit "CONFIDENCE:") t) as [[w r]|] eqn:Hw; [|done].
  apply read_word_app in Hw as [-> _].
  cbn [fmap option_fmap option_map mbind option_bind snd] in Ht.
  destruct (lstrip_split r) as (ws & Er & _).
  unfold digit_run in Ht. pose proof (while_prefix is_decimal (lstrip r)) as Hp.
  destruct (while is_decimal (lstrip r)) as [|d ds] eqn:E; [done|].
  injection Ht as <-.
  exists (pre ++ w ++ ws), (drop (length (d :: ds)) (lstrip r)).
  rewrite <-!app_assoc. do 2 f_equal. rewrite Er at 1. f_equal.
  by rewrite <-Hp at 1.
Qed.

(** A block whose conversion raises has a numeral beyond the limit. *)
Lemma confidence_over_beyond max_str_digits block :
  confidence_over max_str_digits block = true →
  within_limit max_str_digits block = false.
Proof.
  unfold confidence_over. intros Hr.
  destruct (field_value construct_pattern block); [|done].
  destruct (field_value confidence_pattern block) as [v|] eqn:Hv; [|done].
  pose proof (confidence_value_digits _ _ Hv) as [_ Hd].
  destruct (confidence_value_infix _ _ Hv) as (a & b & ->).
  unfold exceeds_limit in Hr. apply andb_true_iff in Hr as [H0 Hlt].
  apply Nat.ltb_lt in H0, Hlt.
  pose proof (longest_digit_run_infix a v b Hd) as Hle.
  unfold within_limit. apply orb_false_iff. split.
  - apply Nat.eqb_neq. lia.
  - apply Nat.leb_gt. lia.
Qed.

Lemma within_limit_off text : within_limit 0 text = true.
Proof. done. Qed.

(** No block raises when no run of digits of the response exceeds the
    limit. *)
Lemma within_limit_blocks max_str_digits text :
  within_limit max_str_digits text = true →
  existsb (block_raises max_str_digits) (split blocks_pattern text) = false.
Proof.
  intros Hw. destruct (existsb _ _) eqn:Hex; [|done]. exfalso.
  apply existsb_exists in Hex as (block & Hin & Hr).
  apply list_elem_of_In in Hin.
  apply andb_true_iff in Hr as [_ Hr].
  apply confidence_over_beyond in Hr.
  destruct (block_infix _ _ Hin) as (a & b & ->).
  apply within_limit_part in Hw. congruence.
Qed.

(** A response on which [parse_response] raises has a numeral beyond the
    limit. *)
Lemma block_raises_beyond max_str_digits text :
  existsb (block_raises max_str_digits) (split blocks_pattern text) = true →
  within_limit max_str_digits text = false.
Proof.
  intros H. destruct (within_limit max_str_digits text) eqn:Hw; [|done].
  apply within_limit_blocks in Hw. congruence.
Qed.

(** [parse_response] returns on such a response. *)
Lemma parse_response_within max_str_digits text default_doc_id :
  within_limit max_str_digits text = true →
  parse_response max_str_digits text default_doc_id
  = Ok (split blocks_pattern text ≫= emitted default_doc_id).
Proof.
  intros H. by rewrite parse_response_eq, (within_limit_blocks _ _ H).
Qed.

End LimitFacts.

(** * The response parser: the claims *)

Module ParserClaims.
Import Py Re Parser ParserSpec PyFacts ReFacts ParserFacts PatternFacts SplitFacts
  LimitFacts.

Lemma block_instance_set_doc_id block d inst :
  block_instance block d = Some inst →
  speaker_id inst = default [] (field_value speaker_id_pattern block) ∧
  quote inst = default [] (field_value quote_pattern block) ∧
  confidence inst = block_confidence block ∧
  doc_id inst = default d (field_value doc_id_pattern block) ∧
  field_value construct_pattern block = Some (construct inst).
Proof.
  unfold block_instance.
  destruct (field_value construct_pattern block); [|done].
  by intros [= <-].
Qed.

(** [parse_response] returns on every response none of whose numerals
    exceeds the limit. *)
Lemma parse_response_returns max_str_digits response_text default_doc_id :
  within_limit max_str_digits response_text = true →
  ∃ instances,
    parse_response max_str_digits response_text default_doc_id = Ok instances.
Proof. intros H. eexists. by apply parse_response_within. Qed.

(** The only exception of [parse_response] is that of the limit. *)
Lemma parse_response_Raise max_str_digits response_text default_doc_id e :
  parse_response max_str_digits response_text default_doc_id = Raise e →
  e = ValueError exceeds_the_limit ∧
  within_limit max_str_digits response_text = false.
Proof.
  rewrite parse_response_eq. destruct (existsb _ _) eqn:Hex; [|done].
  intros [= <-]. split; [done|]. by apply block_raises_beyond.
Qed.

(** An instance that [parse_response] returns is the one that
    [_parse_block] returns for a block of the response, with the document
    id replaced when one is given. *)
Lemma parse_response_elem max_str_digits response_text default_doc_id instances i :
  parse_response max_str_digits response_text default_doc_id = Ok instances →
  i ∈ instances →
  ∃ block inst,
    block ∈ split blocks_pattern response_text ∧
    block_instance block default_doc_id = Some inst ∧
    _parse_block max_str_digits block default_doc_id = Ok (Some inst) ∧
    construct inst ≠ [] ∧ strip block ≠ [] ∧
    i = (if truthy default_doc_id then set_doc_id default_doc_id inst else inst).
Proof.
  rewrite parse_response_eq. destruct (existsb _ _) eqn:Hex; [done|].
  intros [= <-] Hi. apply list_elem_of_bind in Hi as (block & Hi & Hb).
  apply elem_of_emitted in Hi as (inst & Hinst & Hc & Hs & ->).
  exists block, inst. split_and!; try done.
  rewrite _parse_block_ok, Hinst; [done|].
  destruct (confidence_over max_str_digits block) eqn:Ho; [|done].
  assert (existsb (block_raises max_str_digits)
            (split blocks_pattern response_text) = true); [|congruence].
  apply existsb_exists. exists block. split; [by apply list_elem_of_In|].
  unfold block_raises. rewrite Ho. by destruct (strip block).
Qed.

(** Claim C1.  [parse_response] returns on every response none of whose
    numerals exceeds the limit of the interpreter.  Whenever it returns,
    a non-empty [known_doc_id] is the [doc_id] of every instance returned,
    whatever the block says; with an empty [known_doc_id] the instance is
    the one parsed from its block, whose [doc_id] is the value found in the
    block, or the empty string. *)
Theorem parse_response_doc_id (max_str_digits : nat)
    (response_text known_doc_id : pystr) :
  (within_limit max_str_digits response_text = true →
   ∃ instances,
     parse_response max_str_digits response_text known_doc_id = Ok instances) ∧
  ∀ instances,
    parse_response max_str_digits response_text known_doc_id = Ok instances →
    (known_doc_id ≠ [] → ∀ i, i ∈ instances → doc_id i = known_doc_id) ∧
    (known_doc_id = [] → ∀ i, i ∈ instances →
       ∃ block, block ∈ split blocks_pattern response_text ∧
                _parse_block max_str_digits block [] = Ok (Some i) ∧
                doc_id i = default [] (match_fields block !! "doc_id"%string)).
Proof.
  split; [apply parse_response_returns|]. intros instances H. split.
  - intros Hne i Hi.
    destruct (parse_response_elem _ _ _ _ _ H Hi)
      as (block & inst & _ & _ & _ & _ & _ & ->).
    by destruct known_doc_id.
  - intros -> i Hi.
    destruct (parse_response_elem _ _ _ _ _ H Hi)
      as (block & inst & Hb & Hinst & Hp & _ & _ & ->).
    exists block. cbn [truthy]. split_and!; [done|done|].
    destruct (match_fields_lookup block) as (-> & _).
    by apply block_instance_set_doc_id in Hinst as (_ & _ & _ & -> & _).
Qed.

Lemma parse_response_doc_id_witness :
  ∃ instances,
    parse_response default_max_str_digits sample_one (lit "interview1")
    = Ok instances ∧
    ∀ i, i ∈ instances → doc_id i = lit "interview1".
Proof.
  destruct (parse_response_doc_id default_max_str_digits sample_one
              (lit "interview1")) as [Hr Hp].
  destruct Hr as (instances & H); [vm_compute; reflexivity|].
  exists instances. split; [exact H|]. apply (Hp instances H). discriminate.
Defined.

(** Claim C2.  Every instance returned by [parse_response] has a non-empty
    [construct] ([parse_response] returns on every response none of whose
    numerals exceeds the limit of the interpreter); a block in which the
    construct pattern finds nothing gives no instance: [_parse_block]
    returns [None] and the loop passes on. *)
Theorem parse_response_construct (max_str_digits : nat)
    (response_text default_doc_id : pystr) :
  (within_limit max_str_digits response_text = true →
   ∃ instances,
     parse_response max_str_digits response_text default_doc_id = Ok instances) ∧
  (∀ instances,
     parse_response max_str_digits response_text default_doc_id = Ok instances →
     ∀ i, i ∈ instances → construct i ≠ []) ∧
  (∀ block, search construct_pattern block = None →
     _parse_block max_str_digits block default_doc_id = Ok None ∧
     ∀ blocks instances,
       for_blocks max_str_digits default_doc_id (block :: blocks) instances
       = for_blocks max_str_digits default_doc_id blocks instances).
Proof.
  split_and!.
  - apply parse_response_returns.
  - intros instances H i Hi.
    destruct (parse_response_elem _ _ _ _ _ H Hi)
      as (block & inst & _ & _ & _ & Hc & _ & ->).
    by destruct (truthy default_doc_id).
  - intros block Hnone.
    assert (E : _parse_block max_str_digits block default_doc_id = Ok None).
    { rewrite _parse_block_ok.
      - unfold block_instance, field_value. by rewrite Hnone.
      - unfold confidence_over, field_value. by rewrite Hnone. }
    split; [done|]. intros blocks instances. cbn [for_blocks].
    rewrite E. by destruct (truthy (strip block)).
Qed.

Lemma parse_response_construct_witness :
  _parse_block default_max_str_digits (lit "QUOTE: q") [] = Ok None.
Proof.
  destruct (parse_response_construct default_max_str_digits [] [])
    as (_ & _ & H).
  destruct (H (lit "QUOTE: q")) as [HA _]; [vm_compute; reflexivity|exact HA].
Defined.

(** ** The confidence of a block *)

Lemma while_app_stop p ds rest :
  Forall (λ c, p c = true) ds →
  (∀ c rest', rest = c :: rest' → p c = false) →
  while p (ds ++ rest) = ds.
Proof.
  intros Hds Hrest. induction Hds as [|d ds Hd _ IH]; simpl.
  - destruct rest as [|c rest']; [done|]. simpl. by rewrite (Hrest c rest').
  - by rewrite Hd, IH.
Qed.

Lemma block_confidence_spec block :
  block_confidence block
  = match spec_confidence block with
    | Some v => Z.of_N (decimal_number v)
    | None => (-1)%Z
    end.
Proof. unfold block_confidence. by rewrite field_value_confidence. Qed.

Lemma while_rest p s c r :
  drop (length (while p s)) s = c :: r → p c = false.
Proof.
  induction s as [|d s IH]; [done|]. cbn [while].
  destruct (p d) eqn:Hd; [exact IH|]. by intros [= <- <-].
Qed.

(** No CONFIDENCE label of the block is followed by a number. *)
Lemma spec_confidence_non_numeric block :
  no_confidence_digits block → spec_confidence block = None.
Proof.
  intros H. apply first_suffix_None. intros pre t ->.
  unfold read_label.
  destruct (read_word ci_eq (lit "CONFIDENCE:") t) as [[lbl r]|] eqn:Hr; [|done].
  apply read_word_app in Hr as [-> Hl]. cbn [fmap option_fmap option_map mbind option_bind snd].
  destruct (lstrip_split r) as (ws & Er & Hws).
  unfold digit_run. destruct (lstrip r) as [|c rest] eqn:Hls; [done|].
  cbn [while]. rewrite (H pre lbl ws c rest); [done| |done|done].
  by rewrite Er at 1.
Qed.

(** The leftmost CONFIDENCE label of the block that is followed by a
    number. *)
Lemma spec_confidence_first block ds :
  confidence_digits block ds → spec_confidence block = Some ds.
Proof.
  intros (pre & lbl & ws & rest & -> & Hl & Hfirst & Hws & Hne & Hds & Hrest).
  apply first_suffix_intro.
  - unfold read_label. rewrite (read_word_intro _ _ _ _ Hl).
    cbn [fmap option_fmap option_map mbind option_bind snd].
    rewrite lstrip_app_space by done.
    destruct ds as [|d ds]; [done|].
    rewrite <-app_comm_cons, lstrip_no_space
      by (apply decimal_not_space; by inversion Hds).
    rewrite app_comm_cons. unfold digit_run.
    by rewrite (while_app_stop _ _ _ Hds Hrest).
  - intros k Hk. unfold read_label.
    destruct (read_word ci_eq (lit "CONFIDENCE:") (drop k _)) as [[t r]|] eqn:Hr;
      [|done].
    apply read_word_app in Hr as [E Ht].
    cbn [fmap option_fmap option_map mbind option_bind snd].
    destruct (lstrip_split r) as (ws' & Er & Hws').
    unfold digit_run. destruct (lstrip r) as [|c rest'] eqn:Hls; [done|].
    cbn [while]. destruct (is_decimal c) eqn:Hc; [|done]. exfalso.
    set (block := pre ++ lbl ++ ws ++ ds ++ rest) in *.
    specialize (Hfirst (take k block) t ws' c rest').
    rewrite <-Er, <-E, take_drop in Hfirst.
    specialize (Hfirst eq_refl Ht Hws' Hc).
    rewrite length_take in Hfirst. lia.
Qed.

(** Every block is of one of the two kinds. *)
Lemma spec_confidence_None block :
  spec_confidence block = None → no_confidence_digits block.
Proof.
  intros H pre lbl ws c rest -> Hl Hws.
  destruct (is_decimal c) eqn:Hc; [|done]. exfalso.
  unfold spec_confidence in H. rewrite first_suffix_None in H.
  specialize (H pre _ eq_refl). unfold read_label in H.
  rewrite (read_word_intro _ _ _ _ Hl) in H.
  cbn [fmap option_fmap option_map mbind option_bind snd] in H.
  rewrite lstrip_app_space in H by done.
  rewrite lstrip_no_space in H by (by apply decimal_not_space).
  unfold digit_run in H. cbn [while] in H. by rewrite Hc in H.
Qed.

Lemma spec_confidence_Some block ds :
  spec_confidence block = Some ds → confidence_digits block ds.
Proof.
  unfold spec_confidence.
  intros (pre & t & -> & Ht & Hk)%first_suffix_Some.
  unfold read_label in Ht.
  destruct (read_word ci_eq (lit "CONFIDENCE:") t) as [[lbl r]|] eqn:Hw; [|done].
  apply read_word_app in Hw as [-> Hl].
  cbn [fmap option_fmap option_map mbind option_bind snd] in Ht.
  destruct (lstrip_split r) as (ws & Er & Hws).
  pose proof (digit_run_digits _ _ Ht) as [Hne Hds].
  unfold digit_run in Ht.
  pose proof (while_prefix is_decimal (lstrip r)) as Hp.
  pose proof (while_rest is_decimal (lstrip r)) as Hrest.
  destruct (while is_decimal (lstrip r)) as [|d ds'] eqn:E; [done|].
  injection Ht as <-.
  exists pre, lbl, ws, (drop (length (d :: ds')) (lstrip r)).
  split_and!; try done.
  - do 2 f_equal. rewrite Er at 1. f_equal. by rewrite <-Hp at 1.
  - intros pre' lbl' ws' c rest' E' Hl' Hws' Hc.
    destruct (decide (length pre ≤ length pre')%nat) as [|Hlt]; [done|].
    exfalso. specialize (Hk (length pre') ltac:(lia)).
    rewrite E', drop_app_length in Hk. unfold read_label in Hk.
    rewrite (read_word_intro _ _ _ _ Hl') in Hk.
    cbn [fmap option_fmap option_map mbind option_bind snd] in Hk.
    rewrite lstrip_app_space in Hk by done.
    rewrite lstrip_no_space in Hk by (by apply decimal_not_space).
    unfold digit_run in Hk. cbn [while] in Hk. by rewrite Hc in Hk.
Qed.

Lemma confidence_cases block :
  no_confidence_digits block ∨ ∃ ds, confidence_digits block ds.
Proof.
  destruct (spec_confidence block) as [ds|] eqn:H.
  - right. exists ds. by apply spec_confidence_Some.
  - left. by apply spec_confidence_None.
Qed.

(** The conversion raises on the blocks with a construct whose digits
    exceed the limit. *)
Lemma confidence_over_digits max_str_digits block ds :
  confidence_digits block ds →
  confidence_over max_str_digits block
  = match field_value construct_pattern block with
    | Some _ => exceeds_limit max_str_digits (length ds)
    | None => false
    end.
Proof.
  intros H. unfold confidence_over.
  by rewrite field_value_confidence, (spec_confidence_first _ _ H).
Qed.

Lemma confidence_over_no_digits max_str_digits block :
  no_confidence_digits block → confidence_over max_str_digits block = false.
Proof.
  intros H. unfold confidence_over.
  rewrite field_value_confidence, (spec_confidence_non_numeric _ H).
  by destruct (field_value construct_pattern block).
Qed.

(** The confidence that [_parse_block] returns for a block of either
    kind. *)
Lemma _parse_block_no_digits max_str_digits block default_doc_id :
  no_confidence_digits block →
  ∃ o, _parse_block max_str_digits block default_doc_id = Ok o ∧
       ∀ inst, o = Some inst → confidence inst = (-1)%Z.
Proof.
  intros H. eexists. split.
  - apply _parse_block_ok. by apply confidence_over_no_digits.
  - intros inst Hinst.
    apply block_instance_set_doc_id in Hinst as (_ & _ & -> & _).
    by rewrite block_confidence_spec, spec_confidence_non_numeric.
Qed.

Lemma _parse_block_digits max_str_digits block default_doc_id ds :
  confidence_digits block ds →
  exceeds_limit max_str_digits (length ds) = false →
  ∃ o, _parse_block max_str_digits block default_doc_id = Ok o ∧
       ∀ inst, o = Some inst → confidence inst = Z.of_N (decimal_number ds).
Proof.
  intros H Hx. eexists. split.
  - apply _parse_block_ok. rewrite (confidence_over_digits _ _ _ H).
    by destruct (field_value construct_pattern block).
  - intros inst Hinst.
    apply block_instance_set_doc_id in Hinst as (_ & _ & -> & _).
    by rewrite block_confidence_spec, (spec_confidence_first _ _ H).
Qed.

(** Claim C5, as the specification words it: the text that follows the
    CONFIDENCE label decides.  In the block
<<
  CONSTRUCT: X
  CONFIDENCE: high
  CONFIDENCE: 2
>>
    the text that follows the label is not numeric, so that the claimed
    confidence is -1; the program returns 2, since its pattern passes a
    label that no digit follows and goes on to the next one. *)
Lemma parse_block_confidence_counterexample :
  first_suffix (read_label "CONFIDENCE:") sample_two_labels
  = Some (lit " high" ++ [NL] ++ lit "CONFIDENCE: 2") ∧
  claimed_confidence sample_two_labels = (-1)%Z ∧
  ∃ inst,
    _parse_block default_max_str_digits sample_two_labels [] = Ok (Some inst) ∧
    confidence inst = 2%Z ∧
    confidence inst ≠ claimed_confidence sample_two_labels.
Proof.
  split; [by vm_compute|]. split; [by vm_compute|].
  eexists. split; [vm_compute; reflexivity|]. split; [reflexivity|].
  by vm_compute.
Qed.

(** Claim C5, amended.  Every block is of one of two kinds.  If no
    CONFIDENCE label of the block is followed, after optional white space,
    by a decimal digit, [_parse_block] does not raise and the confidence of
    the instance it returns, if any, is -1.  Otherwise a run of decimal
    digits follows, after optional white space, the leftmost CONFIDENCE
    label that is followed so by a digit; when the run has no more digits
    than the interpreter converts, [_parse_block] does not raise and the
    confidence of the instance it returns, if any, is the number that the
    run writes.  (Longer runs are left out here.) *)
Theorem parse_block_confidence (max_str_digits : nat)
    (block default_doc_id : pystr) :
  (no_confidence_digits block ∨ ∃ ds, confidence_digits block ds) ∧
  (no_confidence_digits block →
   ∃ o, _parse_block max_str_digits block default_doc_id = Ok o ∧
        ∀ inst, o = Some inst → confidence inst = (-1)%Z) ∧
  (∀ ds, confidence_digits block ds →
     exceeds_limit max_str_digits (length ds) = false →
     ∃ o, _parse_block max_str_digits block default_doc_id = Ok o ∧
          ∀ inst, o = Some inst →
                  confidence inst = Z.of_N (decimal_number ds)).
Proof.
  split_and!.
  - apply confidence_cases.
  - apply _parse_block_no_digits.
  - intros ds. apply _parse_block_digits.
Qed.

(** ** Checking by computation that a label does not occur in a prefix *)

Lemma mismatch_read eq w p s :
  mismatch eq w p = true → read_word eq w (p ++ s) = None.
Proof.
  revert p. induction w as [|c w IH]; intros p; [done|].
  destruct p as [|d p]; [done|]. simpl.
  destruct (eq c d); simpl; [|done]. intros H. by rewrite (IH _ H).
Qed.

Lemma mismatch_all_suffix eq w p1 p2 :
  mismatch_all eq w (p1 ++ p2) = true → p2 ≠ [] → mismatch eq w p2 = true.
Proof.
  induction p1 as [|c p1 IH]; simpl.
  - destruct p2; [done|]. by intros [? _]%andb_true_iff.
  - intros [_ H]%andb_true_iff. by apply IH.
Qed.

Lemma mismatch_all_first eq w pre s pre' lbl rest :
  mismatch_all eq w pre = true →
  pre ++ s = pre' ++ lbl ++ rest →
  Forall2 (λ c d, eq c d = true) w lbl →
  (length pre ≤ length pre')%nat.
Proof.
  intros Hall E Hl.
  destruct (decide (length pre ≤ length pre')%nat) as [|Hlt]; [done|].
  exfalso.
  assert (Hp : pre = pre' ++ drop (length pre') pre).
  { rewrite <-(take_drop (length pre') pre) at 1. f_equal.
    apply (f_equal (take (length pre'))) in E.
    rewrite take_app_le in E by lia. by rewrite take_app_length in E. }
  set (p2 := drop (length pre') pre) in *.
  assert (p2 ≠ []).
  { intros Hnil. rewrite Hnil, app_nil_r in Hp. rewrite <-Hp in Hlt. lia. }
  rewrite Hp in Hall. apply mismatch_all_suffix in Hall; [|done].
  rewrite Hp, <-app_assoc in E. apply app_inv_head in E.
  pose proof (mismatch_read eq w p2 s Hall) as Hnone.
  rewrite E, (read_word_intro _ _ _ _ Hl) in Hnone. done.
Qed.

Lemma is_label_check w lbl :
  read_word ci_eq (lit w) lbl = Some (lbl, []) → is_label w lbl.
Proof. intros H. by apply read_word_app in H as [_ H]. Qed.

Lemma Forall_check (p : N → bool) l :
  forallb p l = true → Forall (λ c, p c = true) l.
Proof. intros H. apply Forall_forall. intros c Hc.
  rewrite forallb_forall in H. by apply H, list_elem_of_In. Qed.

Lemma no_break_check l :
  forallb (λ c, negb (c =? NL)) l = true → Forall (λ c, (c =? NL) = false) l.
Proof.
  intros H. apply Forall_forall. intros c Hc. rewrite forallb_forall in H.
  apply negb_true_iff, H. by apply list_elem_of_In.
Qed.

Lemma parse_block_confidence_witness :
  ∃ inst,
    _parse_block default_max_str_digits sample_high [] = Ok (Some inst) ∧
    confidence inst = 2%Z.
Proof.
  destruct (parse_block_confidence default_max_str_digits sample_high [])
    as (_ & _ & H).
  destruct (H (lit "2")) as (o & Ho & Hc).
  - exists (lit "CONSTRUCT: X" ++ [NL]), (lit "CONFIDENCE:"), (lit " "),
      (lit " (high)").
    split_and!.
    + reflexivity.
    + apply is_label_check. vm_compute. reflexivity.
    + intros pre' lbl' ws' c rest' E Hl _ _.
      eapply (mismatch_all_first ci_eq (lit "CONFIDENCE:")
                (lit "CONSTRUCT: X" ++ [NL]) (lit "CONFIDENCE: 2 (high)"));
        [vm_compute; reflexivity|exact E|exact Hl].
    + apply Forall_check. vm_compute. reflexivity.
    + discriminate.
    + apply Forall_check. vm_compute. reflexivity.
    + intros c rest' [= <- <-]. reflexivity.
  - reflexivity.
  - destruct o as [inst|].
    + exists inst. split; [exact Ho|]. by apply Hc.
    + exfalso. vm_compute in Ho. discriminate Ho.
Defined.

(** ** A confidence beyond the limit of the interpreter *)

(** The block of [sample_long_confidence] raises. *)
Lemma sample_long_confidence_raises :
  existsb (block_raises default_max_str_digits)
    (split blocks_pattern sample_long_confidence) = true.
Proof. vm_compute. reflexivity. Qed.

Lemma parse_response_long_confidence default_doc_id :
  parse_response default_max_str_digits sample_long_confidence default_doc_id
  = Raise (ValueError exceeds_the_limit).
Proof. by rewrite parse_response_eq, sample_long_confidence_raises. Qed.

(** Claim C3.  [parse_response] raises on a confidence of 4301 digits, with
    the interpreter's limit of 4300 digits for the conversion of a numeral:
    the conversion raises [ValueError], and the handler of that exception
    finds the same digits and converts them again.  This is the only
    exception of [_parse_block] and of [parse_response], and it needs a
    numeral beyond the limit: on every other response [parse_response]
    returns.  Every instance returned comes from a block of the response;
    if that block has no speaker_id field the instance's [speaker_id] is
    empty, if it has no quote field its [quote] is empty, and if it has no
    confidence field, or none whose label is followed by a decimal digit,
    its [confidence] is -1. *)
Theorem parse_response_raises (max_str_digits : nat)
    (response_text default_doc_id : pystr) :
  parse_response default_max_str_digits sample_long_confidence default_doc_id
  = Raise (ValueError exceeds_the_limit) ∧
  (∀ block e,
     _parse_block max_str_digits block default_doc_id = Raise e →
     e = ValueError exceeds_the_limit ∧
     within_limit max_str_digits block = false) ∧
  (∀ e,
     parse_response max_str_digits response_text default_doc_id = Raise e →
     e = ValueError exceeds_the_limit ∧
     within_limit max_str_digits response_text = false) ∧
  (within_limit max_str_digits response_text = true →
   ∃ instances,
     parse_response max_str_digits response_text default_doc_id = Ok instances) ∧
  ∀ instances,
    parse_response max_str_digits response_text default_doc_id = Ok instances →
    ∀ i, i ∈ instances →
      ∃ block i0,
        block ∈ split blocks_pattern response_text ∧
        _parse_block max_str_digits block default_doc_id = Ok (Some i0) ∧
        i = (if truthy default_doc_id then set_doc_id default_doc_id i0 else i0) ∧
        (match_fields block !! "speaker_id"%string = None → speaker_id i = []) ∧
        (match_fields block !! "quote"%string = None → quote i = []) ∧
        (match_fields block !! "confidence"%string = None →
         confidence i = (-1)%Z) ∧
        (no_confidence_digits block → confidence i = (-1)%Z).
Proof.
  split; [apply parse_response_long_confidence|].
  split.
  { intros block e. rewrite _parse_block_eq.
    destruct (confidence_over max_str_digits block) eqn:Ho; [|done].
    intros [= <-]. split; [done|]. by apply confidence_over_beyond. }
  split; [intros e; apply parse_response_Raise|].
  split; [apply parse_response_returns|].
  intros instances H i Hi.
  destruct (parse_response_elem _ _ _ _ _ H Hi)
    as (block & inst & Hb & Hinst & Hp & _ & _ & ->).
  exists block, inst. split; [done|]. split; [done|]. split; [done|].
  destruct (match_fields_lookup block) as (_ & -> & _ & -> & ->).
  apply block_instance_set_doc_id in Hinst as (Hs & Hq & Hc & _ & _).
  assert (E : ∀ j, speaker_id (if truthy default_doc_id
                               then set_doc_id default_doc_id j else j)
                   = speaker_id j
                 ∧ quote (if truthy default_doc_id
                          then set_doc_id default_doc_id j else j) = quote j
                 ∧ confidence (if truthy default_doc_id
                               then set_doc_id default_doc_id j else j)
                   = confidence j)
    by (intros j; by destruct (truthy default_doc_id)).
  destruct (E inst) as (-> & -> & ->). rewrite Hs, Hq, Hc.
  split_and!.
  - by intros ->.
  - by intros ->.
  - unfold block_confidence. by intros ->.
  - intros Hn. rewrite block_confidence_spec.
    by rewrite spec_confidence_non_numeric.
Qed.

Lemma parse_response_raises_witness :
  ∃ i, parse_response default_max_str_digits sample_bare [] = Ok [i] ∧
       speaker_id i = [] ∧ quote i = [] ∧ confidence i = (-1)%Z.
Proof.
  destruct (parse_response_raises default_max_str_digits sample_bare [])
    as (_ & _ & _ & Hr & Hi).
  destruct Hr as (ins & H); [vm_compute; reflexivity|].
  specialize (Hi ins H).
  assert (Hp : parse_response default_max_str_digits sample_bare []
               = Ok [{| doc_id := []; speaker_id := []; construct := lit "X";
                        quote := []; confidence := (-1)%Z |}])
    by (vm_compute; reflexivity).
  rewrite Hp in H. injection H as <-.
  eexists. split; [exact Hp|].
  destruct (Hi _ (list_elem_of_here _ _))
    as (block & i0 & Hb & _ & _ & Hs & Hq & Hc & _).
  assert (Hsplit : split blocks_pattern sample_bare = [sample_bare])
    by (vm_compute; reflexivity).
  rewrite Hsplit in Hb. apply list_elem_of_singleton in Hb as ->.
  split_and!; [apply Hs|apply Hq|apply Hc]; vm_compute; reflexivity.
Defined.

(** Claim C4.  The blocks of [parse_response] are the pieces of the text
    between the line breaks that are followed by a marker [DOC_ID:] or
    [DOC ID:] (in any case): joined by line breaks they give the text back,
    every block after the first begins with a marker, and no block contains
    a line break followed by a marker.  A text without such a line break is
    one block.  The instances returned are those of the blocks, at most one
    per block, in the order of the blocks ([parse_response] returns on
    every response none of whose numerals exceeds the limit of the
    interpreter). *)
Theorem parse_response_blocks (max_str_digits : nat)
    (response_text default_doc_id : pystr) :
  let blocks := split blocks_pattern response_text in
  join [NL] blocks = response_text ∧
  Forall (λ b, begins_marker b = true) (tail blocks) ∧
  Forall (λ b, ∀ pre post, b = pre ++ NL :: post → begins_marker post = false)
         blocks ∧
  ((∀ pre post, response_text = pre ++ NL :: post → begins_marker post = false) →
   blocks = [response_text]) ∧
  (within_limit max_str_digits response_text = true →
   ∃ instances,
     parse_response max_str_digits response_text default_doc_id = Ok instances) ∧
  ∀ instances,
    parse_response max_str_digits response_text default_doc_id = Ok instances →
    ∃ per_block : list (list EncodingInstance),
      Forall2 (λ b out,
                 for_blocks max_str_digits default_doc_id [b] [] = Ok out
                 ∧ (length out ≤ 1)%nat) blocks per_block ∧
      instances = concat per_block.
Proof.
  cbv zeta. split_and!.
  - rewrite split_blocks. apply (join_cut []).
  - rewrite split_blocks. apply cut_tail_markers.
  - rewrite split_blocks. apply cut_no_inner_marker.
    intros pre post E. by destruct pre.
  - rewrite split_blocks. apply (cut_single []).
  - apply parse_response_returns.
  - intros instances H. unfold parse_response in H.
    apply for_blocks_Ok in H as [Hex ->]. cbn [app].
    exists (emitted default_doc_id <$> split blocks_pattern response_text).
    split.
    + apply Forall2_fmap_r, Forall_Forall2_diag, Forall_forall.
      intros b Hb. rewrite for_blocks_emitted.
      * cbn [app]. rewrite bind_singleton. split; [done|].
        unfold emitted. destruct (truthy (strip b)); [|simpl; lia].
        destruct (block_instance b default_doc_id) as [inst|]; [|simpl; lia].
        destruct (truthy (construct inst)); simpl; lia.
      * cbn [existsb]. rewrite orb_false_r.
        destruct (block_raises max_str_digits b) eqn:Hr; [|done].
        assert (existsb (block_raises max_str_digits)
                  (split blocks_pattern response_text) = true); [|congruence].
        apply existsb_exists. exists b. split; [by apply list_elem_of_In|done].
    + generalize (split blocks_pattern response_text). intros l.
      induction l as [|b l IH]; [done|].
      rewrite bind_cons, fmap_cons. cbn [concat]. by rewrite IH.
Qed.

Lemma parse_response_blocks_witness :
  split blocks_pattern sample_bare = [sample_bare].
Proof.
  destruct (parse_response_blocks default_max_str_digits sample_bare [])
    as (_ & _ & _ & H & _).
  apply H. intros pre post E.
  assert (Hlen : (length pre < length sample_bare)%nat).
  { rewrite E, length_app. simpl. lia. }
  assert (post = drop (S (length pre)) sample_bare) as ->.
  { rewrite E, cons_middle, app_assoc.
    rewrite drop_app_length'; [done|]. rewrite length_app. simpl. lia. }
  revert Hlen. generalize (length pre). intros n Hn. vm_compute in Hn.
  do 30 (destruct n as [|n]; [by vm_compute|]). lia.
Defined.

(** ** What the capturing patterns take *)

Lemma lstrip_elem x s : x ∈ lstrip s → x ∈ s.
Proof.
  induction s as [|c s IH]; [done|]. simpl.
  destruct (is_space c); [|done]. intros H. apply elem_of_cons. right. auto.
Qed.

Lemma strip_elem x s : x ∈ strip s → x ∈ s.
Proof.
  unfold strip, rstrip. intros H. apply lstrip_elem.
  apply list_elem_of_In, in_rev, list_elem_of_In, lstrip_elem in H.
  by apply list_elem_of_In, in_rev, list_elem_of_In in H.
Qed.

Lemma lstrip_head s c r : lstrip s = c :: r → is_space c = false.
Proof.
  induction s as [|d s IH]; [done|]. simpl.
  destruct (is_space d) eqn:Hd; [done|]. by intros [= <- <-].
Qed.

Lemma lstrip_nil s : lstrip s = [] → Forall (λ c, is_space c = true) s.
Proof.
  induction s as [|d s IH]; [constructor|]. simpl.
  destruct (is_space d) eqn:Hd; [|done]. intros H. constructor; auto.
Qed.

Lemma upto_no_break w r : NL ∉ upto (stop_before w) r.
Proof.
  induction r as [|c r IH]; cbn [upto].
  - cbn [stop_before]. apply not_elem_of_nil.
  - destruct (stop_before w (c :: r)) eqn:Hs; [apply not_elem_of_nil|].
    apply not_elem_of_cons. split; [|done].
    intros <-. by cbn in Hs.
Qed.

Lemma capture_no_break w s v :
  capture (stop_before w) s = Some v → NL ∉ strip v.
Proof.
  unfold capture. destruct (lstrip s) as [|c r] eqn:Hl.
  - apply lstrip_nil in Hl. destruct (last s) as [c|] eqn:Hc; [|done].
    intros [= <-].
    assert (Hsp : is_space c = true).
    { apply last_Some in Hc as (s' & ->).
      apply Forall_app in Hl as [_ Hl]. by inversion Hl. }
    unfold strip. cbn [lstrip]. rewrite Hsp. apply not_elem_of_nil.
  - intros [= <-] H. apply strip_elem, elem_of_cons in H as [<-|H].
    + by apply lstrip_head in Hl.
    + by apply upto_no_break in H.
Qed.

Lemma spec_field_no_break label w block v :
  spec_field label (stop_before w) block = Some v → NL ∉ v.
Proof.
  unfold spec_field.
  destruct (first_suffix _ block) as [u|] eqn:Hf; [|done].
  intros [= <-]. apply first_suffix_Some in Hf as (pre & t & _ & Ht & _).
  destruct (label t) as [r|]; [|done]. by eapply capture_no_break.
Qed.

(** Claim C6, as the specification words it: the construct value would run
    up to the next recognized label, across line breaks.  On the block
<<
  CONSTRUCT: a
  b
  QUOTE: q1
  q2
  CONFIDENCE: 1
>>
    the claimed value is [a], a line break and [b]; the program finds [a]. *)
Lemma fields_capture_counterexample :
  match_fields sample_two_lines !! "construct"%string = Some (lit "a") ∧
  claimed_field (read_label "CONSTRUCT:") sample_two_lines
  = Some (lit "a" ++ [NL] ++ lit "b") ∧
  match_fields sample_two_lines !! "construct"%string
  ≠ claimed_field (read_label "CONSTRUCT:") sample_two_lines.
Proof. by vm_compute. Qed.

(** Claim C6, amended.  Each of the five fields is matched on its own, in
    any case, at the leftmost occurrence of its label (the two words of
    [DOC ID] and [SPEAKER ID] joined by an underscore, by one white-space
    character or by nothing) after which a value can be captured: an
    occurrence at the very end of the block is passed, and for confidence
    so is every occurrence that is not followed, after optional white
    space, by a decimal digit (in [CONFIDENCE: high], a line break and
    [CONFIDENCE: 2] the value is [2]).  After the label white space is
    skipped, and the first character after it belongs to the value,
    whatever it begins (in [DOC_ID: ], a line break and
    [SPEAKER_ID: PA-001] the doc_id is [SPEAKER_ID: PA-001]).  From there
    the values of doc_id, speaker_id and construct run up to the first line
    break, to the word SPEAKER, CONSTRUCT or QUOTE respectively, or to the
    end of the block, so that they never contain a line break.  The value
    of quote runs up to the first line break that is followed by CONFIDENCE
    or DOC or that ends the block, or to the end of the block, so that it
    may span several lines.  The value of confidence is the run of decimal
    digits.  All values are stripped; when only white space follows the
    label, the value is empty. *)
Theorem fields_capture :
  (∀ block : pystr,
     let values := match_fields block in
     values !! "doc_id"%string = spec_doc_id block ∧
     values !! "speaker_id"%string = spec_speaker_id block ∧
     values !! "construct"%string = spec_construct block ∧
     values !! "quote"%string = spec_quote block ∧
     values !! "confidence"%string = spec_confidence block ∧
     (no_confidence_digits block → values !! "confidence"%string = None) ∧
     (∀ ds, confidence_digits block ds →
            values !! "confidence"%string = Some ds) ∧
     ∀ field v, field ∈ ["doc_id"; "speaker_id"; "construct"]%string →
                values !! field = Some v → NL ∉ v) ∧
  match_fields sample_two_lines !! "quote"%string
  = Some (lit "q1" ++ [NL] ++ lit "q2") ∧
  match_fields sample_label_first !! "doc_id"%string
  = Some (lit "SPEAKER_ID: PA-001") ∧
  match_fields sample_two_labels !! "confidence"%string = Some (lit "2") ∧
  match_fields (lit "CONSTRUCT: ") !! "construct"%string = Some [] ∧
  match_fields (lit "CONSTRUCT:") !! "construct"%string = None.
Proof.
  split; [|by vm_compute].
  intros block. cbv zeta.
  destruct (match_fields_lookup block) as (E1 & E2 & E3 & E4 & E5).
  cbv zeta in *. rewrite E1, E2, E3, E4, E5.
  rewrite field_value_doc_id, field_value_speaker_id, field_value_construct,
    field_value_quote, field_value_confidence.
  split_and!; try done.
  - apply spec_confidence_non_numeric.
  - intros ds. apply spec_confidence_first.
  - intros field v Hf Hv.
    apply elem_of_cons in Hf as [->|Hf];
      [rewrite E1, field_value_doc_id in Hv; by eapply spec_field_no_break|].
    apply elem_of_cons in Hf as [->|Hf];
      [rewrite E2, field_value_speaker_id in Hv; by eapply spec_field_no_break|].
    apply list_elem_of_singleton in Hf as ->.
    rewrite E3, field_value_construct in Hv. by eapply spec_field_no_break.
Qed.

Lemma fields_capture_witness :
  match_fields sample_two_lines !! "construct"%string = Some (lit "a")
  ∧ (NL ∉ lit "a").
Proof.
  assert (H : match_fields sample_two_lines !! "construct"%string = Some (lit "a"))
    by (vm_compute; reflexivity).
  split; [exact H|].
  destruct (proj1 fields_capture sample_two_lines)
    as (_ & _ & _ & _ & _ & _ & _ & Hno).
  apply (Hno "construct"%string (lit "a")); [|exact H].
  apply elem_of_cons. right. apply elem_of_cons. right. apply list_elem_of_here.
Defined.

(** ** Confidence values of any size *)

Lemma decimal_value_ascii n : n < 10 → decimal_value (48 + n) = Some n.
Proof.
  intros Hn. unfold decimal_value, decimal_zeros. cbn [find].
  assert ((48 <=? 48 + n) && (48 + n <? 48 + 10) = true) as ->.
  { apply andb_true_iff. split; [apply N.leb_le|apply N.ltb_lt]; lia. }
  f_equal. lia.
Qed.

Lemma decimal_number_snoc ds c :
  decimal_number (ds ++ [c])
  = 10 * decimal_number ds + default 0 (decimal_value c).
Proof. unfold decimal_number. by rewrite foldl_snoc. Qed.

(** Every natural number is written by a run of ASCII digits. *)
Lemma digits_exist n :
  ∃ ds, ds ≠ [] ∧ Forall (λ c, is_decimal c = true) ds ∧ decimal_number ds = n.
Proof.
  induction n as [n IH] using (well_founded_induction N.lt_wf_0).
  destruct (decide (n < 10)) as [Hlt|Hge].
  - exists [48 + n]. split_and!; [done| |].
    + repeat constructor. apply is_decimal_value. exists n.
      by apply decimal_value_ascii.
    + unfold decimal_number. cbn [foldl]. rewrite decimal_value_ascii by done.
      simpl. lia.
  - destruct (IH (n / 10)) as (ds & Hne & Hds & Hv).
    { apply N.div_lt; lia. }
    exists (ds ++ [48 + n mod 10]).
    assert (Hm : n mod 10 < 10) by (apply N.mod_lt; lia).
    split_and!.
    + by destruct ds.
    + apply Forall_app. split; [done|]. repeat constructor.
      apply is_decimal_value. exists (n mod 10). by apply decimal_value_ascii.
    + rewrite decimal_number_snoc, Hv, decimal_value_ascii by done.
      simpl. rewrite (N.div_mod n 10) at 3 by lia. lia.
Qed.

Lemma strip_nil s : strip s = [] → Forall (λ c, is_space c = true) s.
Proof.
  unfold strip, rstrip. intros H.
  destruct (lstrip_split s) as (ws & E & Hws). rewrite E.
  apply Forall_app. split; [done|].
  apply (f_equal (@rev N)) in H. rewrite rev_involutive in H. simpl in H.
  apply lstrip_nil in H. apply Forall_forall. intros x Hx.
  rewrite Forall_forall in H. apply H.
  apply list_elem_of_In. apply -> in_rev. by apply list_elem_of_In.
Qed.

Lemma begins_i_mismatch w p s :
  mismatch ci_eq (lit w) p = true → begins_i w (p ++ s) = false.
Proof. intros H. unfold begins_i. by rewrite (mismatch_read _ _ _ _ H). Qed.

Lemma decimal_not_break c : is_decimal c = true → (c =? NL) = false.
Proof.
  intros H. destruct (c =? NL) eqn:Hc; [|done].
  apply N.eqb_eq in Hc. subst. by vm_compute in H.
Qed.

(** A response of one block that names a construct and gives the digits
    [ds] as its confidence. *)
Lemma split_digits_response ds :
  Forall (λ c, is_decimal c = true) ds →
  split blocks_pattern (lit "CONSTRUCT:X" ++ [NL] ++ lit "CONFIDENCE:" ++ ds)
  = [lit "CONSTRUCT:X" ++ [NL] ++ lit "CONFIDENCE:" ++ ds].
Proof.
  intros Hds. rewrite split_blocks.
  rewrite (cut_app_no_break [] (lit "CONSTRUCT:X"))
    by (apply no_break_check; vm_compute; reflexivity).
  cbn [app cut_at_markers]. rewrite N.eqb_refl. cbn [andb].
  assert (begins_marker (lit "CONFIDENCE:" ++ ds) = false) as ->.
  { unfold begins_marker.
    rewrite !begins_i_mismatch by (vm_compute; reflexivity). done. }
  rewrite <-(app_nil_r (lit "CONFIDENCE:" ++ ds)) at 1.
  rewrite cut_app_no_break.
  - cbn [cut_at_markers]. by rewrite <-app_assoc.
  - apply Forall_app. split; [apply no_break_check; vm_compute; reflexivity|].
    eapply Forall_impl; [exact Hds|]. apply decimal_not_break.
Qed.

Lemma digits_response_confidence ds :
  ds ≠ [] → Forall (λ c, is_decimal c = true) ds →
  spec_confidence (lit "CONSTRUCT:X" ++ [NL] ++ lit "CONFIDENCE:" ++ ds)
  = Some ds.
Proof.
  intros Hne Hds. apply spec_confidence_first.
  exists (lit "CONSTRUCT:X" ++ [NL]), (lit "CONFIDENCE:"), [], [].
  split_and!; try done.
  - by rewrite app_nil_r, <-!app_assoc.
  - apply is_label_check. vm_compute. reflexivity.
  - intros pre' lbl' ws' c rest' E Hl _ _.
    eapply (mismatch_all_first ci_eq (lit "CONFIDENCE:")
              (lit "CONSTRUCT:X" ++ [NL]) (lit "CONFIDENCE:" ++ ds));
      [vm_compute; reflexivity| |exact Hl].
    rewrite <-E. by rewrite <-!app_assoc.
Qed.

Lemma digits_response_instance ds :
  ds ≠ [] → Forall (λ c, is_decimal c = true) ds →
  ∃ inst,
    block_instance (lit "CONSTRUCT:X" ++ [NL] ++ lit "CONFIDENCE:" ++ ds) []
    = Some inst ∧
    construct inst = lit "X" ∧
    confidence inst = Z.of_N (decimal_number ds).
Proof.
  intros Hne Hds.
  set (block := lit "CONSTRUCT:X" ++ [NL] ++ lit "CONFIDENCE:" ++ ds).
  assert (Hc : field_value construct_pattern block = Some (lit "X")).
  { rewrite field_value_construct. unfold spec_construct, spec_field, block.
    change (lit "CONSTRUCT:X" ++ [NL] ++ lit "CONFIDENCE:" ++ ds)
      with (lit "CONSTRUCT:" ++ 88 :: NL :: lit "CONFIDENCE:" ++ ds).
    rewrite (first_suffix_here _ _ (lit "X")); [done|].
    unfold read_label.
    rewrite (read_word_intro ci_eq (lit "CONSTRUCT:") (lit "CONSTRUCT:"))
      by (apply is_label_check; vm_compute; reflexivity).
    reflexivity. }
  assert (Hv : spec_confidence block = Some ds)
    by (by apply digits_response_confidence).
  unfold block_instance. rewrite Hc. eexists. split; [done|].
  cbn [construct confidence]. split; [done|].
  by rewrite block_confidence_spec, Hv.
Qed.

(** Claim C10.  The confidence is not restricted to 0, 1 and 2: whenever
    [parse_response] returns, the confidence of every instance is -1 or a
    non-negative number, namely -1 when no CONFIDENCE label of its block is
    followed by a digit, and else the number written by the run of digits
    that follows the leftmost label so followed, whatever its size; and
    every natural number is written by such a run.  In a block with a
    construct field, a run with no more digits than the interpreter
    converts is returned as its number, and a longer one makes
    [_parse_block] raise, so that [parse_response] raises on a confidence
    of 4301 digits, with the interpreter's limit of 4300 digits, instead of
    returning the number. *)
Theorem confidence_unbounded (max_str_digits : nat) :
  (∀ default_doc_id,
     parse_response default_max_str_digits sample_long_confidence
       default_doc_id
     = Raise (ValueError exceeds_the_limit)) ∧
  (∀ response_text default_doc_id instances,
     parse_response max_str_digits response_text default_doc_id = Ok instances →
     ∀ i, i ∈ instances →
       (confidence i = (-1)%Z ∨ (0 ≤ confidence i)%Z) ∧
       ∃ block,
         block ∈ split blocks_pattern response_text ∧
         ((no_confidence_digits block ∧ confidence i = (-1)%Z) ∨
          ∃ ds, confidence_digits block ds ∧
                confidence i = Z.of_N (decimal_number ds))) ∧
  (∀ block default_doc_id ds,
     confidence_digits block ds →
     (exceeds_limit max_str_digits (length ds) = false →
      ∃ o, _parse_block max_str_digits block default_doc_id = Ok o ∧
           ∀ inst, o = Some inst →
                   confidence inst = Z.of_N (decimal_number ds)) ∧
     (exceeds_limit max_str_digits (length ds) = true →
      search construct_pattern block ≠ None →
      _parse_block max_str_digits block default_doc_id
      = Raise (ValueError exceeds_the_limit))) ∧
  (∀ ds, ds ≠ [] → Forall (λ c, is_decimal c = true) ds →
     exceeds_limit max_str_digits (length ds) = false →
     ∃ i, parse_response max_str_digits
            (lit "CONSTRUCT:X" ++ [NL] ++ lit "CONFIDENCE:" ++ ds) []
          = Ok [i]
          ∧ confidence i = Z.of_N (decimal_number ds)) ∧
  (∀ n : N, ∃ ds, ds ≠ [] ∧ Forall (λ c, is_decimal c = true) ds
                  ∧ decimal_number ds = n).
Proof.
  split_and!.
  - apply parse_response_long_confidence.
  - intros text d instances H i Hi.
    destruct (parse_response_elem _ _ _ _ _ H Hi)
      as (block & inst & Hb & Hinst & _ & _ & _ & ->).
    apply block_instance_set_doc_id in Hinst as (_ & _ & Hc & _).
    assert (confidence (if truthy d then set_doc_id d inst else inst)
            = confidence inst) as -> by (by destruct (truthy d)).
    rewrite Hc, block_confidence_spec.
    destruct (spec_confidence block) as [ds|] eqn:Hs.
    + split; [right; lia|]. exists block. split; [done|]. right.
      exists ds. split; [by apply spec_confidence_Some|done].
    + split; [by left|]. exists block. split; [done|]. left.
      split; [by apply spec_confidence_None|done].
  - intros block d ds Hd. split; [by apply _parse_block_digits|].
    intros Hx Hc. rewrite _parse_block_eq, (confidence_over_digits _ _ _ Hd).
    unfold field_value. destruct (search construct_pattern block); [|done].
    cbn [fmap option_fmap option_map]. by rewrite Hx.
  - intros ds Hne Hds Hx.
    destruct (digits_response_instance ds Hne Hds) as (inst & Hi & Hc & Hv).
    exists inst. split; [|done].
    rewrite parse_response_eq, split_digits_response by done.
    cbn [existsb]. rewrite orb_false_r.
    assert (block_raises max_str_digits
              (lit "CONSTRUCT:X" ++ [NL] ++ lit "CONFIDENCE:" ++ ds) = false)
      as ->.
    { unfold block_raises, confidence_over.
      rewrite field_value_confidence, (digits_response_confidence ds Hne Hds).
      destruct (field_value construct_pattern _);
        rewrite ?Hx; by rewrite andb_false_r. }
    rewrite bind_singleton. unfold emitted. rewrite Hi, Hc.
    destruct (strip _) eqn:Hs; [|done].
    apply strip_nil in Hs. by inversion Hs.
  - apply digits_exist.
Qed.

Lemma confidence_unbounded_witness :
  ∃ i, parse_response default_max_str_digits
         (lit "CONSTRUCT:X" ++ [NL] ++ lit "CONFIDENCE:" ++ lit "99") []
       = Ok [i] ∧ confidence i = 99%Z.
Proof.
  destruct (confidence_unbounded default_max_str_digits) as (_ & _ & _ & H & _).
  apply (H (lit "99")).
  - discriminate.
  - apply Forall_check. vm_compute. reflexivity.
  - reflexivity.
Defined.

(** ** The scenarios of the specification *)

Example scenario_one_block :
  parse_response default_max_str_digits sample_one (lit "d1")
  = Ok [{| doc_id := lit "d1"; speaker_id := lit "PA-001"; construct := lit "X";
           quote := lit "hello world"; confidence := 2 |}].
Proof. vm_compute. reflexivity. Qed.

Example scenario_two_blocks :
  parse_response default_max_str_digits
    (lit "DOC_ID: a" ++ [NL] ++ lit "CONSTRUCT: X" ++ [NL]
     ++ lit "doc id: b" ++ [NL] ++ lit "CONSTRUCT: Y" ++ [NL] ++ lit "CONFIDENCE: 1")
    []
  = Ok [{| doc_id := lit "a"; speaker_id := []; construct := lit "X";
           quote := []; confidence := (-1) |};
        {| doc_id := lit "b"; speaker_id := []; construct := lit "Y";
           quote := []; confidence := 1 |}].
Proof. vm_compute. reflexivity. Qed.

Example scenario_no_construct :
  parse_response default_max_str_digits
    (lit "DOC_ID: a" ++ [NL] ++ lit "QUOTE: q") (lit "d1") = Ok [].
Proof. vm_compute. reflexivity. Qed.

End ParserClaims.

(** * Speaker detection *)

Module SpeakerFacts.
Import Py Re ParserSpec DocumentLoader DocumentSpec PyFacts ReFacts PatternFacts.

(** ** The order of strings *)

Lemma str_leb_refl a : str_leb a a = true.
Proof.
  induction a as [|x a IH]; [done|]. simpl.
  by rewrite N.ltb_irrefl, N.eqb_refl, IH.
Qed.

Lemma str_leb_cons x a y b :
  str_leb (x :: a) (y :: b) = true ↔ x < y ∨ (x = y ∧ str_leb a b = true).
Proof.
  simpl. rewrite orb_true_iff, andb_true_iff, N.ltb_lt, N.eqb_eq. tauto.
Qed.

#[global] Instance str_le_total : Total str_le.
Proof.
  intros a. unfold str_le. induction a as [|x a IH]; intros b; [by left|].
  destruct b as [|y b]; [by right|].
  rewrite !str_leb_cons.
  destruct (N.lt_trichotomy x y) as [?|[->|?]]; [tauto| |tauto].
  destruct (IH b); tauto.
Qed.

#[global] Instance str_le_trans : Transitive str_le.
Proof.
  intros a. unfold str_le. induction a as [|x a IH]; intros b c; [done|].
  destruct b as [|y b]; [done|]. destruct c as [|z c]; [done|].
  rewrite !str_leb_cons.
  intros [?|[-> Hab]] [?|[-> Hbc]]; [left; lia|by left|by left|].
  right. split; [done|]. by eapply IH.
Qed.

#[global] Instance str_le_antisymm : AntiSymm (=) str_le.
Proof.
  intros a. unfold str_le. induction a as [|x a IH]; intros b.
  - by destruct b.
  - destruct b as [|y b]; [done|]. rewrite !str_leb_cons.
    intros [?|[-> Hab]] [?|[? Hba]]; try lia. f_equal. by apply IH.
Qed.

(** [sorted] lists the set in ascending order, every element once. *)
Lemma sorted_spec (s : gset pystr) :
  StronglySorted str_le (sorted s) ∧ NoDup (sorted s)
  ∧ ∀ x, x ∈ sorted s ↔ x ∈ s.
Proof.
  unfold sorted. split_and!.
  - apply StronglySorted_merge_sort; apply _.
  - rewrite merge_sort_Permutation. apply NoDup_elements.
  - intros x. rewrite merge_sort_Permutation. apply elem_of_elements.
Qed.

(** The sorted list does not depend on the order in which the set is
    enumerated. *)
Lemma sorted_unique (l1 l2 : list pystr) :
  StronglySorted str_le l1 → StronglySorted str_le l2 →
  NoDup l1 → NoDup l2 → (∀ x, x ∈ l1 ↔ x ∈ l2) → l1 = l2.
Proof.
  intros S1 S2 N1 N2 H.
  apply (StronglySorted_unique str_le); [done|done|].
  by apply NoDup_Permutation.
Qed.

(** ** The header *)

Lemma space_or_not_break c : is_space c = false → (c =? NL) = false.
Proof.
  intros H. destruct (c =? NL) eqn:Hc; [|done].
  apply N.eqb_eq in Hc. by subst.
Qed.

Lemma head_line_tail pv s g :
  group_of (head (run (Seq (chr NL) (Seq (Grp (plus not_newline)) Eps))
                      (Pos pv s, g)))
  = match s with
    | c :: r =>
        if c =? NL then
          match while not_newline r with [] => None | t => Some t end
        else None
    | [] => None
    end.
Proof.
  cbn [run]. rewrite run_chr_NL. cbn [fst snd rest].
  destruct s as [|c r]; [done|]. destruct (c =? NL); [|done].
  rewrite bind_singleton.
  change (run (Grp (plus not_newline)) (Pos (Some c) r, g) ≫= run Eps)
    with (run (Seq (Grp (plus not_newline)) Eps) (Pos (Some c) r, g)).
  apply head_group_plus.
Qed.

Lemma group_of_None y : group_of y = None → y = None.
Proof. by destruct y. Qed.

Lemma head_header_tail pv r g :
  group_of (head (run (Seq (star is_space)
                         (Seq (chr NL) (Seq (Grp (plus not_newline)) Eps)))
                      (Pos pv r, g)))
  = while not_newline <$> header_start r.
Proof.
  set (K := Seq (chr NL) (Seq (Grp (plus not_newline)) Eps)).
  change (run (Seq (star is_space) K) (Pos pv r, g))
    with (((λ q, (q, g)) <$> rep true is_space 0 None pv r) ≫= run K).
  rewrite list_fmap_bind.
  revert pv. induction r as [|c r IH]; intros pv.
  - done.
  - rewrite rep_star_eq. cbn [header_start]. destruct (is_space c) eqn:Hc.
    + rewrite bind_app, head_app, bind_singleton. specialize (IH (Some c)).
      destruct (header_start r) as [l|] eqn:Hh.
      * destruct (head (rep true is_space 0 None (Some c) r
                          ≫= run K ∘ λ q, (q, g))) as [y|];
          [exact IH|by cbv in IH].
      * apply group_of_None in IH. rewrite IH. cbn [compose].
        unfold K. rewrite head_line_tail.
        destruct (c =? NL); [|by destruct r].
        destruct r as [|d r]; [done|]. cbn [andb while].
        destruct (not_newline d) eqn:Hd; [|done].
        cbn [fmap option_fmap option_map while]. by rewrite Hd.
    + rewrite bind_singleton. cbn [compose]. unfold K. rewrite head_line_tail.
      by rewrite (space_or_not_break c Hc).
Qed.

Lemma match_here_header pv s :
  group_of (match_here header_pattern pv s)
  = read_word N.eqb (lit "SPEAKERS") s
    ≫= λ tr, while not_newline <$> header_start tr.2.
Proof.
  unfold match_here.
  change header_pattern
    with (Seq (word "SPEAKERS")
            (Seq (star is_space)
               (Seq (chr NL) (Seq (Grp (plus not_newline)) Eps)))).
  rewrite run_seq_word. cbn [fst snd rest prev].
  destruct (read_word N.eqb (lit "SPEAKERS") s) as [[t r]|]; [|done].
  cbn [mbind option_bind snd]. apply head_header_tail.
Qed.

(** The header pattern finds the header line. *)
Lemma search_header text :
  group1 <$> search header_pattern text = header_line text.
Proof. apply (search_first_suffix _ _ match_here_header). Qed.

(** ** The set of speakers *)

Lemma header_speakers_spec (content : pystr) (speakers : gset pystr) :
  header_speakers content speakers
  = speakers ∪ list_to_set (match header_line content with
                            | Some line => header_tokens line
                            | None => []
                            end).
Proof.
  unfold header_speakers. rewrite <-search_header.
  destruct (search header_pattern content) as [m|];
    cbn [fmap option_fmap option_map]; [|set_solver].
  unfold header_tokens. generalize (split separator_pattern (group1 m)).
  intros l. revert speakers. induction l as [|t l IH]; intros speakers.
  - set_solver.
  - cbn [foldl]. rewrite IH. rewrite fmap_cons, filter_cons. unfold is_token.
    destruct (truthy (strip t) && _) eqn:Hc.
    + rewrite decide_True by done. set_solver.
    + rewrite decide_False by done. set_solver.
Qed.

Lemma inline_speakers_spec (content : pystr) (speakers : gset pystr) :
  inline_speakers content speakers
  = speakers ∪ list_to_set (SPEAKER_PATTERNS ≫= λ p, finditer p content).
Proof.
  unfold inline_speakers. generalize SPEAKER_PATTERNS. intros ps.
  revert speakers. induction ps as [|p ps IH]; intros speakers.
  - set_solver.
  - cbn [foldl]. rewrite IH, bind_cons, list_to_set_app_L.
    assert (E : ∀ (l : list pystr) (s : gset pystr),
              foldl (λ (s : gset pystr) g, s ∪ {[g]}) s l = s ∪ list_to_set l).
    { intros l. induction l as [|g l IHl]; intros s; [set_solver|].
      cbn [foldl]. rewrite IHl. set_solver. }
    rewrite E. set_solver.
Qed.

End SpeakerFacts.

Module SpeakerClaims.
Import Py Re ParserSpec DocumentLoader DocumentSpec PyFacts ReFacts PatternFacts.
Import SpeakerFacts.

(** Claim C9, as the specification words it: the header is a line that is
    literally SPEAKERS, and its tokens are those of the line that follows.
    In the text
<<
  Two SPEAKERS
  Alice, Bob
>>
    no line is literally SPEAKERS, and in the text
<<
  SPEAKERS

  Alice, Bob
>>
    the line that follows the header is empty; in both the claimed result
    is empty, and the program returns Alice and Bob. *)
Lemma extract_speakers_counterexample :
  _extract_speakers sample_header = [lit "Alice"; lit "Bob"] ∧
  claimed_speakers sample_header = [] ∧
  _extract_speakers sample_blank_line = [lit "Alice"; lit "Bob"] ∧
  claimed_speakers sample_blank_line = [] ∧
  _extract_speakers sample_header ≠ claimed_speakers sample_header.
Proof. by vm_compute. Qed.

(** Claim C9, amended.  Speaker detection returns, in ascending
    lexicographic order and each once, the union of (a) the tokens matching
    [^[A-Za-z0-9_-]+$] on the header line, and (b) the matches of the three
    inline patterns over the whole text.  The header line is found at the
    first occurrence of the word SPEAKERS, anywhere in the text, after
    which white space runs up to a line break that is followed by a
    non-empty line; the line taken starts after the last such line break of
    that white space, so SPEAKERS need not be a line of its own and blank
    lines after it are passed. *)
Theorem _extract_speakers_spec (text : pystr) :
  let result := _extract_speakers text in
  StronglySorted str_le result ∧ NoDup result ∧
  ∀ x, x ∈ result ↔
       (∃ line, header_line text = Some line ∧ x ∈ header_tokens line) ∨
       (∃ pattern, pattern ∈ SPEAKER_PATTERNS ∧ x ∈ finditer pattern text).
Proof.
  cbv zeta. unfold _extract_speakers.
  destruct (sorted_spec (inline_speakers text (header_speakers text ∅)))
    as (HS & HN & Hin).
  split_and!; [done|done|]. intros x. rewrite Hin.
  rewrite inline_speakers_spec, header_speakers_spec.
  rewrite !elem_of_union, !elem_of_list_to_set, list_elem_of_bind.
  split.
  - intros [[H|H]|H].
    + by apply elem_of_empty in H.
    + left. destruct (header_line text) as [line|]; [eauto|].
      by apply elem_of_nil in H.
    + right. destruct H as (p & ? & ?). eauto.
  - intros [(line & Hl & H)|(p & ? & ?)].
    + left. right. by rewrite Hl.
    + right. eauto.
Qed.

Lemma _extract_speakers_spec_witness :
  lit "Alice" ∈ _extract_speakers sample_header.
Proof.
  apply (_extract_speakers_spec sample_header). left.
  exists (lit "Alice, Bob"). split; [vm_compute; reflexivity|].
  assert (E : header_tokens (lit "Alice, Bob") = [lit "Alice"; lit "Bob"])
    by (vm_compute; reflexivity).
  rewrite E. apply list_elem_of_here.
Defined.

Example scenario_header_and_inline :
  _extract_speakers
    (lit "SPEAKERS" ++ [NL] ++ lit "Alice, Bob" ++ [NL; NL]
     ++ lit "Alice" ++ [NL] ++ lit "Hello" ++ [NL])
  = [lit "Alice"; lit "Bob"].
Proof. vm_compute. reflexivity. Qed.

Example scenario_transcript :
  _extract_speakers sample_transcript
  = [lit "Alice"; lit "Bob"; lit "Interviewer"; lit "PA-001"; lit "TH-001"].
Proof. vm_compute. reflexivity. Qed.

End SpeakerClaims.

(** * The document loader *)

Module LoaderClaims.
Import Py Re ParserSpec DocumentLoader DocumentSpec PyFacts ReFacts PatternFacts.
Import SpeakerFacts.

Lemma text_of_present (row : gmap pystr (option pystr)) (text_col : pystr) :
  row !! text_col ≠ Some None → text_of row text_col = Ok (row_text text_col row).
Proof.
  unfold text_of, row_text. destruct (row !! text_col) as [[t|]|]; done.
Qed.

(** The loop over the rows renders every row and collects the speakers. *)
Lemma for_rows_render (sc tc : pystr)
    (reader : list (gmap pystr (option pystr))) (lines : list pystr)
    (speakers : gset pystr) :
  sc ≠ [] →
  (∀ row, row ∈ reader → row !! tc ≠ Some None) →
  for_rows (Some sc) tc reader lines speakers
  = Ok (lines ++ (render sc tc <$> reader),
        speakers ∪ list_to_set (omap (row_speaker sc) reader)).
Proof.
  intros Hsc. revert lines speakers.
  induction reader as [|row reader IH]; intros lines speakers Hrows.
  - simpl. rewrite app_nil_r. f_equal. f_equal. set_solver.
  - cbn [for_rows]. destruct sc as [|c0 sc0] eqn:Esc; [done|]. cbn [truthy].
    rewrite <-Esc in *.
    rewrite (text_of_present row tc) by (apply Hrows; apply list_elem_of_here).
    cbn [mbind result_bind].
    assert (Hrest : ∀ row', row' ∈ reader → row' !! tc ≠ Some None).
    { intros row' H. apply Hrows. by apply elem_of_cons; right. }
    cbn [fmap list_fmap omap list_omap]. unfold render at 1.
    destruct (row !! sc) as [[v|]|] eqn:Hv; cbn [mjoin option_join].
    + destruct (truthy v) eqn:Htv.
      * assert (row_speaker sc row = Some (strip v)) as ->
          by (unfold row_speaker; by rewrite Hv, Htv).
        rewrite IH by done. rewrite <-app_assoc. f_equal. f_equal.
        rewrite list_to_set_cons. set_solver.
      * assert (row_speaker sc row = None) as ->
          by (unfold row_speaker; by rewrite Hv, Htv).
        rewrite IH by done. by rewrite <-app_assoc.
    + assert (row_speaker sc row = None) as ->
        by (unfold row_speaker; by rewrite Hv).
      rewrite IH by done. by rewrite <-app_assoc.
    + assert (row_speaker sc row = None) as ->
        by (unfold row_speaker; by rewrite Hv).
      rewrite IH by done. by rewrite <-app_assoc.
Qed.

Lemma elem_of_omap_speaker (sc : pystr)
    (reader : list (gmap pystr (option pystr))) (x : pystr) :
  x ∈ omap (row_speaker sc) reader
  ↔ ∃ row, row ∈ reader ∧ row_speaker sc row = Some x.
Proof. apply list_elem_of_omap. Qed.

(** [sorted] is one way of enumerating a set. *)
Lemma sorted_enumerates : enumerates sorted.
Proof. intros s. destruct (sorted_spec s) as (_ & ? & ?). by split. Qed.

(** Claim C7, as the specification words it: the speakers of the document
    would be the speaker values in the order in which the rows give them.
    The rows of [sample_csv] name TH-001, then PA-001; an interpreter that
    enumerates its sets in ascending order returns PA-001, then TH-001. *)
Lemma load_csv_counterexample :
  enumerates sorted ∧
  encounter_order (lit "speaker") sample_rows = [lit "TH-001"; lit "PA-001"] ∧
  (speakers <$> match _load_csv ascii_lower sorted sample_csv_path (Decoded sample_csv) with
                | Ok doc => Some doc
                | Raise _ => None
                end)
  = Some [lit "PA-001"; lit "TH-001"].
Proof. split; [apply sorted_enumerates|]. by vm_compute. Qed.

Section Interpreter.
Variable str_lower : pystr → pystr.
Variable list_of_set : gset pystr → list pystr.
Hypothesis list_of_set_enumerates : enumerates list_of_set.

(** Claim C7, amended.  When a delimited file passes the test on its first
    2048 characters, has field names, a speaker column and a text column
    are detected, and no row lacks its text field, the file loads; every
    row with a non-empty speaker value is rendered as speaker, colon, blank
    and text (both stripped), every other row as its text, and the lines
    are joined by line breaks.  If some row has a speaker, the speakers of
    the document are the distinct speakers of the rows, each once, in the
    order in which the interpreter enumerates the set, and no heuristic
    detection takes place; if no row has one, they are the speakers that
    the heuristic detection finds in the content. *)
Theorem load_csv_speaker_rows (filepath : Path) (f : File)
    (fns : list pystr) (sc tc : pystr) :
  existsb (λ term, contains term (str_lower (take 2048 (text f)))) gate_terms
    = true →
  fieldnames f = Some fns →
  detect_columns (fieldnames_lower str_lower fns) = (Some sc, Some tc) →
  sc ≠ [] →
  (∀ row, row ∈ rows f → row !! tc ≠ Some None) →
  ∃ doc,
    _load_csv str_lower list_of_set filepath (Decoded f) = Ok doc ∧
    content doc = join [NL] (render sc tc <$> rows f) ∧
    NoDup (speakers doc) ∧
    ((∃ row, row ∈ rows f ∧ is_Some (row_speaker sc row)) →
     ∀ x, x ∈ speakers doc ↔ ∃ row, row ∈ rows f ∧ row_speaker sc row = Some x) ∧
    ((∀ row, row ∈ rows f → row_speaker sc row = None) →
     ∀ x, x ∈ speakers doc ↔ x ∈ _extract_speakers (content doc)).
Proof.
  intros Hgate Hfns Hcols Hsc Hrows. unfold _load_csv.
  cbn [mbind result_bind mret result_ret].
  rewrite Hgate, Hfns, Hcols. cbn [mbind result_bind mret result_ret].
  rewrite (for_rows_render sc tc (rows f) [] ∅ Hsc Hrows).
  cbn [mbind result_bind mret result_ret app].
  eexists. split; [reflexivity|]. cbn [content speakers].
  split; [done|]. split; [apply list_of_set_enumerates|].
  set (S := (∅ ∪ list_to_set (omap (row_speaker sc) (rows f)) : gset pystr)).
  assert (HS : ∀ x, x ∈ S ↔ ∃ row, row ∈ rows f ∧ row_speaker sc row = Some x).
  { intros x. unfold S. rewrite elem_of_union, elem_of_list_to_set,
      elem_of_omap_speaker. split; [|by right].
    intros [H|H]; [by apply elem_of_empty in H|done]. }
  split.
  - intros (row & Hrow & [s Hs]) x.
    rewrite bool_decide_eq_false_2.
    + destruct (list_of_set_enumerates S) as [_ ->]. apply HS.
    + intros HE. assert (Hin : s ∈ S) by (apply HS; eauto).
      rewrite HE in Hin. by apply elem_of_empty in Hin.
  - intros Hnone x. rewrite bool_decide_eq_true_2.
    + destruct (list_of_set_enumerates
                  (list_to_set (_extract_speakers
                                  (join [NL] (render sc tc <$> rows f)))))
        as [_ ->].
      apply elem_of_list_to_set.
    + apply set_eq. intros y. rewrite HS. split.
      * intros (row & Hrow & Hy). by rewrite (Hnone row Hrow) in Hy.
      * by intros ?%elem_of_empty.
Qed.

(** A path that does not exist. *)
Lemma load_missing (path : Path) :
  load str_lower list_of_set path None
  = Raise (FileNotFoundError (lit "Path not found: " ++ path_str path)).
Proof. done. Qed.

(** A file whose extension is neither [.txt] nor [.csv]: the error names
    the extension. *)
Lemma load_unsupported (path : Path) (r : reading) :
  str_lower (suffix path) ≠ lit ".txt" →
  str_lower (suffix path) ≠ lit ".csv" →
  load str_lower list_of_set path (Some (RegularFile r))
  = Raise (ValueError (lit "Unsupported document format: "
                       ++ str_lower (suffix path)
                       ++ lit ". Supported formats: .txt, .csv")).
Proof.
  intros H1 H2. unfold load, _load_file.
  by rewrite !bool_decide_eq_false_2.
Qed.

(** Claim C8.  An empty delimited file does not fail: the test on the first
    characters of the file fails on the empty text, so that the reader is
    never asked for its field names, and a document with empty content is
    returned. *)
Theorem load_empty_csv (path : Path) :
  str_lower (suffix path) = lit ".csv" →
  str_lower [] = [] →
  load str_lower list_of_set path (Some (RegularFile (Decoded empty_csv)))
  = Ok [{| doc_id := stem path; content := []; speakers := [];
           source_path := path_str path |}].
Proof.
  intros Hext Hlow. unfold load, _load_file, _load_csv. rewrite Hext.
  rewrite bool_decide_eq_false_2 by done.
  rewrite bool_decide_eq_true_2 by done.
  cbn [mbind result_bind mret result_ret].
  cbn [text empty_csv take]. rewrite Hlow.
  change (existsb (λ term, contains term []) gate_terms) with false.
  cbn [mbind result_bind mret result_ret app drop].
  rewrite bool_decide_eq_true_2 by done.
  change (_extract_speakers []) with (@nil pystr).
  cbn [list_to_set foldr].
  assert (list_of_set ∅ = []) as ->; [|done].
  destruct (list_of_set_enumerates ∅) as [_ H].
  apply elem_of_nil_inv. intros x Hx. apply H in Hx. by apply elem_of_empty in Hx.
Qed.

End Interpreter.

Lemma sample_row_speaker speaker text :
  row_speaker (lit "speaker") (sample_row speaker text)
  = if truthy (lit speaker) then Some (strip (lit speaker)) else None.
Proof.
  unfold row_speaker, sample_row. by rewrite lookup_insert_eq.
Qed.

Lemma sample_row_text speaker text :
  sample_row speaker text !! lit "text" = Some (Some (lit text)).
Proof.
  unfold sample_row. rewrite lookup_insert_ne by done.
  by rewrite lookup_singleton_eq.
Qed.

Lemma load_csv_speaker_rows_witness :
  ∃ doc,
    _load_csv ascii_lower sorted sample_csv_path (Decoded sample_csv) = Ok doc ∧
    content doc = lit "TH-001: How are you?" ++ [NL]
                  ++ lit "PA-001: I feel anxious." ++ [NL]
                  ++ lit "TH-001: Tell me more." ∧
    ∀ x, x ∈ speakers doc ↔ x = lit "TH-001" ∨ x = lit "PA-001".
Proof.
  assert (H1 : row_speaker (lit "speaker") (sample_row "TH-001" "How are you?")
               = Some (lit "TH-001")) by (rewrite sample_row_speaker; reflexivity).
  assert (H2 : row_speaker (lit "speaker") (sample_row "PA-001" "I feel anxious.")
               = Some (lit "PA-001")) by (rewrite sample_row_speaker; reflexivity).
  assert (H3 : row_speaker (lit "speaker") (sample_row "TH-001" "Tell me more.")
               = Some (lit "TH-001")) by (rewrite sample_row_speaker; reflexivity).
  destruct (load_csv_speaker_rows ascii_lower sorted sorted_enumerates
              sample_csv_path sample_csv [lit "speaker"; lit "text"]
              (lit "speaker") (lit "text"))
    as (doc & Hdoc & Hcontent & _ & Hsp & _).
  - vm_compute. reflexivity.
  - reflexivity.
  - vm_compute. reflexivity.
  - discriminate.
  - intros row Hrow. cbn [rows sample_csv] in Hrow. unfold sample_rows in Hrow.
    repeat (apply elem_of_cons in Hrow as [->|Hrow];
            [by rewrite sample_row_text|]).
    by apply elem_of_nil in Hrow.
  - exists doc. split; [exact Hdoc|]. split.
    { rewrite Hcontent. vm_compute. reflexivity. }
    intros x. cbn [rows sample_csv] in Hsp. unfold sample_rows in Hsp.
    rewrite Hsp.
    + split.
      * intros (row & Hrow & Hx).
        apply elem_of_cons in Hrow as [->|Hrow];
          [left; rewrite H1 in Hx; by injection Hx|].
        apply elem_of_cons in Hrow as [->|Hrow];
          [right; rewrite H2 in Hx; by injection Hx|].
        apply elem_of_cons in Hrow as [->|Hrow];
          [left; rewrite H3 in Hx; by injection Hx|].
        by apply elem_of_nil in Hrow.
      * intros [->| ->].
        -- exists (sample_row "TH-001" "How are you?").
           split; [apply list_elem_of_here|exact H1].
        -- exists (sample_row "PA-001" "I feel anxious.").
           split; [|exact H2].
           apply elem_of_cons. right. apply list_elem_of_here.
    + exists (sample_row "TH-001" "How are you?").
      split; [apply list_elem_of_here|]. by rewrite H1.
Defined.

Lemma load_empty_csv_witness :
  load ascii_lower sorted sample_csv_path (Some (RegularFile (Decoded empty_csv)))
  = Ok [{| doc_id := lit "interview"; content := []; speakers := [];
           source_path := lit "/data/interview.csv" |}].
Proof.
  apply (load_empty_csv ascii_lower sorted sorted_enumerates sample_csv_path);
    reflexivity.
Defined.

End LoaderClaims.

(** * The response parser: further properties *)

Module ParserExtras.
Import Py Re Parser ParserSpec PyFacts ReFacts ParserFacts PatternFacts SplitFacts
  LimitFacts.

(** ** [strip] *)

Lemma lstrip_suffix s : ∃ ws, s = ws ++ lstrip s.
Proof.
  induction s as [|c s [ws IH]]; [by exists []|]. simpl.
  destruct (is_space c); [|by exists []].
  exists (c :: ws). simpl. by rewrite <-IH.
Qed.

Lemma rstrip_prefix s : ∃ ws, s = rstrip s ++ ws.
Proof.
  unfold rstrip. destruct (lstrip_suffix (rev s)) as [ws E].
  exists (rev ws). rewrite <-rev_app_distr, <-E. by rewrite rev_involutive.
Qed.

Lemma rstrip_last s c r : rstrip s = r ++ [c] → is_space c = false.
Proof.
  unfold rstrip. intros H. apply (f_equal (@rev N)) in H.
  rewrite rev_involutive, rev_app_distr in H. simpl in H.
  by apply ParserClaims.lstrip_head in H.
Qed.

(** A text that neither begins nor ends with white space is left alone. *)
Lemma strip_fixed c s d :
  is_space c = false → is_space d = false →
  strip (c :: s ++ [d]) = c :: s ++ [d].
Proof.
  intros Hc Hd. unfold strip. rewrite lstrip_no_space by done.
  by apply (rstrip_snoc_no_space (c :: s)).
Qed.

Lemma strip_one c : is_space c = false → strip [c] = [c].
Proof.
  intros Hc. unfold strip. rewrite lstrip_no_space by done.
  by apply (rstrip_snoc_no_space []).
Qed.

Lemma strip_strip s : strip (strip s) = strip s.
Proof.
  destruct (strip s) as [|c t] eqn:E; [done|].
  assert (Hc : is_space c = false).
  { unfold strip in E. destruct (rstrip_prefix (lstrip s)) as [ws Hws].
    rewrite E in Hws. simpl in Hws. by apply ParserClaims.lstrip_head in Hws. }
  destruct t as [|d t _] using rev_ind; [by apply strip_one|].
  apply strip_fixed; [done|].
  unfold strip in E. by apply (rstrip_last _ _ (c :: t)) in E.
Qed.

Lemma field_value_stripped pattern block v :
  field_value pattern block = Some v → strip v = v.
Proof.
  unfold field_value. destruct (search pattern block); [|done].
  intros [= <-]. apply strip_strip.
Qed.

Lemma default_field_stripped pattern block :
  strip (default [] (field_value pattern block))
  = default [] (field_value pattern block).
Proof.
  destruct (field_value pattern block) eqn:E; [|done].
  by apply field_value_stripped in E.
Qed.

(** ** The shape of a returned instance *)

Lemma emitted_doc_id d block :
  d ≠ [] → emitted d block = set_doc_id d <$> emitted [] block.
Proof.
  intros Hd. unfold emitted.
  destruct (truthy (strip block)); [|done].
  unfold block_instance.
  destruct (field_value construct_pattern block) as [c|]; [|done].
  cbn [construct]. destruct (truthy c); [|done].
  destruct d; [done|]. done.
Qed.

Lemma bind_emitted_doc_id d (blocks : list pystr) :
  d ≠ [] →
  blocks ≫= emitted d = set_doc_id d <$> (blocks ≫= emitted []).
Proof.
  intros Hd. induction blocks as [|b bs IH]; [done|].
  change ((b :: bs) ≫= emitted d) with (emitted d b ++ (bs ≫= emitted d)).
  change ((b :: bs) ≫= emitted [])
    with (emitted [] b ++ (bs ≫= emitted [])).
  rewrite fmap_app, IH. by rewrite emitted_doc_id.
Qed.

(** Property X1.  The known document identifier changes nothing but the
    [doc_id] of the instances: with a non-empty [known_doc_id],
    [parse_response] does what it does without one, and the instances it
    returns are those it returns without one, in the same order, each with
    its [doc_id] replaced.  It returns on every response none of whose
    numerals exceeds the limit of the interpreter. *)
Theorem parse_response_known_doc_id (max_str_digits : nat)
    (response_text known_doc_id : pystr) :
  known_doc_id ≠ [] →
  parse_response max_str_digits response_text known_doc_id
  = (parse_response max_str_digits response_text []
     ≫= λ instances : list EncodingInstance,
          Ok (set_doc_id known_doc_id <$> instances)) ∧
  (within_limit max_str_digits response_text = true →
   ∃ instances,
     parse_response max_str_digits response_text [] = Ok instances ∧
     parse_response max_str_digits response_text known_doc_id
     = Ok (set_doc_id known_doc_id <$> instances)).
Proof.
  intros Hd. split.
  - rewrite !parse_response_eq. destruct (existsb _ _); [done|].
    cbn [mbind result_bind mret result_ret]. f_equal.
    by apply bind_emitted_doc_id.
  - intros Hw. rewrite !parse_response_within by done.
    eexists. split; [done|]. f_equal. by apply bind_emitted_doc_id.
Qed.

Lemma parse_response_known_doc_id_witness :
  lit "D7" ≠ [] ∧
  ∃ instances,
    parse_response default_max_str_digits sample_one [] = Ok instances ∧
    parse_response default_max_str_digits sample_one (lit "D7")
    = Ok (set_doc_id (lit "D7") <$> instances).
Proof.
  split; [done|].
  destruct (parse_response_known_doc_id default_max_str_digits sample_one
              (lit "D7")) as [_ H]; [done|].
  apply H. vm_compute. reflexivity.
Defined.

(** ** White space only *)

Lemma elem_of_join_cut b piece s x :
  b ∈ cut_at_markers piece s → x ∈ b → x ∈ piece ++ s.
Proof.
  revert piece. induction s as [|c s IH]; intros piece; cbn [cut_at_markers].
  - intros ->%list_elem_of_singleton. by rewrite app_nil_r.
  - destruct ((c =? NL) && begins_marker s).
    + intros [->|Hb]%elem_of_cons Hx.
      * apply elem_of_app. by left.
      * apply elem_of_app. right. apply elem_of_cons. right.
        by apply (IH [] Hb).
    + intros Hb Hx. specialize (IH _ Hb Hx).
      by rewrite <-app_assoc in IH.
Qed.

Lemma strip_all_space s : Forall (λ c, is_space c = true) s → strip s = [].
Proof.
  intros H. unfold strip.
  rewrite <-(app_nil_r s), (lstrip_app_space s []) by done. done.
Qed.

(** Property X2.  A response of white space only, the empty response
    included, gives no instance and no error. *)
Theorem parse_response_blank (max_str_digits : nat)
    (response_text default_doc_id : pystr) :
  Forall (λ c, is_space c = true) response_text →
  parse_response max_str_digits response_text default_doc_id = Ok [].
Proof.
  intros Hws. rewrite parse_response_eq, split_blocks.
  assert (Hall : Forall (λ b, strip b = [])
                   (cut_at_markers [] response_text)).
  { apply Forall_forall. intros b Hb. apply strip_all_space.
    apply Forall_forall. intros x Hx.
    rewrite Forall_forall in Hws. apply Hws.
    by apply (elem_of_join_cut b [] response_text x). }
  induction Hall as [|b bs Hb _ IH]; [done|].
  cbn [existsb]. unfold block_raises at 1. rewrite Hb. cbn [truthy andb orb].
  change ((b :: bs) ≫= emitted default_doc_id)
    with (emitted default_doc_id b ++ (bs ≫= emitted default_doc_id)).
  unfold emitted at 1. rewrite Hb. cbn [truthy app]. exact IH.
Qed.

Lemma parse_response_blank_witness :
  Forall (λ c, is_space c = true) (lit " " ++ [NL] ++ lit "  ") ∧
  parse_response default_max_str_digits (lit " " ++ [NL] ++ lit "  ")
    (lit "D7") = Ok [].
Proof.
  assert (H : Forall (λ c, is_space c = true) (lit " " ++ [NL] ++ lit "  ")).
  { apply ParserClaims.Forall_check. by vm_compute. }
  split; [done|].
  by apply (parse_response_blank default_max_str_digits _ (lit "D7")).
Defined.

(** Property X3.  The string fields of a returned instance carry no white
    space at either end: [strip] leaves [speaker_id], [construct] and
    [quote] as they are, and [doc_id] too when it was read from the
    response. *)
Theorem parse_response_stripped (max_str_digits : nat)
    (response_text default_doc_id : pystr)
    (instances : list EncodingInstance) (i : EncodingInstance) :
  parse_response max_str_digits response_text default_doc_id = Ok instances →
  i ∈ instances →
  strip (speaker_id i) = speaker_id i ∧
  strip (construct i) = construct i ∧
  strip (quote i) = quote i ∧
  (default_doc_id = [] → strip (doc_id i) = doc_id i).
Proof.
  intros ->%parse_response_Ok.
  intros (b & Hi & _)%list_elem_of_bind.
  apply elem_of_emitted in Hi as (inst & Hinst & _ & _ & ->).
  unfold block_instance in Hinst.
  destruct (field_value construct_pattern b) as [c|] eqn:Hc; [|done].
  injection Hinst as <-.
  apply field_value_stripped in Hc.
  destruct (truthy default_doc_id) eqn:Hd;
    cbn [set_doc_id speaker_id construct quote doc_id];
    (split; [apply default_field_stripped|]); (split; [done|]);
    (split; [apply default_field_stripped|]); intros ->; [done|].
  apply default_field_stripped.
Qed.

Lemma parse_response_stripped_witness :
  ∃ i, parse_response default_max_str_digits sample_one [] = Ok [i] ∧
       strip (speaker_id i) = speaker_id i ∧
       strip (construct i) = construct i ∧
       strip (quote i) = quote i ∧
       (@nil N = [] → strip (doc_id i) = doc_id i).
Proof.
  destruct (parse_response default_max_str_digits sample_one [])
    as [[|i []]|] eqn:E;
    try (exfalso; vm_compute in E; discriminate E).
  exists i. split; [done|].
  apply (parse_response_stripped default_max_str_digits sample_one [] [i] i E).
  apply list_elem_of_here.
Defined.

(** ** Responses put one after the other *)

Lemma read_word_break eq w s u :
  Forall (λ p, eq p NL = false) w → w ≠ [] ∨ s ≠ [] →
  is_Some (read_word eq w (s ++ NL :: u)) ↔ is_Some (read_word eq w s).
Proof.
  intros Hw. revert s. induction Hw as [|p w Hp Hw IH]; intros s Hne.
  - simpl. split; intros _; eauto.
  - destruct s as [|d s]; cbn [read_word app].
    + rewrite Hp. split; intros [? ?]; done.
    + destruct (eq p d); [|done].
      rewrite !fmap_is_Some.
      destruct w as [|p' w].
      * simpl. split; intros _; eauto.
      * apply IH. by left.
Qed.

Lemma begins_i_break w s u :
  Forall (λ p, ci_eq p NL = false) (lit w) → lit w ≠ [] →
  begins_i w (s ++ NL :: u) = begins_i w s.
Proof.
  intros Hw Hne. unfold begins_i.
  pose proof (read_word_break ci_eq (lit w) s u Hw (or_introl Hne)) as H.
  destruct (read_word ci_eq (lit w) (s ++ NL :: u)) as [x|] eqn:E1,
           (read_word ci_eq (lit w) s) as [y|] eqn:E2; try done.
  - destruct H as [H _]. destruct H as [? ?]; eauto. done.
  - destruct H as [_ H]. destruct H as [? ?]; eauto. done.
Qed.

Lemma Forall_check_false (p : N → bool) l :
  forallb (λ c, negb (p c)) l = true → Forall (λ c, p c = false) l.
Proof.
  intros H. apply Forall_forall. intros x Hx.
  rewrite forallb_forall in H. apply negb_true_iff, H.
  by apply list_elem_of_In.
Qed.

(** Whether a marker begins a text is decided before its first line
    break. *)
Lemma begins_marker_break s u :
  begins_marker (s ++ NL :: u) = begins_marker s.
Proof.
  unfold begins_marker.
  rewrite !begins_i_break; try done;
    apply Forall_check_false; by vm_compute.
Qed.

Lemma cut_app_marker piece t1 t2 :
  begins_marker t2 = true →
  cut_at_markers piece (t1 ++ NL :: t2)
  = cut_at_markers piece t1 ++ cut_at_markers [] t2.
Proof.
  intros Hm. revert piece. induction t1 as [|c t1 IH]; intros piece.
  - cbn [app cut_at_markers]. by rewrite Hm, N.eqb_refl.
  - cbn [app cut_at_markers]. rewrite begins_marker_break.
    destruct ((c =? NL) && begins_marker t1); by rewrite IH.
Qed.

(** Property X4.  Two responses joined by a line break, the second one
    beginning with a block marker ([DOC_ID:] or [DOC ID:], in any case),
    parse to the instances of the first followed by those of the second:
    [parse_response] does on the joined response what it does on the first
    and then on the second.  It returns on every response none of whose
    numerals exceeds the limit of the interpreter. *)
Theorem parse_response_app (max_str_digits : nat)
    (first second default_doc_id : pystr) :
  begins_marker second = true →
  parse_response max_str_digits (first ++ [NL] ++ second) default_doc_id
  = (parse_response max_str_digits first default_doc_id
     ≫= λ l1 : list EncodingInstance,
          parse_response max_str_digits second default_doc_id
          ≫= λ l2 : list EncodingInstance, Ok (l1 ++ l2)) ∧
  (within_limit max_str_digits first = true →
   within_limit max_str_digits second = true →
   ∃ l1 l2,
     parse_response max_str_digits first default_doc_id = Ok l1 ∧
     parse_response max_str_digits second default_doc_id = Ok l2 ∧
     parse_response max_str_digits (first ++ [NL] ++ second) default_doc_id
     = Ok (l1 ++ l2)).
Proof.
  intros Hm.
  assert (E : parse_response max_str_digits (first ++ [NL] ++ second)
                default_doc_id
              = (parse_response max_str_digits first default_doc_id
                 ≫= λ l1 : list EncodingInstance,
                      parse_response max_str_digits second default_doc_id
                      ≫= λ l2 : list EncodingInstance, Ok (l1 ++ l2))).
  { rewrite !parse_response_eq, !split_blocks.
    cbn [app]. rewrite (cut_app_marker [] first second Hm).
    rewrite existsb_app, bind_app.
    destruct (existsb _ (cut_at_markers [] first)); [done|].
    cbn [orb mbind result_bind].
    by destruct (existsb _ (cut_at_markers [] second)). }
  split; [exact E|]. intros H1 H2. rewrite E.
  rewrite !parse_response_within by done.
  do 2 eexists. split; [done|]. split; done.
Qed.

Lemma parse_response_app_witness :
  begins_marker sample_one = true ∧
  ∃ l1 l2,
    parse_response default_max_str_digits sample_bare [] = Ok l1 ∧
    parse_response default_max_str_digits sample_one [] = Ok l2 ∧
    parse_response default_max_str_digits (sample_bare ++ [NL] ++ sample_one)
      [] = Ok (l1 ++ l2).
Proof.
  assert (H : begins_marker sample_one = true) by (by vm_compute).
  split; [done|].
  destruct (parse_response_app default_max_str_digits sample_bare sample_one
              [] H) as [_ H'].
  apply H'; vm_compute; reflexivity.
Defined.

End ParserExtras.

(** * The tables of the parser *)

Module TableExtras.
Import Py Parser Table ParserFacts.

Lemma add_columns_COLUMNS : add_columns COLUMNS COLUMNS = COLUMNS.
Proof. by vm_compute. Qed.

Lemma columns_of_dicts (l : list EncodingInstance) acc :
  acc = COLUMNS →
  foldl (λ acc d, add_columns acc d.*1) acc (instance_dict <$> l) = COLUMNS.
Proof.
  intros ->. induction l as [|i l IH]; [done|]. cbn [fmap list_fmap foldl].
  change ((instance_dict i).*1) with COLUMNS.
  by rewrite add_columns_COLUMNS.
Qed.

Lemma columns_of_instances i (l : list EncodingInstance) :
  foldl (λ acc d, add_columns acc d.*1) [] (instance_dict <$> i :: l) = COLUMNS.
Proof. cbn [fmap list_fmap foldl]. by apply columns_of_dicts. Qed.

Lemma instances_to_dataframe_columns l :
  columns (instances_to_dataframe l) = COLUMNS.
Proof.
  destruct l as [|i l]; [done|].
  unfold instances_to_dataframe, frame_of_dicts. cbn [columns].
  cbn [fmap list_fmap foldl]. by apply columns_of_dicts.
Qed.

Lemma instances_to_dataframe_rows l :
  records (instances_to_dataframe l) = (row_of_dict ∘ instance_dict) <$> l.
Proof.
  destruct l as [|i l]; [done|].
  unfold instances_to_dataframe, frame_of_dicts. cbn [records].
  by rewrite <-list_fmap_compose.
Qed.

Lemma row_instance_dict i : row_instance (row_of_dict (instance_dict i)) = Some i.
Proof.
  destruct i as [d s c q n]. unfold row_instance, row_of_dict, instance_dict.
  cbn [foldl fst snd doc_id speaker_id construct quote confidence].
  by repeat (rewrite lookup_insert_ne by done || rewrite lookup_insert_eq).
Qed.

(** Property X5.  The table made from a list of instances has the five
    columns [doc_id], [speaker_id], [construct], [quote], [confidence], in
    this order, and one row for each instance, in the order of the list;
    reading the rows gives the instances back. *)
Theorem instances_to_dataframe_round_trip (instances : list EncodingInstance) :
  columns (instances_to_dataframe instances) = COLUMNS ∧
  row_instance <$> records (instances_to_dataframe instances)
  = Some <$> instances.
Proof.
  split; [apply instances_to_dataframe_columns|].
  rewrite instances_to_dataframe_rows, <-list_fmap_compose.
  apply list_fmap_ext. intros _ i _. apply row_instance_dict.
Qed.

(** ** The cells of a row and their conversion *)

Lemma row_lookups i :
  let r := row_of_dict (instance_dict i) in
  r !! "doc_id"%string = Some (Str (doc_id i)) ∧
  r !! "speaker_id"%string = Some (Str (speaker_id i)) ∧
  r !! "construct"%string = Some (Str (construct i)) ∧
  r !! "quote"%string = Some (Str (quote i)) ∧
  r !! "confidence"%string = Some (Int (confidence i)).
Proof.
  cbv zeta. unfold row_of_dict, instance_dict. cbn [foldl fst snd].
  split_and!;
    by repeat (rewrite lookup_insert_ne by done || rewrite lookup_insert_eq).
Qed.

Lemma row_cells i k v :
  row_of_dict (instance_dict i) !! k = Some v →
  (∃ s, v = Str s) ∨ (k = "confidence"%string ∧ v = Int (confidence i)).
Proof.
  unfold row_of_dict, instance_dict. cbn [foldl fst snd].
  intros [[<- <-]|[_ H]]%lookup_insert_Some; [by right|].
  left. revert H.
  repeat (intros [[<- <-]|[_ H]]%lookup_insert_Some; [by eexists|revert H]).
  by rewrite lookup_empty.
Qed.

Lemma convert_Str d s : convert d (Str s) = Str s.
Proof. by destruct d. Qed.

Lemma convert_Int d z :
  convert d (Int z) = Int z ∨ convert d (Int z) = Float (float64_of_Z z).
Proof. destruct d; cbn; auto. Qed.

Lemma convert_keep d v : d ≠ float64 → convert d v = v.
Proof. intros H. by destruct d, v. Qed.

(** A converted row holds the instance of the row. *)
Lemma holds_converted (ds : gmap string dtype) i :
  holds (map_imap (λ c v, Some (convert (default object (ds !! c)) v))
           (row_of_dict (instance_dict i))) i.
Proof.
  destruct (row_lookups i) as (H1 & H2 & H3 & H4 & H5).
  unfold holds. rewrite !map_lookup_imap, H1, H2, H3, H4, H5.
  cbn [mbind option_bind]. rewrite !convert_Str.
  split_and!; try done.
  destruct (convert_Int (default object (ds !! "confidence"%string))
              (confidence i)) as [-> | ->]; auto.
Qed.

(** The row is left as it is when the confidence is not converted. *)
Lemma converted_keep (ds : gmap string dtype) i :
  default object (ds !! "confidence"%string) ≠ float64 →
  map_imap (λ c v, Some (convert (default object (ds !! c)) v))
    (row_of_dict (instance_dict i))
  = row_of_dict (instance_dict i).
Proof.
  intros Hd. apply map_eq. intros k. rewrite map_lookup_imap.
  destruct (row_of_dict (instance_dict i) !! k) as [v|] eqn:E; [|done].
  cbn [mbind option_bind]. f_equal.
  apply row_cells in E as [[s ->]|[-> ->]]; [apply convert_Str|].
  by apply convert_keep.
Qed.

Lemma holds_row_instance r i :
  holds r i →
  ∃ n, row_instance r
       = Some {| doc_id := doc_id i; speaker_id := speaker_id i;
                 construct := construct i; quote := quote i;
                 confidence := n |}.
Proof.
  intros (H1 & H2 & H3 & H4 & [H5|H5]); unfold row_instance;
    rewrite H1, H2, H3, H4, H5; eauto.
Qed.

(** ** The dtype of the confidence column *)

Lemma lookup_COLUMNS {A} (g : string → A) c :
  c ∈ COLUMNS →
  (list_to_map ((λ c, (c, g c)) <$> COLUMNS) : gmap string A) !! c = Some (g c).
Proof.
  intros Hc. unfold COLUMNS in *. cbn [fmap list_fmap list_to_map foldr].
  repeat (apply elem_of_cons in Hc as [->|Hc];
          [by repeat (rewrite lookup_insert_ne by done
                      || rewrite lookup_insert_eq)|]).
  by apply elem_of_nil in Hc.
Qed.

Lemma confidence_COLUMNS : "confidence"%string ∈ COLUMNS.
Proof. unfold COLUMNS. repeat constructor. Qed.

Lemma instances_dtype l :
  Forall (λ i, in_int64 (confidence i) = true) l →
  column_dtype "confidence" (instances_to_dataframe l) = int64 ∨
  column_dtype "confidence" (instances_to_dataframe l) = object.
Proof.
  intros Hl. destruct l as [|i l].
  { right. vm_compute. reflexivity. }
  left.
  unfold column_dtype, instances_to_dataframe, frame_of_dicts. cbn [dtypes].
  rewrite (columns_of_instances i l).
  rewrite (lookup_COLUMNS _ _ confidence_COLUMNS). cbn [default].
  unfold infer_dtype.
  assert (forallb (holds_int in_int64)
            ((λ r : gmap string cell, r !! "confidence"%string)
             <$> (row_of_dict <$> (instance_dict <$> i :: l))) = true) as ->;
    [|done].
  apply forallb_forall. intros x Hx. apply list_elem_of_In in Hx.
  apply list_elem_of_fmap in Hx as (r & -> & Hr).
  apply list_elem_of_fmap in Hr as (d & -> & Hd).
  apply list_elem_of_fmap in Hd as (j & -> & Hj).
  destruct (row_lookups j) as (_ & _ & _ & _ & ->). cbn [holds_int].
  rewrite Forall_forall in Hl. by apply Hl.
Qed.

Lemma foldl_join_closed d ds :
  d = int64 ∨ d = object →
  Forall (λ d, d = int64 ∨ d = object) ds →
  foldl join_dtype d ds = int64 ∨ foldl join_dtype d ds = object.
Proof.
  intros Hd Hds. revert d Hd. induction Hds as [|x ds Hx _ IH]; intros d Hd;
    [done|].
  cbn [foldl]. apply IH. destruct Hd as [-> | ->], Hx as [-> | ->]; auto.
Qed.

Lemma common_dtype_closed empty_counts c frames :
  Forall (λ f, column_dtype c f = int64 ∨ column_dtype c f = object) frames →
  common_dtype empty_counts c frames ≠ float64.
Proof.
  intros H. unfold common_dtype.
  assert (Ht : Forall (λ f, column_dtype c f = int64 ∨ column_dtype c f = object)
                 (match List.filter (takes_part empty_counts c) frames with
                  | [] => frames
                  | fs => fs
                  end)).
  { destruct (List.filter _ frames) as [|f fs] eqn:E; [done|].
    apply Forall_forall. intros x Hx. rewrite <-E in Hx.
    apply list_elem_of_In, filter_In in Hx as [Hx _].
    rewrite Forall_forall in H. by apply H, list_elem_of_In. }
  revert Ht. generalize (match List.filter (takes_part empty_counts c) frames
                         with [] => frames | fs => fs end).
  intros l Hl. destruct Hl as [|f l Hf Hl]; [done|].
  cbn [fmap list_fmap].
  destruct (foldl_join_closed (column_dtype c f) (column_dtype c <$> l) Hf)
    as [-> | ->]; try done.
  by apply Forall_fmap.
Qed.

(** ** Merging *)

Lemma columns_concat (fs : list DataFrame) acc :
  acc = COLUMNS → Forall (λ f, columns f = COLUMNS) fs →
  foldl (λ acc f, add_columns acc (columns f)) acc fs = COLUMNS.
Proof.
  intros -> H. induction H as [|f fs Hf _ IH]; [done|].
  cbn [foldl]. by rewrite Hf, add_columns_COLUMNS.
Qed.

Lemma columns_concat_nil (fs : list DataFrame) :
  fs ≠ [] → Forall (λ f, columns f = COLUMNS) fs →
  foldl (λ acc f, add_columns acc (columns f)) [] fs = COLUMNS.
Proof.
  intros Hne H. destruct H as [|f fs Hf H]; [done|].
  cbn [foldl]. change (add_columns [] (columns f)) with
    (foldl (λ acc c, if bool_decide (c ∈ acc) then acc else acc ++ [c]) []
           (columns f)).
  rewrite Hf. by apply columns_concat.
Qed.

Lemma instances_to_dataframe_columns_all (ls : list (list EncodingInstance)) :
  Forall (λ f, columns f = COLUMNS) (instances_to_dataframe <$> ls).
Proof.
  apply Forall_fmap, Forall_forall. intros l _.
  apply instances_to_dataframe_columns.
Qed.

(** The rows of the tables of several lists, one after the other, are the
    rows of the table of the joined list. *)
Lemma records_join (ls : list (list EncodingInstance)) :
  (instances_to_dataframe <$> ls) ≫= records
  = (row_of_dict ∘ instance_dict) <$> mjoin ls.
Proof.
  induction ls as [|l ls IH]; [done|].
  change (mjoin (l :: ls)) with (l ++ mjoin ls).
  change ((instances_to_dataframe <$> l :: ls) ≫= records)
    with (records (instances_to_dataframe l)
          ++ ((instances_to_dataframe <$> ls) ≫= records)).
  by rewrite fmap_app, IH, instances_to_dataframe_rows.
Qed.

(** [pd.concat] of tables that have the five columns. *)
Lemma concat_tables empty_counts (frames : list DataFrame) :
  frames ≠ [] → Forall (λ f, columns f = COLUMNS) frames →
  concat empty_counts frames
  = Ok {| columns := COLUMNS;
          dtypes := list_to_map ((λ c, (c, common_dtype empty_counts c frames))
                                 <$> COLUMNS);
          records :=
            (λ r : gmap string cell,
               map_imap
                 (λ c v,
                    Some (convert
                            (default object
                               ((list_to_map
                                   ((λ c, (c, common_dtype empty_counts c frames))
                                    <$> COLUMNS) : gmap string dtype) !! c))
                            v)) r)
            <$> (frames ≫= records) |}.
Proof.
  intros Hne H. unfold concat. destruct frames as [|f fs]; [done|].
  by rewrite (columns_concat_nil (f :: fs)).
Qed.

(** What [merge_results] makes of the tables of several lists of
    instances. *)
Lemma merge_results_tables empty_counts (ls : list (list EncodingInstance)) :
  ∃ df,
    merge_results empty_counts (instances_to_dataframe <$> ls) = Ok df ∧
    columns df = COLUMNS ∧
    Forall2 holds (records df) (mjoin ls) ∧
    (Forall (λ i, in_int64 (confidence i) = true) (mjoin ls) →
     records df = records (instances_to_dataframe (mjoin ls))).
Proof.
  destruct ls as [|l ls].
  { eexists. split; [done|]. split; [done|]. split; [constructor|done]. }
  assert (merge_results empty_counts (instances_to_dataframe <$> l :: ls)
          = concat empty_counts (instances_to_dataframe <$> l :: ls)) as ->
    by done.
  rewrite concat_tables; [|done|apply instances_to_dataframe_columns_all].
  eexists. split; [done|]. cbn [columns records].
  split; [done|]. rewrite records_join.
  split.
  - apply Forall2_fmap_l, Forall2_fmap_l, Forall_Forall2_diag, Forall_forall.
    intros i _. apply holds_converted.
  - intros Hall. rewrite instances_to_dataframe_rows, <-list_fmap_compose.
    apply list_fmap_ext. intros _ i _. cbn [compose].
    apply converted_keep.
    rewrite (lookup_COLUMNS _ _ confidence_COLUMNS). cbn [default].
    apply common_dtype_closed.
    apply Forall_fmap, Forall_forall. intros l' Hl'. cbn [compose].
    apply instances_dtype. apply Forall_forall. intros i' Hi'.
    rewrite Forall_forall in Hall. apply Hall.
    apply list_elem_of_join. by exists l'.
Qed.

(** A table with an [int64] confidence and one with a [uint64]
    confidence. *)
Lemma merge_results_float empty_counts :
  ∃ df,
    merge_results empty_counts
      (instances_to_dataframe
       <$> [[sample_instance 2]; [sample_instance (2 ^ 63 + 1)]]) = Ok df ∧
    (λ r : gmap string cell, r !! "confidence"%string) <$> records df
    = [Some (Float 2); Some (Float (2 ^ 63))].
Proof.
  eexists. split; [reflexivity|]. by destruct empty_counts; vm_compute.
Qed.

(** Property X6.  Merging the tables of several lists of instances never
    raises (no table at all included) and gives a table with the five
    columns and one row for every instance of the lists put one after the
    other, in this order: the row holds the strings of the instance, and
    its confidence as the integer it is or as the nearest [float64].  When
    every confidence fits the [int64] dtype, the rows are those of the
    table of the joined list.  When the confidence column is [int64] in one
    table and [uint64] in another, pandas stores the merged column as
    [float64]: 2 becomes 2.0, and [2 ^ 63 + 1] becomes [2 ^ 63]. *)
Theorem merge_results_instances (empty_counts : bool)
    (ls : list (list EncodingInstance)) :
  (∃ df,
     merge_results empty_counts (instances_to_dataframe <$> ls) = Ok df ∧
     columns df = COLUMNS ∧
     Forall2 holds (records df) (mjoin ls) ∧
     (Forall (λ i, in_int64 (confidence i) = true) (mjoin ls) →
      records df = records (instances_to_dataframe (mjoin ls)))) ∧
  (∃ df,
     merge_results empty_counts
       (instances_to_dataframe
        <$> [[sample_instance 2]; [sample_instance (2 ^ 63 + 1)]]) = Ok df ∧
     (λ r : gmap string cell, r !! "confidence"%string) <$> records df
     = [Some (Float 2); Some (Float (2 ^ 63))]).
Proof.
  split; [apply merge_results_tables|apply merge_results_float].
Qed.

Lemma merge_results_instances_witness :
  ∃ df,
    merge_results false
      (instances_to_dataframe <$> [[sample_instance 2]; []; [sample_instance 1]])
    = Ok df ∧
    records df
    = records (instances_to_dataframe [sample_instance 2; sample_instance 1]).
Proof.
  destruct (merge_results_instances false
              [[sample_instance 2]; []; [sample_instance 1]])
    as [(df & H & _ & _ & Hr) _].
  exists df. split; [exact H|]. apply Hr.
  repeat constructor.
Defined.

End TableExtras.

(** * The encoder *)

Module EncoderExtras.
Import Py Re Parser ParserSpec Table Encoder ParserFacts LimitFacts TableExtras.
Import DocumentLoader(Document).

Section Client.

Variables E world float : Type.
Variable max_str_digits : nat.
Variable empty_counts : bool.
Variable format : pystr → pystr → pystr → pystr → pystr → E + pystr.
Variable complete : pystr → Z → float → world → (E + option pystr) * world.
Variables (codebook prompt : pystr) (max_tokens : Z) (temperature : float).
Variable on_document_complete :
  option (pystr → DataFrame → world → option E * world).

Lemma _process_document_Return doc w df w' :
  _process_document E world float max_str_digits format complete doc codebook
    prompt max_tokens temperature w = (Return df, w') →
  ∃ l, EncoderSpec.parsed E world float max_str_digits format complete
         codebook prompt max_tokens temperature doc l ∧
       df = instances_to_dataframe l.
Proof.
  unfold _process_document.
  destruct (format _ _ _ _ _) as [e|p] eqn:Hf; [done|].
  destruct (complete _ _ _ _) as [[e|[r|]] w1] eqn:Hc; [done| |done].
  destruct (parse_response _ _ _) as [l|e] eqn:Hp; [|done].
  intros [= <- <-]. exists l. split; [|done].
  exists r. split; [|done]. by exists p, w, w1.
Qed.


Lemma for_documents_Return docs acc calls w rs calls' w' :
  for_documents E world float max_str_digits format complete docs codebook
    prompt max_tokens temperature on_document_complete acc calls w
  = (Return rs, calls', w') →
  ∃ per, Forall2 (EncoderSpec.parsed E world float max_str_digits format
                    complete codebook prompt max_tokens temperature) docs per ∧
         rs = acc ++ (instances_to_dataframe <$> per) ∧
         calls' = calls
                  ++ EncoderSpec.logged E world on_document_complete docs per.
Proof.
  revert acc calls w. induction docs as [|doc docs IH]; intros acc calls w.
  - intros [= <- <- <-]. exists []. split; [constructor|].
    unfold EncoderSpec.logged.
    destruct on_document_complete; cbn; by rewrite !app_nil_r.
  - cbn [for_documents].
    destruct (_process_document _ _ _ _ _ _ _ _ _ _ _ _) as [[df|e] w1] eqn:Hp;
      [|done].
    apply _process_document_Return in Hp as (l & Hl & ->).
    unfold EncoderSpec.logged in *. destruct on_document_complete as [callback|].
    + destruct (callback _ _ _) as [[e|] w2]; [done|].
      intros (per & Hper & E1 & E2)%IH. clear IH. subst. exists (l :: per).
      split; [by constructor|]. cbn. by rewrite <-!app_assoc.
    + intros (per & Hper & E1 & E2)%IH. clear IH. subst. exists (l :: per).
      split; [by constructor|]. cbn. by rewrite <-!app_assoc, app_nil_r.
Qed.


Lemma encode_Return docs w df calls w' :
  encode E world float max_str_digits empty_counts format complete docs
    codebook prompt max_tokens temperature on_document_complete w
  = (Return df, calls, w') →
  ∃ per, Forall2 (EncoderSpec.parsed E world float max_str_digits format
                    complete codebook prompt max_tokens temperature) docs per ∧
         merge_results empty_counts (instances_to_dataframe <$> per) = Ok df ∧
         calls = EncoderSpec.logged E world on_document_complete docs per.
Proof.
  unfold encode.
  destruct (for_documents _ _ _ _ _ _ _ _ _ _ _ _ _ _ _)
    as [[[rs|e] calls1] w1] eqn:Hf; [|done].
  apply for_documents_Return in Hf as (per & Hper & -> & ->).
  cbn [app]. destruct (merge_results _ _) as [df'|e] eqn:Hm; [|done].
  intros [= <- <- <-]. by exists per.
Qed.

(** Property X7.  When [encode] returns a table, the callback, if there is
    one, being one that leaves the table it is handed as it is: the table
    is what [merge_results] makes of the tables of the instances parsed
    from the model's answer for each document, with the document's
    identifier as default, in the order of the documents.  It has the five
    columns and one row for every instance, in this order, which holds the
    strings of the instance and its confidence, as the integer it is or,
    where pandas stores the merged column as [float64], as the nearest
    float; when every confidence fits the [int64] dtype, its rows are those
    of the table of all the instances.  The callback, if there is one, has
    been called once for every document, in order, with the document's
    identifier and the table of its instances. *)
Theorem encode_table (docs : list Document) (w : world) (df : DataFrame)
    (calls : list (pystr * DataFrame)) (w' : world) :
  encode E world float max_str_digits empty_counts format complete docs
    codebook prompt max_tokens temperature on_document_complete w
  = (Return df, calls, w') →
  ∃ per : list (list EncodingInstance),
    Forall2 (λ doc l, ∃ response,
               EncoderSpec.answered E world float format complete codebook
                 prompt max_tokens temperature doc (Some response) ∧
               parse_response max_str_digits response
                 (DocumentLoader.doc_id doc) = Ok l)
            docs per ∧
    merge_results empty_counts (instances_to_dataframe <$> per) = Ok df ∧
    columns df = COLUMNS ∧
    Forall2 holds (records df) (mjoin per) ∧
    (Forall (λ i, in_int64 (confidence i) = true) (mjoin per) →
     records df = records (instances_to_dataframe (mjoin per))) ∧
    calls = match on_document_complete with
            | None => []
            | Some _ => zip (DocumentLoader.doc_id <$> docs)
                            (instances_to_dataframe <$> per)
            end.
Proof.
  intros Henc.
  destruct (encode_Return docs w df calls w' Henc)
    as (per & Hper & Hdf & Hcalls).
  destruct (merge_results_tables empty_counts per)
    as (df' & Hdf' & Hcols & Hrows & Hsame).
  rewrite Hdf in Hdf'. injection Hdf' as <-.
  exists per. split; [exact Hper|]. split; [exact Hdf|].
  split; [exact Hcols|]. split; [exact Hrows|]. split; [exact Hsame|].
  exact Hcalls.
Qed.

Lemma parsed_doc_id doc l i :
  DocumentLoader.doc_id doc ≠ [] →
  EncoderSpec.parsed E world float max_str_digits format complete codebook
    prompt max_tokens temperature doc l →
  i ∈ l →
  doc_id i = DocumentLoader.doc_id doc.
Proof.
  intros Hne (r & _ & Hp) Hi. apply parse_response_Ok in Hp as ->.
  apply list_elem_of_bind in Hi as (b & Hi & _).
  apply elem_of_emitted in Hi as (inst & _ & _ & _ & ->).
  by destruct (DocumentLoader.doc_id doc).
Qed.

Lemma elem_of_join_Forall2 {A B} (P : A → list B → Prop) (xs : list A)
    (ys : list (list B)) (y : B) :
  Forall2 P xs ys → y ∈ mjoin ys → ∃ x l, x ∈ xs ∧ P x l ∧ y ∈ l.
Proof.
  induction 1 as [|x l xs ys Hxl _ IH]; [by intros ?%elem_of_nil|].
  change (mjoin (l :: ys)) with (l ++ mjoin ys).
  intros [Hy|Hy]%elem_of_app.
  - exists x, l. split; [apply list_elem_of_here|done].
  - destruct (IH Hy) as (x' & l' & ? & ? & ?). exists x', l'.
    split; [by apply list_elem_of_further|done].
Qed.

(** A row of the merged table holds an instance with the strings of one of
    the instances merged. *)
Lemma merged_rows (per : list (list EncodingInstance)) df r :
  merge_results empty_counts (instances_to_dataframe <$> per) = Ok df →
  r ∈ records df →
  ∃ i i', i ∈ mjoin per ∧ row_instance r = Some i' ∧ doc_id i' = doc_id i.
Proof.
  intros Hdf Hr.
  destruct (merge_results_tables empty_counts per)
    as (df' & Hdf' & _ & Hrows & _).
  rewrite Hdf in Hdf'. injection Hdf' as <-.
  apply list_elem_of_lookup in Hr as [k Hk].
  destruct (Forall2_lookup_l _ _ _ _ _ Hrows Hk) as (i & Hi & Hh).
  apply holds_row_instance in Hh as [n Hn].
  exists i. eexists. split; [by eapply list_elem_of_lookup_2|].
  split; [exact Hn|done].
Qed.

(** Property X8.  When every document has a non-empty identifier, every row
    of the table that [encode] returns holds an instance whose [doc_id] is
    the identifier of one of the documents, whatever the model answered. *)
Theorem encode_doc_ids (docs : list Document) (w : world) (df : DataFrame)
    (calls : list (pystr * DataFrame)) (w' : world) (r : gmap string cell) :
  Forall (λ doc, DocumentLoader.doc_id doc ≠ []) docs →
  encode E world float max_str_digits empty_counts format complete docs
    codebook prompt max_tokens temperature on_document_complete w
  = (Return df, calls, w') →
  r ∈ records df →
  ∃ i doc, row_instance r = Some i ∧ doc ∈ docs ∧
           doc_id i = DocumentLoader.doc_id doc.
Proof.
  intros Hids (per & Hper & Hdf & _)%encode_Return Hr.
  destruct (merged_rows per df r Hdf Hr) as (i & i' & Hi & Hrow & Hid).
  destruct (elem_of_join_Forall2 _ _ _ _ Hper Hi) as (doc & l & Hdoc & Hl & Hil).
  exists i', doc. split; [done|]. split; [done|].
  rewrite Forall_forall in Hids. rewrite Hid.
  apply (parsed_doc_id doc l); [by apply Hids|done|done].
Qed.

Lemma for_documents_app before rest acc calls w :
  for_documents E world float max_str_digits format complete (before ++ rest)
    codebook prompt max_tokens temperature on_document_complete acc calls w
  = match for_documents E world float max_str_digits format complete before
            codebook prompt max_tokens temperature on_document_complete acc
            calls w with
    | (Return acc', calls', w1) =>
        for_documents E world float max_str_digits format complete rest
          codebook prompt max_tokens temperature on_document_complete acc'
          calls' w1
    | (Fail e, calls', w1) => (Fail e, calls', w1)
    end.
Proof.
  revert acc calls w. induction before as [|doc before IH]; intros acc calls w;
    [done|].
  cbn [app for_documents].
  destruct (_process_document _ _ _ _ _ _ _ _ _ _ _ _) as [[df|e] w1]; [|done].
  destruct on_document_complete as [callback|]; [|apply IH].
  destruct (callback _ _ _) as [[x|] w2]; [done|apply IH].
Qed.

(** Property X9.  If the first documents alone are encoded without an
    exception and the next document fails (the prompt cannot be formatted,
    or the call of the model raises), [encode] raises that exception and
    returns no table: the state is the one the failing call left, so no
    later document is sent to the model, and the callback has been called
    for the earlier documents only. *)
Theorem encode_aborts (before after : list Document) (doc : Document)
    (w w1 w2 : world) (df : DataFrame) (calls : list (pystr * DataFrame))
    (e : failure E) :
  encode E world float max_str_digits empty_counts format complete before
    codebook prompt max_tokens temperature on_document_complete w
  = (Return df, calls, w1) →
  _process_document E world float max_str_digits format complete doc codebook
    prompt max_tokens temperature w1 = (Fail e, w2) →
  encode E world float max_str_digits empty_counts format complete
    (before ++ doc :: after) codebook prompt max_tokens temperature
    on_document_complete w = (Fail e, calls, w2).
Proof.
  unfold encode. rewrite for_documents_app.
  destruct (for_documents _ _ _ _ _ _ before _ _ _ _ _ _ _ _)
    as [[[rs|e'] calls1] w3] eqn:Hf; [|done].
  destruct (merge_results empty_counts rs); [|done].
  intros [= _ <- <-] Hp. cbn [for_documents]. by rewrite Hp.
Qed.


End Client.

(** Property X22.  [encode_single] with a non-empty identifier returns a
    table every row of which holds an instance with that identifier as
    [doc_id], whatever the model answered; it calls no callback. *)
Theorem encode_single_doc_id (E world float : Type) (max_str_digits : nat)
    (empty_counts : bool)
    (format : pystr → pystr → pystr → pystr → pystr → E + pystr)
    (complete : pystr → Z → float → world → (E + option pystr) * world)
    (text codebook document_id prompt : pystr) (max_tokens : Z)
    (temperature : float) (w : world) (df : DataFrame)
    (calls : list (pystr * DataFrame)) (w' : world) :
  document_id ≠ [] →
  encode_single E world float max_str_digits empty_counts format complete text
    codebook document_id prompt max_tokens temperature w
  = (Return df, calls, w') →
  calls = [] ∧
  ∀ r, r ∈ records df →
       ∃ i, row_instance r = Some i ∧ doc_id i = document_id.
Proof.
  intros Hne Henc. unfold encode_single in Henc.
  apply encode_Return in Henc as (per & Hper & Hdf & ->).
  split; [done|]. intros r Hr.
  destruct (merged_rows empty_counts per df r Hdf Hr)
    as (i & i' & Hi & Hrow & Hid).
  exists i'. split; [done|]. rewrite Hid.
  apply Forall2_cons_inv_l in Hper as (l & per' & Hl & Hnil & ->).
  apply Forall2_nil_inv_l in Hnil as ->.
  change (mjoin [l]) with (l ++ []) in Hi. rewrite app_nil_r in Hi.
  by apply (parsed_doc_id E world float max_str_digits format complete
              codebook prompt max_tokens temperature
              (DocumentLoader.load_from_string text document_id) l i).
Qed.

Lemma encode_single_doc_id_witness :
  ∃ df calls w',
    encode_single unit nat unit default_max_str_digits false
      ExtraSpec.sample_format ExtraSpec.sample_complete (lit "I felt alone.")
      (lit "codebook") (lit "inline") (lit "Text: ") 4096 () 0%nat
    = (Return df, calls, w') ∧
    calls = [] ∧
    ∀ r, r ∈ records df →
         ∃ i, row_instance r = Some i ∧ doc_id i = lit "inline".
Proof.
  destruct (encode_single unit nat unit default_max_str_digits false
              ExtraSpec.sample_format ExtraSpec.sample_complete
              (lit "I felt alone.") (lit "codebook")
              (lit "inline") (lit "Text: ") 4096 () 0%nat)
    as [[[df|e] calls] w'] eqn:Hc;
    [|exfalso; vm_compute in Hc; discriminate Hc].
  exists df, calls, w'. split; [done|].
  apply (encode_single_doc_id unit nat unit default_max_str_digits false
           ExtraSpec.sample_format ExtraSpec.sample_complete
           (lit "I felt alone.") (lit "codebook")
           (lit "inline") (lit "Text: ") 4096 () 0%nat df calls w');
    [done|exact Hc].
Defined.

Lemma encode_table_witness :
  ∃ df calls w',
    encode unit nat unit default_max_str_digits false ExtraSpec.sample_format
      ExtraSpec.sample_complete ExtraSpec.sample_docs (lit "codebook")
      (lit "Text: ") 4096 () None 0%nat
    = (Return df, calls, w') ∧
    ∃ per : list (list EncodingInstance),
      Forall2 (λ doc l, ∃ response,
                 EncoderSpec.answered unit nat unit ExtraSpec.sample_format
                   ExtraSpec.sample_complete (lit "codebook") (lit "Text: ")
                   4096 () doc (Some response) ∧
                 parse_response default_max_str_digits response
                   (DocumentLoader.doc_id doc) = Ok l)
              ExtraSpec.sample_docs per ∧
      merge_results false (instances_to_dataframe <$> per) = Ok df ∧
      columns df = COLUMNS ∧
      Forall2 holds (records df) (mjoin per) ∧
      calls = [].
Proof.
  destruct (encode unit nat unit default_max_str_digits false
              ExtraSpec.sample_format ExtraSpec.sample_complete
              ExtraSpec.sample_docs (lit "codebook")
              (lit "Text: ") 4096 () None 0%nat)
    as [[[df|e] calls] w'] eqn:Hc;
    [|exfalso; vm_compute in Hc; discriminate Hc].
  exists df, calls, w'. split; [done|].
  destruct (encode_table unit nat unit default_max_str_digits false
              ExtraSpec.sample_format ExtraSpec.sample_complete
              (lit "codebook") (lit "Text: ") 4096 ()
              None ExtraSpec.sample_docs 0%nat df calls w' Hc)
    as (per & H1 & H2 & H3 & H4 & _ & H6).
  exists per. split; [exact H1|]. split; [exact H2|]. split; [exact H3|].
  split; [exact H4|exact H6].
Defined.

Lemma sample_docs_ids :
  Forall (λ doc, DocumentLoader.doc_id doc ≠ []) ExtraSpec.sample_docs.
Proof. repeat constructor; done. Qed.

Lemma encode_doc_ids_witness :
  Forall (λ doc, DocumentLoader.doc_id doc ≠ []) ExtraSpec.sample_docs ∧
  ∃ df calls w' r,
    encode unit nat unit default_max_str_digits false ExtraSpec.sample_format
      ExtraSpec.sample_complete ExtraSpec.sample_docs (lit "codebook")
      (lit "Text: ") 4096 () None 0%nat
    = (Return df, calls, w') ∧
    r ∈ records df ∧
    ∃ i doc, row_instance r = Some i ∧ doc ∈ ExtraSpec.sample_docs ∧
             doc_id i = DocumentLoader.doc_id doc.
Proof.
  split; [apply sample_docs_ids|].
  destruct (encode unit nat unit default_max_str_digits false
              ExtraSpec.sample_format ExtraSpec.sample_complete
              ExtraSpec.sample_docs (lit "codebook")
              (lit "Text: ") 4096 () None 0%nat)
    as [[[df|e] calls] w'] eqn:Hc;
    [|exfalso; vm_compute in Hc; discriminate Hc].
  pose proof Hc as Hv. vm_compute in Hv. injection Hv as Hdf _ _.
  destruct (records df) as [|r rs] eqn:Hr;
    [exfalso; rewrite <-Hdf in Hr; discriminate Hr|].
  exists df, calls, w', r. split; [done|].
  assert (Hin : r ∈ records df) by (rewrite Hr; apply list_elem_of_here).
  split; [done|].
  apply (encode_doc_ids unit nat unit default_max_str_digits false
           ExtraSpec.sample_format ExtraSpec.sample_complete (lit "codebook")
           (lit "Text: ") 4096 () None ExtraSpec.sample_docs 0%nat df calls w'
           r sample_docs_ids Hc Hin).
Defined.

Lemma encode_aborts_witness :
  ∃ df calls w1 e w2,
    encode unit nat unit default_max_str_digits false ExtraSpec.sample_format
      ExtraSpec.sample_complete ExtraSpec.sample_docs (lit "codebook")
      (lit "Text: ") 4096 () None 0%nat
    = (Return df, calls, w1) ∧
    _process_document unit nat unit default_max_str_digits
      ExtraSpec.sample_format ExtraSpec.sample_complete
      (ExtraSpec.sample_doc "D3" "boom")
      (lit "codebook") (lit "Text: ") 4096 () w1 = (Fail e, w2) ∧
    encode unit nat unit default_max_str_digits false ExtraSpec.sample_format
      ExtraSpec.sample_complete
      (ExtraSpec.sample_docs ++ ExtraSpec.sample_doc "D3" "boom"
         :: ExtraSpec.sample_docs)
      (lit "codebook") (lit "Text: ") 4096 () None 0%nat
    = (Fail e, calls, w2).
Proof.
  destruct (encode unit nat unit default_max_str_digits false
              ExtraSpec.sample_format ExtraSpec.sample_complete
              ExtraSpec.sample_docs (lit "codebook")
              (lit "Text: ") 4096 () None 0%nat)
    as [[[df|e] calls] w1] eqn:Hc;
    [|exfalso; vm_compute in Hc; discriminate Hc].
  destruct (_process_document unit nat unit default_max_str_digits
              ExtraSpec.sample_format ExtraSpec.sample_complete
              (ExtraSpec.sample_doc "D3" "boom")
              (lit "codebook") (lit "Text: ") 4096 () w1)
    as [[df'|e] w2] eqn:Hp; [exfalso; vm_compute in Hp; discriminate Hp|].
  exists df, calls, w1, e, w2. split; [done|]. split; [done|].
  apply (encode_aborts unit nat unit default_max_str_digits false
           ExtraSpec.sample_format ExtraSpec.sample_complete (lit "codebook")
           (lit "Text: ") 4096 () None ExtraSpec.sample_docs
           ExtraSpec.sample_docs (ExtraSpec.sample_doc "D3" "boom") 0%nat w1 w2
           df calls e Hc Hp).
Defined.

(** The two exceptions of the program's own. *)
Example encode_null_content :
  encode unit nat unit default_max_str_digits false ExtraSpec.sample_format
    ExtraSpec.sample_complete [ExtraSpec.sample_doc "D4" "null"]
    (lit "codebook") (lit "Text: ") 4096 () None 0%nat
  = (Fail (Internal TypeError), [], 1%nat).
Proof. vm_compute. reflexivity. Qed.

Example encode_long_confidence :
  encode unit nat unit default_max_str_digits false ExtraSpec.sample_format
    ExtraSpec.sample_complete [ExtraSpec.sample_doc "D5" "long"]
    (lit "codebook") (lit "Text: ") 4096 () None 0%nat
  = (Fail (Internal (ValueError exceeds_the_limit)), [], 1%nat).
Proof.
  unfold encode, for_documents, _process_document.
  change (ExtraSpec.sample_format (lit "Text: ")
            (DocumentLoader.content (ExtraSpec.sample_doc "D5" "long"))
            (lit "codebook")
            (DocumentLoader.doc_id (ExtraSpec.sample_doc "D5" "long"))
            (speakers_str (ExtraSpec.sample_doc "D5" "long")))
    with (@inr unit pystr (lit "Text: long")).
  cbv beta iota.
  change (ExtraSpec.sample_complete (lit "Text: long") 4096 () 0%nat)
    with (@inr unit (option pystr) (Some sample_long_confidence), 1%nat).
  cbv beta iota.
  by rewrite ParserClaims.parse_response_long_confidence.
Qed.


End EncoderExtras.

(** * The document loader: further properties *)

Module LoaderExtras.
Import Py Re DocumentLoader DocumentSpec ExtraSpec PyFacts SpeakerFacts.

Section Interpreter.
Variable str_lower : pystr → pystr.
Variable list_of_set : gset pystr → list pystr.

(** ** Delimited files read as plain text *)

(** Property X11.  A delimited file whose first 2048 characters contain
    none of the words speaker, text, content and utterance (in lower case)
    loads as plain text, and its content is the first 2048 characters of
    the file followed by the whole file: the file is rewound after the
    sample is read.  The content is the text of the file only when the file
    is empty. *)
Theorem load_csv_plain (filepath : Path) (f : File) :
  existsb (λ term, contains term (str_lower (take 2048 (text f)))) gate_terms
    = false →
  ∃ doc,
    _load_csv str_lower list_of_set filepath (Decoded f) = Ok doc ∧
    content doc = take 2048 (text f) ++ text f ∧
    (content doc = text f ↔ text f = []).
Proof.
  intros Hgate. unfold _load_csv.
  cbn [mbind result_bind mret result_ret]. rewrite Hgate.
  cbn [mbind result_bind mret result_ret].
  eexists. split; [reflexivity|]. cbn [content]. split; [done|].
  split.
  - intros H. apply (f_equal length) in H.
    rewrite length_app, length_take in H.
    destruct (text f) as [|c t]; [done|]. cbn [length] in H. lia.
  - by intros ->.
Qed.

(** ** Rows that lack their text *)






(** ** The columns chosen *)

Lemma dict_set_fresh (k v : pystr) (d : list (pystr * pystr)) :
  k ∉ d.*1 → dict_set k v d = d ++ [(k, v)].
Proof.
  induction d as [|[k' v'] d IH]; [done|]. cbn [fmap list_fmap fst dict_set].
  intros [Hk Hd]%not_elem_of_cons.
  rewrite decide_False by done. by rewrite IH.
Qed.

Lemma fieldnames_lower_fresh (fns : list pystr) (d : list (pystr * pystr)) :
  NoDup (d.*1 ++ (column_key str_lower <$> fns)) →
  foldl (λ d fn, dict_set (strip (str_lower fn)) fn d) d fns
  = d ++ ((λ fn, (column_key str_lower fn, fn)) <$> fns).
Proof.
  revert d. induction fns as [|fn fns IH]; intros d Hnd.
  - by rewrite app_nil_r.
  - cbn [foldl fmap list_fmap] in *.
    apply NoDup_app in Hnd as (Hd & Hdis & Hfns).
    apply NoDup_cons in Hfns as [Hfn Hfns].
    rewrite dict_set_fresh.
    2:{ intros H. apply (Hdis _ H). apply list_elem_of_here. }
    rewrite IH.
    + by rewrite <-app_assoc.
    + rewrite fmap_app. cbn [fmap list_fmap fst]. apply NoDup_app.
      split_and!; [|intros x [Hx|Hx]%elem_of_app Hx2|done].
      * apply NoDup_app. split_and!; [done| |apply NoDup_singleton].
        intros x Hx ->%list_elem_of_singleton. apply (Hdis _ Hx).
        apply list_elem_of_here.
      * apply (Hdis _ Hx). by apply list_elem_of_further.
      * apply list_elem_of_singleton in Hx as ->. by apply Hfn.
Qed.

Lemma names_disjoint (key : pystr) :
  key ∈ speaker_names → key ∉ text_names.
Proof.
  intros H1 H2. unfold speaker_names, text_names in *.
  cbn [fmap list_fmap] in *.
  repeat (apply elem_of_cons in H1 as [->|H1];
          [repeat (apply elem_of_cons in H2 as [H2|H2];
                   [by vm_compute in H2|]);
           by apply elem_of_nil in H2|]).
  by apply elem_of_nil in H1.
Qed.

Lemma detect_columns_last (fns : list pystr) (acc : option pystr * option pystr) :
  foldl (λ '(speaker_col, text_col) '(key, fn),
           if bool_decide (key ∈ speaker_names) then (Some fn, text_col)
           else if bool_decide (key ∈ text_names) then (speaker_col, Some fn)
           else (speaker_col, text_col))
        acc ((λ fn, (column_key str_lower fn, fn)) <$> fns)
  = (match last (filter (λ fn, column_key str_lower fn ∈ speaker_names) fns) with
     | Some fn => Some fn
     | None => acc.1
     end,
     match last (filter (λ fn, column_key str_lower fn ∈ text_names) fns) with
     | Some fn => Some fn
     | None => acc.2
     end).
Proof.
  revert acc. induction fns as [|fn fns IH]; intros [sc tc]; [done|].
  cbn [fmap list_fmap foldl]. rewrite !filter_cons.
  destruct (decide (column_key str_lower fn ∈ speaker_names)) as [Hs|Hs].
  - rewrite bool_decide_eq_true_2 by done.
    rewrite decide_False by (by apply names_disjoint).
    rewrite IH. cbn [fst snd]. f_equal.
    destruct (filter (λ fn, column_key str_lower fn ∈ speaker_names) fns)
      as [|x l] eqn:E; [done|].
    rewrite last_cons_cons.
    destruct (last (x :: l)) eqn:El; [done|]. by apply last_None in El.
  - rewrite bool_decide_eq_false_2 by done.
    destruct (decide (column_key str_lower fn ∈ text_names)) as [Ht|Ht].
    + rewrite bool_decide_eq_true_2 by done. rewrite IH. cbn [fst snd].
      f_equal.
      destruct (filter (λ fn, column_key str_lower fn ∈ text_names) fns)
        as [|x l] eqn:E; [done|].
      rewrite last_cons_cons.
    destruct (last (x :: l)) eqn:El; [done|]. by apply last_None in El.
    + rewrite bool_decide_eq_false_2 by done. by rewrite IH.
Qed.

(** Property X13.  When the field names of a delimited file are distinct
    after lower-casing and stripping, the speaker column is the last field
    name that reads speaker, speaker_id, participant or id, and the text
    column the last one that reads text, content, utterance, transcript or
    message; a column is left undetected when no field name reads so. *)
Theorem detect_columns_spec (fns : list pystr) :
  NoDup (column_key str_lower <$> fns) →
  detect_columns (fieldnames_lower str_lower fns)
  = (last (filter (λ fn, column_key str_lower fn ∈ speaker_names) fns),
     last (filter (λ fn, column_key str_lower fn ∈ text_names) fns)).
Proof.
  intros Hnd. unfold detect_columns, fieldnames_lower.
  rewrite (fieldnames_lower_fresh fns []) by done. cbn [app].
  rewrite detect_columns_last. cbn [fst snd].
  f_equal; by destruct (last _).
Qed.

(** ** Directories *)

Lemma _load_file_paths (filepath : Path) (r : reading) (d : Document) :
  _load_file str_lower list_of_set filepath r = Ok d →
  doc_id d = stem filepath ∧ source_path d = path_str filepath.
Proof.
  unfold _load_file. destruct r as [f|]; repeat case_match; try done.
  - by intros [= <-].
  - unfold _load_csv. cbn [mbind result_bind mret result_ret].
    destruct (if existsb _ gate_terms then _ else _) as [[c s]|e]; [|done].
    cbn [mbind result_bind mret result_ret]. by intros [= <-].
Qed.

(** A file that is not UTF-8 does not load. *)
Lemma _load_file_undecodable (filepath : Path) :
  ∃ e, _load_file str_lower list_of_set filepath Undecodable = Raise e.
Proof. unfold _load_file. repeat case_match; by eexists. Qed.

Lemma directory_loop (l : list (Path * option reading)) (documents : list Document) :
  foldl (λ documents '(filepath, entry),
           match entry with
           | Some f =>
               if bool_decide (str_lower (suffix filepath)
                               ∈ [lit ".txt"; lit ".csv"])
               then match _load_file str_lower list_of_set filepath f with
                    | Ok d => documents ++ [d]
                    | Raise _ => documents
                    end
               else documents
           | None => documents
           end) documents l
  = documents ++ omap (loaded str_lower list_of_set) l.
Proof.
  revert documents. induction l as [|[p e] l IH]; intros documents.
  - by rewrite app_nil_r.
  - cbn [foldl omap list_omap]. rewrite IH. unfold loaded at 2. cbn [fst snd].
    destruct e as [f|]; [|done]. case_bool_decide; [|done].
    destruct (_load_file _ _ _ _); [|done]. by rewrite <-app_assoc.
Qed.

Lemma _load_directory_loaded (directory : Path)
    (children : list (Path * option reading)) :
  _load_directory str_lower list_of_set directory children
  = match omap (loaded str_lower list_of_set)
            (merge_sort (λ a b, str_le (path_str a.1) (path_str b.1)) children)
    with
    | [] => Raise (no_valid_documents directory)
    | documents => Ok documents
    end.
Proof.
  unfold _load_directory. cbv zeta. rewrite directory_loop. cbn [app].
  by destruct (omap _ _).
Qed.

Lemma loaded_paths (entry : Path * option reading) (d : Document) :
  loaded str_lower list_of_set entry = Some d →
  doc_id d = stem entry.1 ∧ source_path d = path_str entry.1.
Proof.
  unfold loaded. repeat case_match; try done.
  intros [= <-]. by eapply _load_file_paths.
Qed.

Lemma loaded_txt (filepath : Path) (f : File) :
  str_lower (suffix filepath) = lit ".txt" →
  loaded str_lower list_of_set (filepath, Some (Decoded f))
  = Some (txt_document filepath f).
Proof.
  intros H. unfold loaded, _load_file. cbn [fst snd]. rewrite H.
  rewrite bool_decide_eq_true_2 by apply list_elem_of_here.
  by rewrite bool_decide_eq_true_2.
Qed.

Lemma loaded_undecodable (entry : Path * option reading) :
  entry.2 = Some Undecodable ∨ entry.2 = None →
  loaded str_lower list_of_set entry = None.
Proof.
  unfold loaded. intros [-> | ->]; [|done].
  case_bool_decide; [|done].
  by destruct (_load_file_undecodable entry.1) as [e ->].
Qed.

(** Property X14.  A directory that holds a regular file with the extension
    [.txt], in any case, whose bytes are UTF-8, loads, and the document of
    that file is among the documents returned, whatever happens with the
    other entries.  A file whose bytes are not UTF-8 is passed like every
    entry that fails to load: a directory whose regular files are all of
    this kind raises the [ValueError] that no valid document was found. *)
Theorem load_directory_txt (directory filepath : Path) (f : File)
    (children : list (Path * option reading)) :
  ((filepath, Some (Decoded f)) ∈ children →
   str_lower (suffix filepath) = lit ".txt" →
   ∃ documents,
     load str_lower list_of_set directory (Some (Directory children))
     = Ok documents ∧
     txt_document filepath f ∈ documents) ∧
  ((∀ entry, entry ∈ children →
             entry.2 = Some Undecodable ∨ entry.2 = None) →
   load str_lower list_of_set directory (Some (Directory children))
   = Raise (no_valid_documents directory)).
Proof.
  split.
  - intros Hin Hext. cbn [load]. rewrite _load_directory_loaded.
    assert (Hd : txt_document filepath f
                 ∈ omap (loaded str_lower list_of_set)
                     (merge_sort (λ a b, str_le (path_str a.1) (path_str b.1))
                        children)).
    { apply list_elem_of_omap. exists (filepath, Some (Decoded f)).
      split; [|by apply loaded_txt]. by rewrite merge_sort_Permutation. }
    destruct (omap _ _) as [|d ds]; [by apply elem_of_nil in Hd|].
    by eexists.
  - intros Hall. cbn [load]. rewrite _load_directory_loaded.
    destruct (omap _ _) as [|d ds] eqn:Hd; [done|]. exfalso.
    assert (Hin : d ∈ omap (loaded str_lower list_of_set)
                    (merge_sort (λ a b, str_le (path_str a.1) (path_str b.1))
                       children))
      by (rewrite Hd; apply list_elem_of_here).
    apply list_elem_of_omap in Hin as (entry & Hentry & Hl).
    rewrite merge_sort_Permutation in Hentry.
    by rewrite (loaded_undecodable entry (Hall entry Hentry)) in Hl.
Qed.

(** Property X15.  Loading a directory raises nothing but the
    [ValueError] that no valid document was found, and raises it exactly
    when no entry is a regular file of a supported extension that loads;
    an entry that fails to load never makes the directory fail. *)
Theorem load_directory_error (directory : Path)
    (children : list (Path * option reading)) :
  (∀ e, load str_lower list_of_set directory (Some (Directory children))
        = Raise e → e = no_valid_documents directory) ∧
  (load str_lower list_of_set directory (Some (Directory children))
   = Raise (no_valid_documents directory)
   ↔ ∀ entry, entry ∈ children → loaded str_lower list_of_set entry = None).
Proof.
  cbn [load]. rewrite _load_directory_loaded.
  destruct (omap _ _) as [|d ds] eqn:Hd.
  - split; [by intros e [= <-]|]. split; [|done].
    intros _ entry Hentry.
    destruct (loaded str_lower list_of_set entry) as [d|] eqn:Hl; [|done].
    exfalso.
    assert (Hin : d ∈ omap (loaded str_lower list_of_set)
                    (merge_sort (λ a b, str_le (path_str a.1) (path_str b.1))
                       children)).
    { apply list_elem_of_omap. exists entry. split; [|done].
      by rewrite merge_sort_Permutation. }
    rewrite Hd in Hin. by apply elem_of_nil in Hin.
  - split; [done|]. split; [done|]. intros Hnone. exfalso.
    assert (Hin : d ∈ omap (loaded str_lower list_of_set)
                    (merge_sort (λ a b, str_le (path_str a.1) (path_str b.1))
                       children))
      by (rewrite Hd; apply list_elem_of_here).
    apply list_elem_of_omap in Hin as (entry & Hentry & Hl).
    rewrite merge_sort_Permutation in Hentry.
    by rewrite (Hnone entry Hentry) in Hl.
Qed.

#[local] Instance path_le_total :
  Total (λ a b : Path * option reading, str_le (path_str a.1) (path_str b.1)).
Proof. intros a b. apply (total str_le). Qed.

#[local] Instance path_le_trans :
  Transitive (λ a b : Path * option reading, str_le (path_str a.1) (path_str b.1)).
Proof. intros a b c. apply (transitivity (R := str_le)). Qed.

Lemma omap_sorted (l : list (Path * option reading)) :
  StronglySorted (λ a b, str_le (path_str a.1) (path_str b.1)) l →
  StronglySorted str_le
    (source_path <$> omap (loaded str_lower list_of_set) l).
Proof.
  induction 1 as [|x l Hl IH Hx]; [constructor|].
  cbn [omap list_omap].
  destruct (loaded str_lower list_of_set x) as [d|] eqn:Hd; [|done].
  cbn [fmap list_fmap]. constructor; [done|].
  apply Forall_forall. intros s (d' & -> & Hd')%list_elem_of_fmap.
  apply list_elem_of_omap in Hd' as (y & Hy & Hd').
  apply loaded_paths in Hd as [_ ->]. apply loaded_paths in Hd' as [_ ->].
  rewrite Forall_forall in Hx. by apply Hx.
Qed.

(** Property X16.  The documents that a directory gives come in ascending
    order of their source paths; each is the document of an entry of the
    directory, with the stem of the entry's path as [doc_id] and the path
    as [source_path]. *)
Theorem load_directory_order (directory : Path)
    (children : list (Path * option reading)) (documents : list Document) :
  load str_lower list_of_set directory (Some (Directory children))
    = Ok documents →
  StronglySorted str_le (source_path <$> documents) ∧
  ∀ d, d ∈ documents →
       ∃ entry, entry ∈ children ∧
                loaded str_lower list_of_set entry = Some d ∧
                doc_id d = stem entry.1 ∧
                source_path d = path_str entry.1.
Proof.
  cbn [load]. rewrite _load_directory_loaded.
  destruct (omap _ _) as [|d0 ds] eqn:Hd; [done|]. intros [= <-].
  rewrite <-Hd. split.
  - apply omap_sorted. apply StronglySorted_merge_sort; apply _.
  - intros d (entry & Hentry & Hl)%list_elem_of_omap.
    exists entry. rewrite merge_sort_Permutation in Hentry.
    split; [done|]. split; [done|]. by apply loaded_paths.
Qed.

Lemma load_Ok_cons (path : Path) (target : option node)
    (documents : list Document) :
  load str_lower list_of_set path target = Ok documents →
  ∃ d ds, documents = d :: ds.
Proof.
  destruct target as [[r|children]|]; cbn [load]; [| |done].
  - destruct (_load_file str_lower list_of_set path r) as [d|e]; [|done].
    cbn [mbind result_bind mret result_ret]. intros [= <-]. by exists d, [].
  - rewrite _load_directory_loaded.
    destruct (omap _ _) as [|d ds]; [done|]. intros [= <-]. by exists d, ds.
Qed.

(** Property X17.  [load] never returns an empty list: a regular file gives
    exactly one document, named after the stem of the path, and a
    directory at least one. *)
Theorem load_nonempty (path : Path) (target : option node)
    (documents : list Document) :
  load str_lower list_of_set path target = Ok documents →
  documents ≠ [] ∧
  ∀ r, target = Some (RegularFile r) →
       ∃ d, documents = [d] ∧ doc_id d = stem path ∧
            source_path d = path_str path.
Proof.
  destruct target as [[r|children]|]; cbn [load]; [| |done].
  - destruct (_load_file str_lower list_of_set path r) as [d|e] eqn:Hf;
      [|done].
    cbn [mbind result_bind mret result_ret]. intros [= <-].
    split; [done|]. intros f' _. exists d. split; [done|].
    by eapply _load_file_paths.
  - rewrite _load_directory_loaded.
    destruct (omap _ _) as [|d ds]; [done|]. intros [= <-].
    split; [done|]. intros f' [=].
Qed.

End Interpreter.

Lemma load_csv_plain_witness :
  existsb (λ term, contains term (ascii_lower (take 2048 (text plain_csv))))
    gate_terms = false ∧
  ∃ doc,
    _load_csv ascii_lower sorted sample_csv_path (Decoded plain_csv) = Ok doc ∧
    content doc = take 2048 (text plain_csv) ++ text plain_csv ∧
    (content doc = text plain_csv ↔ text plain_csv = []).
Proof.
  assert (H : existsb (λ term, contains term
                         (ascii_lower (take 2048 (text plain_csv))))
                gate_terms = false) by (vm_compute; reflexivity).
  split; [exact H|].
  apply (load_csv_plain ascii_lower sorted sample_csv_path plain_csv H).
Defined.



Lemma detect_columns_spec_witness :
  detect_columns
    (fieldnames_lower ascii_lower [lit "Speaker"; lit " ID"; lit "Text"])
  = (Some (lit " ID"), Some (lit "Text")).
Proof.
  rewrite (detect_columns_spec ascii_lower
             [lit "Speaker"; lit " ID"; lit "Text"]).
  - vm_compute. reflexivity.
  - assert (H : bool_decide
                 (NoDup (column_key ascii_lower
                           <$> [lit "Speaker"; lit " ID"; lit "Text"])) = true)
      by (vm_compute; reflexivity).
    by apply bool_decide_eq_true in H.
Defined.

Lemma load_directory_txt_witness :
  (∃ documents,
     load ascii_lower sorted
       {| path_str := lit "/data"; suffix := []; stem := lit "data" |}
       (Some (Directory sample_dir))
     = Ok documents ∧
     txt_document
       {| path_str := lit "/data/a.TXT"; suffix := lit ".TXT"; stem := lit "a" |}
       {| text := lit "Amy: hello"; fieldnames := None; rows := [] |}
     ∈ documents) ∧
  load ascii_lower sorted
    {| path_str := lit "/data"; suffix := []; stem := lit "data" |}
    (Some (Directory undecodable_dir))
  = Raise (no_valid_documents
             {| path_str := lit "/data"; suffix := []; stem := lit "data" |}).
Proof.
  split.
  - apply (load_directory_txt ascii_lower sorted).
    + unfold sample_dir. do 2 apply list_elem_of_further.
      apply list_elem_of_here.
    + vm_compute. reflexivity.
  - apply (load_directory_txt ascii_lower sorted _
             {| path_str := []; suffix := []; stem := [] |}
             {| text := []; fieldnames := None; rows := [] |}).
    intros entry Hentry. unfold undecodable_dir in Hentry.
    apply list_elem_of_singleton in Hentry as ->. by left.
Defined.

Lemma load_directory_order_witness :
  ∃ documents,
    load ascii_lower sorted
      {| path_str := lit "/data"; suffix := []; stem := lit "data" |}
      (Some (Directory sample_dir))
    = Ok documents ∧
    StronglySorted str_le (source_path <$> documents) ∧
    ∀ d, d ∈ documents →
         ∃ entry, entry ∈ sample_dir ∧
                  loaded ascii_lower sorted entry = Some d ∧
                  doc_id d = stem entry.1 ∧
                  source_path d = path_str entry.1.
Proof.
  destruct (load ascii_lower sorted
              {| path_str := lit "/data"; suffix := []; stem := lit "data" |}
              (Some (Directory sample_dir))) as [documents|e] eqn:E;
    [|exfalso; vm_compute in E; discriminate E].
  exists documents. split; [done|].
  apply (load_directory_order ascii_lower sorted _ sample_dir documents E).
Defined.

Lemma load_nonempty_witness :
  ∃ documents,
    load ascii_lower sorted
      {| path_str := lit "/data/b.txt"; suffix := lit ".txt"; stem := lit "b" |}
      (Some (RegularFile
               (Decoded
                  {| text := lit "Bob: hi"; fieldnames := None; rows := [] |})))
    = Ok documents ∧
    documents ≠ [] ∧
    ∀ r,
      Some (RegularFile
              (Decoded
                 {| text := lit "Bob: hi"; fieldnames := None; rows := [] |}))
      = Some (RegularFile r) →
      ∃ d, documents = [d] ∧ doc_id d = lit "b" ∧
           source_path d = lit "/data/b.txt".
Proof.
  destruct (load ascii_lower sorted
              {| path_str := lit "/data/b.txt"; suffix := lit ".txt";
                 stem := lit "b" |}
              (Some (RegularFile
                       (Decoded
                          {| text := lit "Bob: hi"; fieldnames := None;
                             rows := [] |})))) as [documents|e] eqn:E;
    [|exfalso; vm_compute in E; discriminate E].
  exists documents. split; [done|].
  apply (load_nonempty ascii_lower sorted _ _ documents E).
Defined.

End LoaderExtras.

(** * Speaker detection: the inline labels *)

Module ScanFacts.
Import Py Re ParserSpec DocumentLoader DocumentSpec ExtraSpec.
Import PyFacts ReFacts PatternFacts.

(** ** Greedy repetitions followed by something else *)

(** A greedy repetition followed by a pattern that cannot start with a
    character of the class: only the longest run is followed up. *)
Lemma rep_greedy_bind {B} (p : N → bool) (k : pos → list B) lo pv s :
  (∀ pv' c s', p c = true → k (Pos pv' (c :: s')) = []) →
  rep true p lo None pv s ≫= k
  = if (lo <=? length (while p s))%nat
    then k (Pos (prev_after pv (while p s)) (drop (length (while p s)) s))
    else [].
Proof.
  intros Hk. revert lo pv. induction s as [|c s IH]; intros lo pv.
  - cbn [rep while length drop]. destruct lo; [|done].
    cbn. by rewrite app_nil_r.
  - cbn [rep while may_take andb]. rewrite andb_true_r.
    destruct (p c) eqn:Hc.
    + cbn [fmap option_fmap option_map]. rewrite bind_app, IH.
      assert (Hstop : (match lo with O => [Pos pv (c :: s)] | S _ => [] end)
                      ≫= k = []).
      { destruct lo; [|done]. rewrite bind_singleton. by apply Hk. }
      rewrite Hstop, app_nil_r. cbn [length drop].
      rewrite prev_after_cons. by destruct lo.
    + cbn [length drop]. destruct lo; [|done].
      cbn. by rewrite app_nil_r.
Qed.

(** A greedy repetition at the end of a pattern: the longest run. *)
Lemma head_rep_greedy (p : N → bool) lo pv s :
  head (rep true p lo None pv s)
  = if (lo <=? length (while p s))%nat
    then Some (Pos (prev_after pv (while p s)) (drop (length (while p s)) s))
    else None.
Proof.
  revert lo pv. induction s as [|c s IH]; intros lo pv.
  - cbn [rep while length drop]. by destruct lo.
  - cbn [rep while may_take andb]. rewrite andb_true_r.
    destruct (p c) eqn:Hc.
    + cbn [fmap option_fmap option_map]. rewrite head_app, IH.
      cbn [length drop]. rewrite prev_after_cons.
      destruct lo as [|[|lo]]; cbn [pred Nat.leb].
      * done.
      * done.
      * destruct (length (while p s)) as [|n]; [done|].
        by destruct (lo <=? n)%nat.
    + cbn [length drop]. by destruct lo.
Qed.

(** Exactly [n] characters of a class. *)
Lemma rep_exactly (p : N → bool) n pv s :
  rep true p n (Some n) pv s
  = if (n <=? length s)%nat && forallb p (take n s)
    then [Pos (prev_after pv (take n s)) (drop n s)]
    else [].
Proof.
  revert pv s. induction n as [|n IH]; intros pv s.
  - destruct s as [|c s]; cbn; [done|]. by rewrite andb_false_r.
  - destruct s as [|c s]; [done|].
    cbn [rep may_take pred fmap option_fmap option_map length Nat.leb take
         forallb drop].
    rewrite andb_true_r. destruct (p c); [|by rewrite andb_false_r].
    rewrite IH, app_nil_r. cbn [andb]. by rewrite prev_after_cons.
Qed.

(** ** Scanning with a pattern that never matches inside one of its own
    matches *)

Lemma app_split_inside {A} (pre post t R : list A) :
  pre ++ post = t ++ R → (length pre < length t)%nat →
  ∃ t2, t2 ≠ [] ∧ t = pre ++ t2 ∧ post = t2 ++ R.
Proof.
  revert t. induction pre as [|a pre IH]; intros t H Hlen.
  - exists t. split; [|done]. destruct t; [simpl in Hlen; lia|done].
  - destruct t as [|b t]; [simpl in Hlen; lia|].
    injection H as -> H. destruct (IH t H) as (t2 & ? & -> & ->).
    { simpl in Hlen. lia. }
    by exists t2.
Qed.

Section Scan.
Variable r : regex.
Hypothesis match_takes : ∀ pv s q g,
  match_here r pv s = Some (q, g) → ∃ t, t ≠ [] ∧ s = t ++ rest q.
Hypothesis match_apart : ∀ pv s q g t1 t2,
  match_here r pv s = Some (q, g) → s = t1 ++ t2 ++ rest q →
  t1 ≠ [] → t2 ≠ [] →
  match_here r (prev_after pv t1) (t2 ++ rest q) = None.

Lemma finditer_from_hits skip pv s x :
  (∀ pre post, s = pre ++ post → (length pre < skip)%nat →
               match_here r (prev_after pv pre) post = None) →
  x ∈ finditer_from r skip pv s
  ↔ ∃ pre post q g,
      s = pre ++ post ∧ (skip ≤ length pre)%nat ∧
      match_here r (prev_after pv pre) post = Some (q, g) ∧
      x = default [] g.
Proof.
  revert skip pv. induction s as [|c s IH]; intros skip pv Hskip.
  - destruct skip as [|k].
    + cbn [finditer_from].
      destruct (match_here r pv []) as [[q g]|] eqn:Hm.
      * destruct (match_takes _ _ _ _ Hm) as (t & Ht & E).
        by destruct t.
      * split; [by intros ?%elem_of_nil|].
        intros (pre & post & q & g & E & _ & Hm' & _).
        symmetry in E. apply app_eq_nil in E as [-> ->].
        rewrite prev_after_nil, Hm in Hm'. discriminate Hm'.
    + cbn [finditer_from]. split; [by intros ?%elem_of_nil|].
      intros (pre & post & q & g & E & Hle & _).
      symmetry in E. apply app_eq_nil in E as [-> ->]. simpl in Hle. lia.
  - destruct skip as [|k].
    + cbn [finditer_from].
      destruct (match_here r pv (c :: s)) as [[q g]|] eqn:Hm.
      * destruct (match_takes _ _ _ _ Hm) as (t & Ht & E).
        destruct t as [|c' t]; [done|]. injection E as <- E.
        assert (Hn : pred (length (c :: s) - length (rest q))%nat = length t).
        { rewrite E. cbn [length]. rewrite length_app. lia. }
        rewrite Hn. rewrite elem_of_cons, IH.
        -- split.
           ++ intros [->|(pre & post & q' & g' & E' & Hle & Hm' & ->)].
              ** exists [], (c :: s), q, g. rewrite prev_after_nil.
                 split_and!; [done|simpl; lia|done|done].
              ** exists (c :: pre), post, q', g'. rewrite prev_after_cons.
                 split_and!; [by rewrite E'|simpl; lia|done|done].
           ++ intros (pre & post & q' & g' & E' & _ & Hm' & ->).
              destruct pre as [|c' pre].
              ** left. simpl in E'. subst post.
                 rewrite prev_after_nil, Hm in Hm'. by injection Hm' as <- <-.
              ** right. injection E' as <- E'.
                 rewrite prev_after_cons in Hm'.
                 exists pre, post, q', g'. split_and!; [done| |done|done].
                 destruct (decide (length t ≤ length pre)%nat) as [|Hlt];
                   [done|exfalso].
                 rewrite E in E'. symmetry in E'.
                 destruct (app_split_inside pre post t (rest q) E')
                   as (t2 & Ht2 & -> & ->); [lia|].
                 rewrite <-(prev_after_cons pv) in Hm'.
                 rewrite (match_apart pv (c :: s) q g (c :: pre) t2 Hm) in Hm';
                   [done| |done|done].
                 rewrite E. by rewrite <-app_assoc.
        -- intros pre post E' Hlt.
           rewrite E in E'. symmetry in E'.
           destruct (app_split_inside pre post t (rest q) E')
             as (t2 & Ht2 & -> & ->); [lia|].
           rewrite <-(prev_after_cons pv).
           apply (match_apart pv (c :: s) q g (c :: pre) t2 Hm); [|done|done].
           rewrite E. by rewrite <-app_assoc.
      * rewrite IH by (intros ? ? ? ?; lia). split.
        -- intros (pre & post & q' & g' & E' & Hle & Hm' & ->).
           exists (c :: pre), post, q', g'. rewrite prev_after_cons.
           split_and!; [by rewrite E'|simpl; lia|done|done].
        -- intros (pre & post & q' & g' & E' & _ & Hm' & ->).
           destruct pre as [|c' pre].
           ++ simpl in E'. subst post.
              rewrite prev_after_nil, Hm in Hm'. discriminate Hm'.
           ++ injection E' as <- E'. rewrite prev_after_cons in Hm'.
              exists pre, post, q', g'. split_and!; [done|lia|done|done].
    + cbn [finditer_from]. rewrite IH.
      * split.
        -- intros (pre & post & q' & g' & E' & Hle & Hm' & ->).
           exists (c :: pre), post, q', g'. rewrite prev_after_cons.
           split_and!; [by rewrite E'|simpl; lia|done|done].
        -- intros (pre & post & q' & g' & E' & Hle & Hm' & ->).
           destruct pre as [|c' pre]; [simpl in Hle; lia|].
           injection E' as <- E'. rewrite prev_after_cons in Hm'.
           exists pre, post, q', g'.
           split_and!; [done|simpl in Hle; lia|done|done].
      * intros pre post E' Hlt. rewrite <-(prev_after_cons pv).
        apply Hskip; [by rewrite E'|simpl; lia].
Qed.

End Scan.

End ScanFacts.

Module LabelFacts.
Import Py Re ParserSpec DocumentLoader DocumentSpec ExtraSpec.
Import PyFacts ReFacts PatternFacts ScanFacts.

Lemma line_start_last (pre : pystr) :
  line_start (prev_after None pre) = true ↔ at_line_start pre.
Proof.
  unfold prev_after, at_line_start, line_start.
  destruct (last pre) as [c|]; [apply N.eqb_eq|done].
Qed.

Lemma while_drop p s : s = while p s ++ drop (length (while p s)) s.
Proof. by rewrite while_prefix. Qed.

Section Labels.
Variable label : pystr → option (pystr * pystr * pystr).
Hypothesis label_core : ∀ s x core post,
  label s = Some (x, core, post) → s = core ++ post ∧ core ≠ [].
Hypothesis label_no_space : ∀ c s, is_space c = true → label (c :: s) = None.
Hypothesis label_one_line : ∀ s x core post t1 d t2,
  label s = Some (x, core, post) → core = t1 ++ NL :: d :: t2 →
  is_space d = true.

Lemma label_match_takes pv s q g :
  label_match label pv s = Some (q, g) → ∃ t, t ≠ [] ∧ s = t ++ rest q.
Proof.
  unfold label_match. destruct (line_start pv); [|done].
  destruct (label s) as [[[x core] post]|] eqn:Hl; [|done].
  intros [= <- _]. cbn [rest].
  destruct (label_core _ _ _ _ Hl) as [-> Hne].
  exists (core ++ while is_space post). split; [by destruct core|].
  rewrite <-app_assoc. f_equal. apply while_drop.
Qed.

Lemma label_match_apart pv s q g t1 t2 :
  label_match label pv s = Some (q, g) → s = t1 ++ t2 ++ rest q →
  t1 ≠ [] → t2 ≠ [] →
  label_match label (prev_after pv t1) (t2 ++ rest q) = None.
Proof.
  unfold label_match at 1. destruct (line_start pv); [|done].
  destruct (label s) as [[[x core] post]|] eqn:Hl; [|done].
  intros [= <- _]. cbn [rest].
  destruct (label_core _ _ _ _ Hl) as [-> Hne].
  set (W := while is_space post). set (R := drop (length W) post).
  assert (HW : Forall (λ c, is_space c = true) W) by apply while_Forall.
  assert (Hpost : post = W ++ R) by apply while_drop.
  intros E Ht1 Ht2. rewrite Hpost in E at 1.
  rewrite !app_assoc in E. apply app_inv_tail in E.
  destruct t1 as [|a t1 _] using rev_ind; [done|]. clear Ht1.
  destruct t2 as [|d t2]; [done|]. clear Ht2.
  unfold label_match. rewrite prev_after_snoc. cbn [line_start].
  destruct (a =? NL) eqn:Ha; [|done]. apply N.eqb_eq in Ha. subst a.
  cbn [app]. rewrite label_no_space; [done|].
  apply app_eq_app in E as [l [[E1 E2]|[E1 E2]]].
  - destruct l as [|d' l].
    + rewrite Forall_forall in HW. apply HW. simpl in E2. rewrite <-E2.
      apply list_elem_of_here.
    + injection E2 as <- E2.
      apply (label_one_line _ _ _ _ t1 d l Hl).
      rewrite E1. by rewrite <-app_assoc.
  - rewrite Forall_forall in HW. apply HW. rewrite E2.
    apply elem_of_app. right. apply list_elem_of_here.
Qed.

(** The labels found by a scan of the text: those that stand at the start
    of a line. *)
Lemma finditer_labels (r : regex) (text x : pystr) :
  (∀ pv s, match_here r pv s = label_match label pv s) →
  x ∈ finditer r text
  ↔ ∃ pre core post,
      text = pre ++ core ++ post ∧ at_line_start pre ∧
      label (core ++ post) = Some (x, core, post).
Proof.
  intros Hm. unfold finditer. rewrite (finditer_from_hits r).
  - split.
    + intros (pre & post0 & q & g & -> & _ & Hq & ->).
      rewrite Hm in Hq. unfold label_match in Hq.
      destruct (line_start (prev_after None pre)) eqn:Hs; [|done].
      destruct (label post0) as [[[x core] post]|] eqn:Hl; [|done].
      injection Hq as _ <-. cbn [default].
      destruct (label_core _ _ _ _ Hl) as [-> _].
      exists pre, core, post. split; [done|]. split; [|done].
      by apply line_start_last.
    + intros (pre & core & post & -> & Hs & Hl).
      apply line_start_last in Hs. eexists pre, (core ++ post), _, _.
      split; [done|]. split; [lia|]. rewrite Hm. unfold label_match.
      rewrite Hs, Hl. cbn [fmap option_fmap option_map]. split; done.
  - intros pv s q g. rewrite Hm. apply label_match_takes.
  - intros pv s q g t1 t2. rewrite !Hm. apply label_match_apart.
  - intros pre post _ Hlt. simpl in Hlt. lia.
Qed.

End Labels.

(** ** The three labels *)

Lemma token_not_space c : token_char c = true → is_space c = false.
Proof.
  intros H. destruct (is_space c) eqn:Hs; [|done].
  apply is_space_elem in Hs. unfold white_space in Hs.
  repeat (apply elem_of_cons in Hs as [->|Hs]; [by vm_compute in H|]).
  by apply elem_of_nil in Hs.
Qed.

Lemma token_not_break c : token_char c = true → c ≠ NL.
Proof. intros H ->. by vm_compute in H. Qed.

Lemma upper_is_token c : is_upper_ascii c = true → token_char c = true.
Proof. unfold token_char. by intros ->. Qed.

Lemma while_nil_head p c s : p c = false → while p (c :: s) = [].
Proof. intros H. simpl. by rewrite H. Qed.

Lemma while_space_head p c s :
  (∀ d, p d = true → is_space d = false) → is_space c = true →
  while p (c :: s) = [].
Proof.
  intros Hp Hc. apply while_nil_head. destruct (p c) eqn:E; [|done].
  apply Hp in E. congruence.
Qed.

Lemma no_break_inside (core t1 t2 : pystr) d :
  NL ∉ core → core = t1 ++ NL :: d :: t2 → is_space d = true.
Proof.
  intros Hn ->. exfalso. apply Hn. apply elem_of_app. right.
  apply list_elem_of_here.
Qed.

Lemma Forall_token_no_break x :
  Forall (λ c, token_char c = true) x → NL ∉ x.
Proof.
  intros H Hin. rewrite Forall_forall in H.
  by apply (token_not_break NL (H _ Hin)).
Qed.

(** *** [Name:] *)

Lemma colon_label_spec s x core post :
  colon_label s = Some (x, core, post)
  ↔ s = core ++ post ∧ core = x ++ [COLON] ∧ x ≠ [] ∧
    Forall (λ c, token_char c = true) x.
Proof.
  unfold colon_label. split.
  - pose proof (while_drop token_char s) as Hs.
    pose proof (while_Forall token_char s) as HF.
    destruct (while token_char s) as [|a x'] eqn:Hw; [done|].
    destruct (drop (length (a :: x')) s) as [|c post'] eqn:Hd; [done|].
    destruct (c =? COLON) eqn:Hc; [|done]. apply N.eqb_eq in Hc. subst c.
    intros [= <- <- <-]. split_and!; [|done|done|done].
    rewrite Hs at 1. cbn [app]. f_equal. by rewrite <-app_assoc.
  - intros (-> & -> & Hx & HF). rewrite <-app_assoc. cbn [app].
    rewrite (ParserClaims.while_app_stop token_char x (COLON :: post) HF).
    2:{ intros c r [= <- _]. done. }
    destruct x as [|a x]; [done|].
    rewrite drop_app_length. by rewrite N.eqb_refl.
Qed.

Lemma colon_label_core s x core post :
  colon_label s = Some (x, core, post) → s = core ++ post ∧ core ≠ [].
Proof.
  intros (-> & -> & _ & _)%colon_label_spec. split; [done|]. by destruct x.
Qed.

Lemma colon_label_no_space c s :
  is_space c = true → colon_label (c :: s) = None.
Proof.
  intros Hc. unfold colon_label.
  by rewrite (while_space_head token_char c s token_not_space Hc).
Qed.

Lemma colon_label_one_line s x core post t1 d t2 :
  colon_label s = Some (x, core, post) → core = t1 ++ NL :: d :: t2 →
  is_space d = true.
Proof.
  intros (_ & -> & _ & HF)%colon_label_spec. apply no_break_inside.
  intros [H|H]%elem_of_app.
  - by apply (Forall_token_no_break x HF).
  - by apply list_elem_of_singleton in H.
Qed.

(** ** The patterns, tried at one position *)

Lemma bind_fmap_singleton {A B} (f : A → B) (l : list A) :
  (f <$> l) ≫= (λ y, [y]) = f <$> l.
Proof.
  induction l as [|a l IH]; [done|].
  by rewrite fmap_cons, bind_cons, IH.
Qed.

Lemma head_run_rep_end (p : N → bool) lo pv s g :
  head (run (Seq (Rep true lo None p) Eps) (Pos pv s, g))
  = if (lo <=? length (while p s))%nat
    then Some (Pos (prev_after pv (while p s)) (drop (length (while p s)) s), g)
    else None.
Proof.
  cbn [run fst snd prev rest]. rewrite bind_fmap_singleton, head_fmap.
  rewrite head_rep_greedy. by destruct (lo <=? _)%nat.
Qed.

Lemma run_group_plus (p : N → bool) (R : regex) pv s g :
  (∀ pv' c s' g', p c = true → run R (Pos pv' (c :: s'), g') = []) →
  run (Seq (Grp (plus p)) R) (Pos pv s, g)
  = match while p s with
    | [] => []
    | x => run R (Pos (prev_after pv x) (drop (length x) s), Some x)
    end.
Proof.
  intros HR. unfold plus. cbn [run fst snd prev rest].
  rewrite !list_fmap_bind.
  rewrite (rep_greedy_bind p _ 1 pv s).
  - pose proof (while_prefix p s) as Hp.
    destruct (while p s) as [|d ds] eqn:Hw; [done|].
    cbn [Nat.leb length compose fst snd rest]. do 3 f_equal.
    rewrite <-Hp at 1. by rewrite consumed_app.
  - intros pv' c s' Hc. cbn [compose fst snd rest]. by apply HR.
Qed.

Lemma run_chr c x :
  run (chr c) x
  = match rest x.1 with
    | d :: s' => if d =? c then [(Pos (Some d) s', x.2)] else []
    | [] => []
    end.
Proof.
  unfold chr. cbn [run]. destruct (rest x.1) as [|d s']; [done|].
  by rewrite (N.eqb_sym c d).
Qed.

Lemma match_here_colon pv s :
  match_here (seqs [Bol; Grp (plus token_char); chr COLON; star is_space]) pv s
  = label_match colon_label pv s.
Proof.
  unfold match_here, label_match. cbn [seqs foldr].
  change (run (Seq Bol ?R) ?x) with (run Bol x ≫= run R).
  assert (HB : run Bol (Pos pv s, None)
               = if line_start pv then [(Pos pv s, None)] else []).
  { cbn [run fst prev]. destruct pv as [c|]; [|done]. done. }
  rewrite HB. destruct (line_start pv); [|done]. rewrite bind_singleton.
  rewrite run_group_plus.
  2:{ intros pv' c s' g' Hc.
      change (run (Seq (chr COLON) ?R) ?x) with (run (chr COLON) x ≫= run R).
      rewrite run_chr. cbn [fst rest].
      destruct (c =? COLON) eqn:E; [|done].
      apply N.eqb_eq in E. subst c. done. }
  unfold colon_label. cbv zeta.
  destruct (while token_char s) as [|a x] eqn:Hw; [done|].
  change (run (Seq (chr COLON) ?R) ?x) with (run (chr COLON) x ≫= run R).
  rewrite run_chr. cbn [fst snd rest].
  destruct (drop (length (a :: x)) s) as [|c post]; [done|].
  destruct (c =? COLON) eqn:Hc; [|done]. rewrite bind_singleton.
  unfold star. rewrite head_run_rep_end. cbn [Nat.leb].
  cbn [fmap option_fmap option_map]. do 3 f_equal.
  by rewrite prev_after_snoc.
Qed.

(** *** [[Name]] *)

Lemma bracket_label_spec s x core post :
  bracket_label s = Some (x, core, post)
  ↔ s = core ++ post ∧ core = 91 :: x ++ [93] ∧ x ≠ [] ∧
    Forall (λ c, token_char c = true) x.
Proof.
  unfold bracket_label. split.
  - destruct s as [|b s]; [done|].
    destruct (b =? 91) eqn:Hb; [|done]. apply N.eqb_eq in Hb. subst b.
    pose proof (while_drop token_char s) as Hs.
    pose proof (while_Forall token_char s) as HF.
    destruct (while token_char s) as [|a x'] eqn:Hw; [done|].
    destruct (drop (length (a :: x')) s) as [|c post'] eqn:Hd; [done|].
    destruct (c =? 93) eqn:Hc; [|done]. apply N.eqb_eq in Hc. subst c.
    intros [= <- <- <-]. split_and!; [|done|done|done].
    rewrite Hs at 1. cbn [app]. do 2 f_equal. by rewrite <-app_assoc.
  - intros (-> & -> & Hx & HF). cbn [app]. rewrite <-app_assoc. cbn [app].
    rewrite N.eqb_refl.
    rewrite (ParserClaims.while_app_stop token_char x (93 :: post) HF).
    2:{ intros c r [= <- _]. done. }
    destruct x as [|a x]; [done|].
    rewrite drop_app_length. by rewrite N.eqb_refl.
Qed.

Lemma bracket_label_core s x core post :
  bracket_label s = Some (x, core, post) → s = core ++ post ∧ core ≠ [].
Proof. by intros (-> & -> & _ & _)%bracket_label_spec. Qed.

Lemma bracket_label_no_space c s :
  is_space c = true → bracket_label (c :: s) = None.
Proof.
  intros Hc. unfold bracket_label.
  destruct (c =? 91) eqn:E; [|done]. apply N.eqb_eq in E. by subst c.
Qed.

Lemma bracket_label_one_line s x core post t1 d t2 :
  bracket_label s = Some (x, core, post) → core = t1 ++ NL :: d :: t2 →
  is_space d = true.
Proof.
  intros (_ & -> & _ & HF)%bracket_label_spec. apply no_break_inside.
  intros [H|H]%elem_of_cons; [done|]. apply elem_of_app in H as [H|H].
  - by apply (Forall_token_no_break x HF).
  - by apply list_elem_of_singleton in H.
Qed.

Lemma match_here_bracket pv s :
  match_here
    (seqs [Bol; chr 91; Grp (plus token_char); chr 93; star is_space]) pv s
  = label_match bracket_label pv s.
Proof.
  unfold match_here, label_match. cbn [seqs foldr].
  change (run (Seq Bol ?R) ?x) with (run Bol x ≫= run R).
  assert (HB : run Bol (Pos pv s, None)
               = if line_start pv then [(Pos pv s, None)] else []).
  { cbn [run fst prev]. destruct pv as [c|]; [|done]. done. }
  rewrite HB. destruct (line_start pv); [|done]. rewrite bind_singleton.
  change (run (Seq (chr 91) ?R) ?x) with (run (chr 91) x ≫= run R).
  rewrite run_chr. cbn [fst snd rest]. unfold bracket_label.
  destruct s as [|b s]; [done|]. destruct (b =? 91) eqn:Hb; [|done].
  rewrite bind_singleton. rewrite run_group_plus.
  2:{ intros pv' c s' g' Hc.
      change (run (Seq (chr 93) ?R) ?x) with (run (chr 93) x ≫= run R).
      rewrite run_chr. cbn [fst rest].
      destruct (c =? 93) eqn:E; [|done].
      apply N.eqb_eq in E. subst c. done. }
  cbv zeta.
  destruct (while token_char s) as [|a x] eqn:Hw; [done|].
  change (run (Seq (chr 93) ?R) ?x) with (run (chr 93) x ≫= run R).
  rewrite run_chr. cbn [fst snd rest].
  destruct (drop (length (a :: x)) s) as [|c post]; [done|].
  destruct (c =? 93) eqn:Hc; [|done]. rewrite bind_singleton.
  unfold star. rewrite head_run_rep_end. cbn [Nat.leb].
  cbn [fmap option_fmap option_map]. do 3 f_equal.
  change (b :: (a :: x) ++ [c]) with ((b :: a :: x) ++ [c]).
  by rewrite prev_after_snoc.
Qed.

(** *** Capital letters, hyphen, three digits *)

Lemma upper_not_space c : is_upper_ascii c = true → is_space c = false.
Proof. intros H. by apply token_not_space, upper_is_token. Qed.

Lemma upper_not_hyphen c : is_upper_ascii c = true → (c =? HYPHEN) = false.
Proof.
  intros H. destruct (c =? HYPHEN) eqn:E; [|done].
  apply N.eqb_eq in E. by subst c.
Qed.

Lemma break_after_run (u t1 R L : pystr) :
  t1 ++ NL :: R = u ++ L → NL ∉ u →
  ∃ t1', t1 = u ++ t1' ∧ t1' ++ NL :: R = L.
Proof.
  revert t1. induction u as [|a u IH]; intros t1 E Hn; [by exists t1|].
  destruct t1 as [|b t1].
  - injection E as <- _. exfalso. apply Hn, list_elem_of_here.
  - injection E as -> E. destruct (IH t1 E) as (t1' & -> & <-).
    { intros H. apply Hn. by apply list_elem_of_further. }
    by exists t1'.
Qed.

Lemma code_label_spec s x core post :
  code_label s = Some (x, core, post)
  ↔ ∃ u d1 d2 d3 w1 w2,
      s = core ++ post ∧ x = u ++ [HYPHEN; d1; d2; d3] ∧
      core = x ++ [w1; w2] ∧ (2 ≤ length u)%nat ∧
      Forall (λ c, is_upper_ascii c = true) u ∧
      is_decimal d1 = true ∧ is_decimal d2 = true ∧ is_decimal d3 = true ∧
      is_space w1 = true ∧ is_space w2 = true.
Proof.
  unfold code_label. cbv zeta. split.
  - pose proof (while_drop is_upper_ascii s) as Hs.
    pose proof (while_Forall is_upper_ascii s) as HF.
    destruct (2 <=? length (while is_upper_ascii s))%nat eqn:Hlen; [|done].
    apply Nat.leb_le in Hlen.
    destruct (drop (length (while is_upper_ascii s)) s)
      as [|h [|d1 [|d2 [|d3 [|w1 [|w2 post']]]]]]; try done.
    destruct (h =? HYPHEN) eqn:Hh; [|done]. apply N.eqb_eq in Hh. subst h.
    destruct (is_decimal d1) eqn:H1; [|done].
    destruct (is_decimal d2) eqn:H2; [|done].
    destruct (is_decimal d3) eqn:H3; [|done].
    destruct (is_space w1) eqn:H4; [|done].
    destruct (is_space w2) eqn:H5; [|done].
    cbn [andb]. intros [= <- <- <-].
    exists (while is_upper_ascii s), d1, d2, d3, w1, w2.
    split_and!; try done.
    + rewrite Hs at 1. by rewrite <-!app_assoc.
    + by rewrite <-app_assoc.
  - intros (u & d1 & d2 & d3 & w1 & w2 & -> & -> & -> & Hlen & HF
            & H1 & H2 & H3 & H4 & H5).
    rewrite <-!app_assoc. cbn [app].
    rewrite (ParserClaims.while_app_stop is_upper_ascii u _ HF).
    2:{ intros c r [= <- _]. done. }
    apply Nat.leb_le in Hlen. rewrite Hlen.
    rewrite drop_app_length. rewrite N.eqb_refl, H1, H2, H3, H4, H5.
    cbn [andb]. by rewrite <-?app_assoc.
Qed.

Lemma code_label_core s x core post :
  code_label s = Some (x, core, post) → s = core ++ post ∧ core ≠ [].
Proof.
  intros (u & d1 & d2 & d3 & w1 & w2 & -> & -> & -> & _)%code_label_spec.
  split; [done|]. by destruct u.
Qed.

Lemma code_label_no_space c s :
  is_space c = true → code_label (c :: s) = None.
Proof.
  intros Hc. unfold code_label.
  by rewrite (while_space_head is_upper_ascii c s upper_not_space Hc).
Qed.

Lemma code_label_one_line s x core post t1 d t2 :
  code_label s = Some (x, core, post) → core = t1 ++ NL :: d :: t2 →
  is_space d = true.
Proof.
  intros (u & d1 & d2 & d3 & w1 & w2 & _ & -> & -> & _ & HF
          & H1 & H2 & H3 & H4 & H5)%code_label_spec.
  rewrite <-app_assoc. cbn [app]. intros E. symmetry in E.
  apply break_after_run in E as (t1' & _ & E).
  2:{ intros Hin. rewrite Forall_forall in HF.
      by apply (token_not_break NL (upper_is_token _ (HF _ Hin))). }
  destruct t1' as [|a1 [|a2 [|a3 [|a4 [|a5 [|a6 t1']]]]]];
    simplify_eq/=; try done.
  destruct t1'; done.
Qed.

Lemma match_here_code pv s :
  match_here
    (seqs [Bol;
           Grp (seqs [at_least 2 is_upper_ascii; chr HYPHEN;
                      exactly 3 is_decimal]);
           at_least 2 is_space]) pv s
  = label_match code_label pv s.
Proof.
  unfold match_here, label_match. cbn [seqs foldr].
  change (run (Seq Bol ?R) ?x) with (run Bol x ≫= run R).
  assert (HB : run Bol (Pos pv s, None)
               = if line_start pv then [(Pos pv s, None)] else []).
  { cbn [run fst prev]. destruct pv as [c|]; [|done]. done. }
  rewrite HB. destruct (line_start pv); [|done]. rewrite bind_singleton.
  set (G2 := Seq (chr HYPHEN) (Seq (exactly 3 is_decimal) Eps)).
  set (R := Seq (at_least 2 is_space) Eps).
  change (run (Seq (Grp (Seq (at_least 2 is_upper_ascii) G2)) R)
              (Pos pv s, None))
    with (((λ y : st, (y.1, Some (consumed s (rest y.1))))
             <$> (((λ q, (q, @None pystr))
                     <$> rep true is_upper_ascii 2 None pv s) ≫= run G2))
            ≫= run R).
  rewrite !list_fmap_bind.
  rewrite (rep_greedy_bind is_upper_ascii _ 2 pv s).
  2:{ intros pv' c s' Hc. cbn [compose]. unfold G2.
      change (run (Seq (chr HYPHEN) ?R) ?x)
        with (run (chr HYPHEN) x ≫= run R).
      rewrite run_chr. cbn [fst rest]. by rewrite upper_not_hyphen. }
  unfold code_label. cbv zeta.
  pose proof (while_drop is_upper_ascii s) as Hs.
  set (u := while is_upper_ascii s) in *.
  destruct (2 <=? length u)%nat; [|done].
  cbn [compose]. unfold G2.
  change (run (Seq (chr HYPHEN) ?R) ?x) with (run (chr HYPHEN) x ≫= run R).
  rewrite run_chr. cbn [fst snd rest].
  destruct (drop (length u) s) as [|h r2] eqn:Hd; [done|].
  destruct (h =? HYPHEN) eqn:Hh; [|by repeat case_match].
  rewrite bind_singleton. unfold exactly.
  change (run (Seq (Rep true 3 (Some 3%nat) is_decimal) Eps) ?x)
    with (((λ q, (q, x.2))
             <$> rep true is_decimal 3 (Some 3%nat) (prev x.1) (rest x.1))
            ≫= (λ y, [y])).
  rewrite bind_fmap_singleton, rep_exactly. cbn [fst snd prev rest].
  destruct r2 as [|d1 [|d2 [|d3 r3]]]; try done.
  cbn [length Nat.leb take forallb drop andb].
  destruct (is_decimal d1); [|by repeat case_match].
  destruct (is_decimal d2); [|by repeat case_match].
  destruct (is_decimal d3); [|by repeat case_match].
  match goal with
  | |- _ = ?rhs =>
      change (head (run (Seq (Rep true 2 None is_space) Eps)
                      (Pos (prev_after (Some h) [d1; d2; d3]) r3,
                       Some (consumed s r3)) ++ []) = rhs)
  end.
  rewrite app_nil_r, head_run_rep_end.
  destruct r3 as [|w1 [|w2 post]].
  - done.
  - cbn [while]. by destruct (is_space w1).
  - cbn [while]. destruct (is_space w1); [|done].
    destruct (is_space w2); [|done].
    cbn [length Nat.leb andb fmap option_fmap option_map drop].
    f_equal. f_equal.
    + f_equal.
      * rewrite !prev_after_cons.
        change (u ++ [h; d1; d2; d3; w1; w2])
          with (u ++ [h; d1; d2; d3; w1] ++ [w2]).
        by rewrite app_assoc, prev_after_snoc.
    + f_equal. rewrite Hs at 1.
      change (h :: d1 :: d2 :: d3 :: w1 :: w2 :: post)
        with ([h; d1; d2; d3] ++ w1 :: w2 :: post).
      rewrite app_assoc. by rewrite consumed_app.
Qed.

End LabelFacts.

Module SpeakerExtras.
Import Py Re ParserSpec DocumentLoader DocumentSpec ExtraSpec.
Import PyFacts ReFacts PatternFacts SpeakerFacts ScanFacts LabelFacts.

(** Property X18.  The second inline pattern finds a name exactly where
    a line begins with the name followed by a colon: the names it gives are
    the non-empty runs [x] of letters, digits, underscores and hyphens such
    that the text is [pre ++ x ++ ":" ++ post] with [pre] empty or ending
    in a line break.  No such line is passed over by the scan. *)
Theorem colon_speakers (pattern : regex) (text x : pystr) :
  SPEAKER_PATTERNS !! 1%nat = Some pattern →
  x ∈ finditer pattern text
  ↔ ∃ pre post,
      text = pre ++ x ++ COLON :: post ∧ at_line_start pre ∧
      x ≠ [] ∧ Forall (λ c, token_char c = true) x.
Proof.
  intros [= <-].
  rewrite (finditer_labels colon_label colon_label_core colon_label_no_space
             colon_label_one_line _ text x match_here_colon).
  split.
  - intros (pre & core & post & -> & Hs & Hl).
    apply colon_label_spec in Hl as (_ & -> & Hx & HF).
    exists pre, post. rewrite <-app_assoc. done.
  - intros (pre & post & -> & Hs & Hx & HF).
    exists pre, (x ++ [COLON]), post. rewrite <-app_assoc.
    split; [done|]. split; [done|].
    rewrite app_assoc. apply colon_label_spec. by rewrite <-app_assoc.
Qed.

Lemma colon_speakers_witness :
  lit "Interviewer"
  ∈ finditer (seqs [Bol; Grp (plus token_char); chr COLON; star is_space])
      sample_transcript.
Proof.
  apply (colon_speakers _ sample_transcript (lit "Interviewer") eq_refl).
  exists (lit "SPEAKERS" ++ [NL] ++ lit "Alice, Bob" ++ [NL; NL]),
    (lit " Hello" ++ [NL] ++ lit "[PA-001] Hi" ++ [NL]
     ++ lit "TH-001  How are you?" ++ [NL]).
  split; [vm_compute; reflexivity|]. split; [vm_compute; reflexivity|].
  split; [done|]. apply ParserClaims.Forall_check. vm_compute. reflexivity.
Defined.

(** Property X19.  The third inline pattern finds a name exactly where a
    line begins with the name in square brackets: the names it gives are
    the non-empty runs [x] of letters, digits, underscores and hyphens such
    that the text is [pre ++ "[" ++ x ++ "]" ++ post] with [pre] empty or
    ending in a line break. *)
Theorem bracket_speakers (pattern : regex) (text x : pystr) :
  SPEAKER_PATTERNS !! 2%nat = Some pattern →
  x ∈ finditer pattern text
  ↔ ∃ pre post,
      text = pre ++ 91 :: x ++ 93 :: post ∧ at_line_start pre ∧
      x ≠ [] ∧ Forall (λ c, token_char c = true) x.
Proof.
  intros [= <-].
  rewrite (finditer_labels bracket_label bracket_label_core
             bracket_label_no_space bracket_label_one_line _ text x
             match_here_bracket).
  split.
  - intros (pre & core & post & -> & Hs & Hl).
    apply bracket_label_spec in Hl as (_ & -> & Hx & HF).
    exists pre, post. cbn [app]. rewrite <-app_assoc. done.
  - intros (pre & post & -> & Hs & Hx & HF).
    exists pre, (91 :: x ++ [93]), post. cbn [app]. rewrite <-app_assoc.
    split; [done|]. split; [done|].
    change (91 :: x ++ [93] ++ post) with ((91 :: x) ++ [93] ++ post).
    rewrite app_assoc. apply bracket_label_spec.
    cbn [app]. by rewrite <-app_assoc.
Qed.

Lemma bracket_speakers_witness :
  lit "PA-001"
  ∈ finditer
      (seqs [Bol; chr 91; Grp (plus token_char); chr 93; star is_space])
      sample_transcript.
Proof.
  apply (bracket_speakers _ sample_transcript (lit "PA-001") eq_refl).
  exists (lit "SPEAKERS" ++ [NL] ++ lit "Alice, Bob" ++ [NL; NL]
          ++ lit "Interviewer: Hello" ++ [NL]),
    (lit " Hi" ++ [NL] ++ lit "TH-001  How are you?" ++ [NL]).
  split; [vm_compute; reflexivity|]. split; [vm_compute; reflexivity|].
  split; [done|]. apply ParserClaims.Forall_check. vm_compute. reflexivity.
Defined.

(** Property X20.  The first inline pattern finds a code exactly where a
    line begins with two or more capital letters A to Z, a hyphen and three
    decimal digits (of any script), followed by at least two white space
    characters; the name it gives is the code without the white space. *)
Theorem code_speakers (pattern : regex) (text x : pystr) :
  SPEAKER_PATTERNS !! 0%nat = Some pattern →
  x ∈ finditer pattern text
  ↔ ∃ pre post u d1 d2 d3 w1 w2,
      text = pre ++ x ++ w1 :: w2 :: post ∧ at_line_start pre ∧
      x = u ++ [HYPHEN; d1; d2; d3] ∧ (2 ≤ length u)%nat ∧
      Forall (λ c, is_upper_ascii c = true) u ∧
      is_decimal d1 = true ∧ is_decimal d2 = true ∧ is_decimal d3 = true ∧
      is_space w1 = true ∧ is_space w2 = true.
Proof.
  intros [= <-].
  rewrite (finditer_labels code_label code_label_core code_label_no_space
             code_label_one_line _ text x match_here_code).
  split.
  - intros (pre & core & post & -> & Hs & Hl).
    apply code_label_spec in Hl
      as (u & d1 & d2 & d3 & w1 & w2 & _ & -> & -> & H).
    exists pre, post, u, d1, d2, d3, w1, w2.
    split; [by rewrite <-!app_assoc|]. by split.
  - intros (pre & post & u & d1 & d2 & d3 & w1 & w2 & -> & Hs & -> & H).
    exists pre, ((u ++ [HYPHEN; d1; d2; d3]) ++ [w1; w2]), post.
    split; [by rewrite <-!app_assoc|]. split; [done|].
    apply code_label_spec. by exists u, d1, d2, d3, w1, w2.
Qed.

Lemma code_speakers_witness :
  lit "TH-001"
  ∈ finditer
      (seqs [Bol;
             Grp (seqs [at_least 2 is_upper_ascii; chr HYPHEN;
                        exactly 3 is_decimal]);
             at_least 2 is_space])
      sample_transcript.
Proof.
  apply (code_speakers _ sample_transcript (lit "TH-001") eq_refl).
  exists (lit "SPEAKERS" ++ [NL] ++ lit "Alice, Bob" ++ [NL; NL]
          ++ lit "Interviewer: Hello" ++ [NL] ++ lit "[PA-001] Hi" ++ [NL]),
    (lit "How are you?" ++ [NL]), (lit "TH"), 48, 48, 49, 32, 32.
  split; [vm_compute; reflexivity|]. split; [vm_compute; reflexivity|].
  split; [vm_compute; reflexivity|]. split; [vm_compute; lia|].
  split; [apply ParserClaims.Forall_check; vm_compute; reflexivity|].
  repeat split; vm_compute; reflexivity.
Defined.

(** ** The characters of a speaker name *)

Lemma token_pattern_match s :
  is_Some (match_ token_pattern s) →
  ∃ w, w ≠ [] ∧ Forall (λ c, token_char c = true) w ∧
       (s = w ∨ s = w ++ [NL]).
Proof.
  unfold match_, match_here, token_pattern. cbn [seqs foldr].
  change (run (Seq Bos ?R) ?x) with (run Bos x ≫= run R).
  cbn [run fst prev]. rewrite bind_singleton.
  unfold plus. cbn [run fst snd prev rest].
  rewrite list_fmap_bind, (rep_greedy_bind token_char _ 1 None s).
  - pose proof (while_drop token_char s) as Hs.
    pose proof (while_Forall token_char s) as HF.
    destruct (while token_char s) as [|a w] eqn:Hw; [by intros [? ?]|].
    cbn [Nat.leb length compose]. intros Hsome.
    exists (a :: w). split; [done|]. split; [done|].
    change (S (length w)) with (length (a :: w)) in Hsome.
    destruct (drop (length (a :: w)) s) as [|c [|c' r]] eqn:Hd.
    + left. by rewrite app_nil_r in Hs.
    + right. destruct (c =? NL) eqn:Hc.
      * apply N.eqb_eq in Hc. by subst c.
      * exfalso. cbn [fst snd rest] in Hsome. rewrite Hc in Hsome.
        by destruct Hsome.
    + exfalso. cbn [fst snd rest] in Hsome. by destruct Hsome.
  - intros pv' c s' Hc. cbn [compose run fst snd rest].
    destruct s' as [|c' s']; [|done].
    destruct (c =? NL) eqn:E; [|done].
    apply N.eqb_eq in E. subst c. done.
Qed.

Lemma header_token_characters line x :
  x ∈ header_tokens line →
  x ≠ [] ∧ Forall (λ c, token_char c = true) x.
Proof.
  unfold header_tokens. intros [Htok Hx]%list_elem_of_filter.
  apply list_elem_of_fmap in Hx as (t & -> & _).
  unfold is_token in Htok. apply andb_true_iff in Htok as [_ Hm].
  apply bool_decide_eq_true in Hm.
  apply token_pattern_match in Hm as (w & Hw & HF & [E|E]).
  - by rewrite E.
  - exfalso. unfold strip in E.
    by apply ParserExtras.rstrip_last in E.
Qed.

(** Property X21.  Every speaker that the detection returns is a
    non-empty name made of letters A to Z and a to z, digits, underscores
    and hyphens only (the digits of a code may be decimal digits of any
    script): a name holds no white space, comma or colon. *)
Theorem speakers_characters (text x : pystr) :
  x ∈ _extract_speakers text →
  x ≠ [] ∧
  Forall (λ c, token_char c = true ∨ is_decimal c = true) x.
Proof.
  unfold _extract_speakers.
  destruct (sorted_spec (inline_speakers text (header_speakers text ∅)))
    as (_ & _ & Hin).
  rewrite Hin, inline_speakers_spec, header_speakers_spec.
  rewrite !elem_of_union, !elem_of_list_to_set, list_elem_of_bind.
  assert (Htok : ∀ y : pystr, y ≠ [] ∧ Forall (λ c, token_char c = true) y →
                 y ≠ [] ∧
                 Forall (λ c, token_char c = true ∨ is_decimal c = true) y).
  { intros y [Hy HF]. split; [done|].
    eapply Forall_impl; [exact HF|]. intros c Hc. by left. }
  intros [[H|H]|(pattern & Hx & Hp)].
  - by apply elem_of_empty in H.
  - destruct (header_line text) as [line|]; [|by apply elem_of_nil in H].
    by apply Htok, (header_token_characters line).
  - unfold SPEAKER_PATTERNS in Hp.
    apply elem_of_cons in Hp as [->|Hp];
      [|apply elem_of_cons in Hp as [->|Hp];
        [|apply list_elem_of_singleton in Hp as ->]].
    + apply (finditer_labels code_label code_label_core code_label_no_space
               code_label_one_line _ text x match_here_code) in Hx
        as (pre & core & post & _ & _ & Hl).
      apply code_label_spec in Hl
        as (u & d1 & d2 & d3 & w1 & w2 & _ & -> & _ & _ & HF
            & H1 & H2 & H3 & _).
      split; [by destruct u|]. apply Forall_app. split.
      * eapply Forall_impl; [exact HF|]. intros c Hc. left.
        by apply upper_is_token.
      * constructor; [by left|]. constructor; [by right|].
        constructor; [by right|]. constructor; [by right|]. constructor.
    + apply (finditer_labels colon_label colon_label_core
               colon_label_no_space colon_label_one_line _ text x
               match_here_colon) in Hx
        as (pre & core & post & _ & _ & Hl).
      apply colon_label_spec in Hl as (_ & _ & Hne & HF). by apply Htok.
    + apply (finditer_labels bracket_label bracket_label_core
               bracket_label_no_space bracket_label_one_line _ text x
               match_here_bracket) in Hx
        as (pre & core & post & _ & _ & Hl).
      apply bracket_label_spec in Hl as (_ & _ & Hne & HF). by apply Htok.
Qed.

Lemma speakers_characters_witness :
  lit "TH-001" ∈ _extract_speakers sample_transcript ∧
  lit "TH-001" ≠ [] ∧
  Forall (λ c, token_char c = true ∨ is_decimal c = true) (lit "TH-001").
Proof.
  assert (H : lit "TH-001" ∈ _extract_speakers sample_transcript).
  { assert (E : _extract_speakers sample_transcript
                = [lit "Alice"; lit "Bob"; lit "Interviewer"; lit "PA-001";
                   lit "TH-001"]) by (vm_compute; reflexivity).
    rewrite E. do 4 apply list_elem_of_further. apply list_elem_of_here. }
  split; [exact H|].
  apply (speakers_characters sample_transcript (lit "TH-001") H).
Defined.

End SpeakerExtras.

(** * The encoder: the prompt shown and the prompt sent *)

Module PreviewExtras.
Import Py Re Parser ParserSpec Table Encoder ParserFacts LimitFacts TableExtras.
Import DocumentLoader(Document, Path, node, load).

Section Client.

Variables E world float : Type.
Variable max_str_digits : nat.
Variable format : pystr → pystr → pystr → pystr → pystr → E + pystr.
Variable complete : pystr → Z → float → world → (E + option pystr) * world.
Variable str_lower : pystr → pystr.
Variable list_of_set : gset pystr → list pystr.
Variables (codebook prompt : pystr).

(** Property X23.  For a document given by a path that loads,
    [preview_prompt] and [get_raw_response] work on the first of the
    documents loaded, in the order of [load]; taking the first document
    never fails, since [load] returns no empty list. *)
Theorem first_document (path : Path) (target : option node)
    (documents : list Document) :
  load str_lower list_of_set path target = Ok documents →
  ∃ doc,
    head documents = Some doc ∧
    preview_prompt E format str_lower list_of_set (inr (path, target))
      codebook prompt
    = preview_prompt E format str_lower list_of_set (inl doc) codebook prompt ∧
    ∀ max_tokens temperature w,
      get_raw_response E world float format complete str_lower list_of_set
        (inr (path, target)) codebook prompt max_tokens temperature w
      = get_raw_response E world float format complete str_lower list_of_set
          (inl doc) codebook prompt max_tokens temperature w.
Proof.
  intros Hload.
  destruct (LoaderExtras.load_Ok_cons _ _ _ _ _ Hload) as (d & ds & ->).
  exists d. split; [done|].
  unfold preview_prompt, get_raw_response. rewrite Hload.
  cbn [mbind result_bind]. done.
Qed.

(** Property X24.  The prompt that [preview_prompt] shows for a document is
    the prompt that [get_raw_response] and [encode] send for it: when the
    model answers that prompt, [get_raw_response] returns the answer, and
    [encode] parses that answer for the document.  The table that [encode]
    makes for the document is the table of the instances parsed from the
    answer; it is made whenever the answer is a string none of whose
    numerals exceeds the limit of the interpreter. *)
Theorem preview_is_sent (doc : Document) (formatted_prompt : pystr)
    (response : option pystr) (max_tokens : Z) (temperature : float)
    (w w' : world) :
  preview_prompt E format str_lower list_of_set (inl doc) codebook prompt
    = Return formatted_prompt →
  complete formatted_prompt max_tokens temperature w = (inr response, w') →
  get_raw_response E world float format complete str_lower list_of_set
    (inl doc) codebook prompt max_tokens temperature w
  = (Return response, w') ∧
  _process_document E world float max_str_digits format complete doc codebook
    prompt max_tokens temperature w
  = match response with
    | None => (Fail (Internal TypeError), w')
    | Some text =>
        match parse_response max_str_digits text (DocumentLoader.doc_id doc)
        with
        | Ok instances => (Return (instances_to_dataframe instances), w')
        | Raise e => (Fail (Internal e), w')
        end
    end ∧
  ∀ text, response = Some text →
    within_limit max_str_digits text = true →
    ∃ instances,
      parse_response max_str_digits text (DocumentLoader.doc_id doc)
      = Ok instances ∧
      _process_document E world float max_str_digits format complete doc
        codebook prompt max_tokens temperature w
      = (Return (instances_to_dataframe instances), w').
Proof.
  unfold preview_prompt, get_raw_response, _process_document.
  destruct (format _ _ _ _ _) as [e|p]; [done|].
  intros [= ->] Hc. rewrite Hc. split; [done|]. split; [done|].
  intros text -> Hw. rewrite parse_response_within by done. by eexists.
Qed.

End Client.

Lemma first_document_witness :
  ∃ doc,
    preview_prompt unit ExtraSpec.sample_format DocumentLoader.ascii_lower
      DocumentLoader.sorted
      (inr ({| DocumentLoader.path_str := lit "/data/b.txt";
               DocumentLoader.suffix := lit ".txt";
               DocumentLoader.stem := lit "b" |},
            Some (DocumentLoader.RegularFile
                    (DocumentLoader.Decoded
                       {| DocumentLoader.text := lit "Bob: hi";
                          DocumentLoader.fieldnames := None;
                          DocumentLoader.rows := [] |}))))
      (lit "codebook") (lit "Text: ")
    = preview_prompt unit ExtraSpec.sample_format DocumentLoader.ascii_lower
        DocumentLoader.sorted (inl doc) (lit "codebook") (lit "Text: ").
Proof.
  destruct (load DocumentLoader.ascii_lower DocumentLoader.sorted
              {| DocumentLoader.path_str := lit "/data/b.txt";
                 DocumentLoader.suffix := lit ".txt";
                 DocumentLoader.stem := lit "b" |}
              (Some (DocumentLoader.RegularFile
                       (DocumentLoader.Decoded
                          {| DocumentLoader.text := lit "Bob: hi";
                             DocumentLoader.fieldnames := None;
                             DocumentLoader.rows := [] |}))))
    as [documents|e] eqn:Hload;
    [|exfalso; vm_compute in Hload; discriminate Hload].
  destruct (first_document unit nat unit ExtraSpec.sample_format
              ExtraSpec.sample_complete DocumentLoader.ascii_lower
              DocumentLoader.sorted (lit "codebook") (lit "Text: ") _ _
              documents Hload) as (doc & _ & Hp & _).
  by exists doc.
Defined.

Lemma preview_is_sent_witness :
  get_raw_response unit nat unit ExtraSpec.sample_format
    ExtraSpec.sample_complete DocumentLoader.ascii_lower DocumentLoader.sorted
    (inl (ExtraSpec.sample_doc "D1" "I felt alone.")) (lit "codebook")
    (lit "Text: ") 4096 () 0%nat
  = (Return (Some ParserSpec.sample_one), 1%nat) ∧
  ∃ instances,
    parse_response default_max_str_digits ParserSpec.sample_one (lit "D1")
    = Ok instances ∧
    _process_document unit nat unit default_max_str_digits
      ExtraSpec.sample_format ExtraSpec.sample_complete
      (ExtraSpec.sample_doc "D1" "I felt alone.")
      (lit "codebook") (lit "Text: ") 4096 () 0%nat
    = (Return (instances_to_dataframe instances), 1%nat).
Proof.
  destruct (preview_is_sent unit nat unit default_max_str_digits
              ExtraSpec.sample_format ExtraSpec.sample_complete
              DocumentLoader.ascii_lower DocumentLoader.sorted
              (lit "codebook") (lit "Text: ")
              (ExtraSpec.sample_doc "D1" "I felt alone.")
              (lit "Text: I felt alone.") (Some ParserSpec.sample_one) 4096 ()
              0%nat 1%nat) as (H1 & _ & H3).
  - vm_compute. reflexivity.
  - vm_compute. reflexivity.
  - split; [exact H1|]. apply (H3 ParserSpec.sample_one eq_refl).
    vm_compute. reflexivity.
Defined.

End PreviewExtras.
